(** * Surya call-graph resolver: import closure, inheritance order, call resolution

    A shallow embedding of [src/graph.js] and [src/utils/importer.js].
    JavaScript objects used as dictionaries are finite maps, [Set]s and arrays
    are insertion-ordered lists, thrown exceptions are the [Err] branch of
    [result], and the mutable variables captured by the visitor callbacks are
    fields of explicit state records threaded through the traversal. *)

From Stdlib Require Import String Ascii List Bool Arith Lia.
From stdpp Require Import base option list gmap strings.

Local Open Scope string_scope.
Local Open Scope list_scope.
Set Warnings "-register-all".

(* ===================================================================== *)
(** ** Results and errors *)
(* ===================================================================== *)

(** The exceptions the two source files throw (or let through). [TypeError]
    stands for the JavaScript runtime error raised when a property of
    [undefined] or [null] is read; [OutOfFuel] is the only outcome that is
    not one of the program: the recursion bound of the embedding is used up. *)
Inductive Error :=
| EmptyInputError
| InvalidImportPath (file : string)
| UnresolvedImport (resolvedPath : string)
| AmbiguousRemapping
| UnresolvedRemapping
| ParseError
| InconsistentInheritance
| IOError
| TypeError
| OutOfFuel.

Inductive result (A : Type) :=
| Ok (a : A)
| Err (e : Error).
Arguments Ok {A} a.
Arguments Err {A} e.

#[global] Instance result_ret : MRet result := fun A a => Ok a.
#[global] Instance result_bind : MBind result := fun A B f m =>
  match m with
  | Ok a => f a
  | Err e => Err e
  end.

Section Loops.
Context {S X Y : Type}.

(** [for (x of xs) { st = body(st, x) }] where [body] may throw. *)
Definition forM (body : S -> X -> result S) : list X -> S -> result S :=
  fix go (xs : list X) (st : S) : result S :=
    match xs with
    | [] => Ok st
    | x :: xs' => st' ← body st x; go xs' st'
    end.

(** [xs.map(f)] where [f] may throw. *)
Definition mapM_result (f : X -> result Y) : list X -> result (list Y) :=
  fix go (xs : list X) : result (list Y) :=
    match xs with
    | [] => Ok []
    | x :: xs' => y ← f x; ys ← go xs'; Ok (y :: ys)
    end.
End Loops.

(* ===================================================================== *)
(** ** JavaScript strings and values *)
(* ===================================================================== *)

Module Js.

(** A value that the source stores in a table or a variable: [null],
    [undefined] or a string. *)
Inductive val :=
| Null
| Undefined
| Str (s : string).

#[global] Instance val_eq_dec : EqDecision val.
Proof. solve_decision. Defined.

(** [ToString], as used by template literals and property keys. *)
Definition to_string (v : val) : string :=
  match v with
  | Null => "null"
  | Undefined => "undefined"
  | Str s => s
  end.

Definition eqb (a b : val) : bool := bool_decide (a = b).

(** [xs.includes(v)] on an array of strings. *)
Definition includes_str (xs : list string) (v : val) : bool :=
  match v with
  | Str s => bool_decide (s ∈ xs)
  | _ => false
  end.

(** [xs.includes(v)] on an array whose entries may be [null]. *)
Definition includes (xs : list val) (v : val) : bool := bool_decide (v ∈ xs).

Definition LF : ascii := ascii_of_nat 10.
Definition CR : ascii := ascii_of_nat 13.
Definition DQUOTE : ascii := ascii_of_nat 34.

Definition cons_char (a : ascii) (parts : list string) : list string :=
  match parts with
  | [] => [String a EmptyString]
  | h :: t => String a h :: t
  end.

(** [s.split(c)] for a one-character separator. *)
Fixpoint split (c : ascii) (s : string) : list string :=
  match s with
  | EmptyString => [EmptyString]
  | String a s' =>
      if Ascii.eqb a c then EmptyString :: split c s'
      else cons_char a (split c s')
  end.

(** [s.split(/\r?\n/)]. *)
Fixpoint split_lines (s : string) : list string :=
  match s with
  | EmptyString => [EmptyString]
  | String a s' =>
      if Ascii.eqb a LF then EmptyString :: split_lines s'
      else if Ascii.eqb a CR then
        match s' with
        | String b s'' =>
            if Ascii.eqb b LF then EmptyString :: split_lines s''
            else cons_char a (split_lines s')
        | EmptyString => cons_char a (split_lines s')
        end
      else cons_char a (split_lines s')
  end.

Fixpoint drop (n : nat) (s : string) : string :=
  match n, s with
  | O, _ => s
  | S n', String _ s' => drop n' s'
  | S _, EmptyString => EmptyString
  end.

Fixpoint take (n : nat) (s : string) : string :=
  match n, s with
  | S n', String a s' => String a (take n' s')
  | _, _ => EmptyString
  end.

(** [s.startsWith(p)], also [s.indexOf(p) === 0]. *)
Definition starts_with (s p : string) : bool := String.prefix p s.

(** [s.endsWith(p)]. *)
Definition ends_with (s p : string) : bool :=
  (String.length p <=? String.length s)%nat
  && String.eqb (drop (String.length s - String.length p) s) p.

(** [s.includes(sub)]. *)
Fixpoint str_includes (s sub : string) : bool :=
  String.prefix sub s
  || match s with
     | EmptyString => false
     | String _ s' => str_includes s' sub
     end.

Definition DOLLAR : ascii := ascii_of_nat 36.
Definition AMPERSAND : ascii := ascii_of_nat 38.
Definition QUOTE : ascii := ascii_of_nat 39.
Definition BACKTICK : ascii := ascii_of_nat 96.

(** The replacement text of [s.replace(pat, rep)] for a string pattern
    (GetSubstitution without captures): a dollar sign followed by a second
    one gives one dollar sign, followed by an ampersand the matched text,
    by a backtick the text before the match, by a quote the text after it;
    any other dollar sign stands for itself. *)
Fixpoint expand (matched before after rep : string) : string :=
  match rep with
  | EmptyString => EmptyString
  | String a rest =>
      if Ascii.eqb a DOLLAR then
        match rest with
        | String b rest' =>
            if Ascii.eqb b DOLLAR then String DOLLAR (expand matched before after rest')
            else if Ascii.eqb b AMPERSAND then matched +:+ expand matched before after rest'
            else if Ascii.eqb b BACKTICK then before +:+ expand matched before after rest'
            else if Ascii.eqb b QUOTE then after +:+ expand matched before after rest'
            else String a (expand matched before after rest)
        | EmptyString => String a EmptyString
        end
      else String a (expand matched before after rest)
  end.

(** [s.replace(pat, rep)] below the characters [before], which were
    searched without a match. *)
Fixpoint replace_after (before s pat rep : string) : string :=
  if String.prefix pat s
  then expand pat before (drop (String.length pat) s) rep
       +:+ drop (String.length pat) s
  else match s with
       | EmptyString => EmptyString
       | String a s' =>
           String a (replace_after (before +:+ String a EmptyString) s' pat rep)
       end.

(** [s.replace(pat, rep)] with a string pattern: the first occurrence only. *)
Definition replace (s pat rep : string) : string :=
  replace_after EmptyString s pat rep.

(** [s.substring(i, j)] for [i <= j]. *)
Definition substring (i j : nat) (s : string) : string :=
  take (j - i) (drop i s).

(** [s.replace] with the global double-quote pattern and the empty
    replacement: every double quote is removed. *)
Fixpoint strip_quotes (s : string) : string :=
  match s with
  | EmptyString => EmptyString
  | String a s' =>
      if Ascii.eqb a DQUOTE then strip_quotes s'
      else String a (strip_quotes s')
  end.

(** [s.slice(0, 1)]. *)
Definition slice01 (s : string) : string := take 1 s.

(** [new Set(...)]'s [add] and [has] on an insertion-ordered list. *)
Definition set_has (x : string) (s : list string) : bool := bool_decide (x ∈ s).
Definition set_add (x : string) (s : list string) : list string :=
  if set_has x s then s else s ++ [x].

(** [[...new Set(xs)]]: duplicates dropped, first occurrences kept. *)
Definition set_of_list (xs : list string) : list string :=
  fold_left (fun acc x => set_add x acc) xs [].

(** The characters of a string, as iterating it yields them. *)
Fixpoint chars (s : string) : list string :=
  match s with
  | EmptyString => []
  | String a s' => String a EmptyString :: chars s'
  end.

(** [String(aSet)], the property key a [Set] object is coerced to by
    [hasOwnProperty(aSet)] (there is no [Symbol.toPrimitive] on a [Set], so
    [Object.prototype.toString] answers with the tag). *)
Definition set_to_key (s : list string) : string := "[object Set]".

(** [new Set(...args)]: the [Set] constructor reads its FIRST argument as
    the iterable and ignores the others; iterating a string yields its
    characters. With no argument the set is empty. *)
Definition new_set_spread (args : list string) : list string :=
  match args with
  | [] => []
  | first :: _ => set_of_list (chars first)
  end.

(** What a plain object inherits from [Object.prototype]: the built-in
    functions and the accessor [__proto__]. Each is given by the string it
    is coerced to where it is used as a property key or in a template
    literal (a function by its source text, the prototype object by its
    tag); no identifier equals one of these strings. *)
Definition native (name : string) : string :=
  "function " +:+ name +:+ "() { [native code] }".

Definition object_prototype : list (string * string) :=
  [("constructor", native "Object");
   ("__defineGetter__", native "__defineGetter__");
   ("__defineSetter__", native "__defineSetter__");
   ("hasOwnProperty", native "hasOwnProperty");
   ("__lookupGetter__", native "__lookupGetter__");
   ("__lookupSetter__", native "__lookupSetter__");
   ("isPrototypeOf", native "isPrototypeOf");
   ("propertyIsEnumerable", native "propertyIsEnumerable");
   ("toString", native "toString");
   ("valueOf", native "valueOf");
   ("__proto__", "[object Object]");
   ("toLocaleString", native "toLocaleString")].

Definition inherited (key : string) : option string :=
  snd <$> List.find (fun member => String.eqb key (fst member)) object_prototype.

End Js.

(* ===================================================================== *)
(** ** Syntax trees of the external parser *)
(* ===================================================================== *)

(** The parser is an external collaborator: [parse(text)] yields a tree and
    [visit(tree, handlers)] walks it depth first, calling the handler of a
    node's kind on entry and the [:exit] handler after its children. The
    trees below keep the node kinds the visitors of [graph.js] and
    [importer.js] have handlers for, with the properties these handlers read;
    every other kind is an [OtherNode] / [OtherExpression] / [OtherPart] that
    only carries its children, in the order [visit] walks them. *)
Module Ast.

(** [node.range]: first and last character offsets ([range: true]). *)
Definition Range : Type := nat * nat.

Inductive TypeName :=
| ElementaryTypeName (name : string)
| UserDefinedTypeName (namePath : string)
| ArrayTypeName (baseTypeName : TypeName)
| Mapping (keyType valueType : TypeName)
| FunctionTypeName.

(** [typeName.name]: only elementary type names carry the property. *)
Definition typeName_name (t : TypeName) : Js.val :=
  match t with
  | ElementaryTypeName n => Js.Str n
  | _ => Js.Undefined
  end.

(** [typeName.namePath]: only user-defined type names carry it. *)
Definition typeName_namePath (t : TypeName) : Js.val :=
  match t with
  | UserDefinedTypeName p => Js.Str p
  | _ => Js.Undefined
  end.

(** A [VariableDeclaration] or a parameter of a [ParameterList]; [name] is
    [null] for an unnamed parameter. *)
Record VariableDeclaration := {
  var_name : Js.val;
  var_typeName : TypeName
}.

Inductive Expression :=
| Identifier (range : Range) (name : string)
| NumberLiteral (range : Range) (number : string)
| MemberAccess (range : Range) (expression : Expression) (memberName : string)
| FunctionCall (range : Range) (expression : Expression)
    (arguments : list Expression)
| ElementaryTypeNameExpression (range : Range) (typeName : TypeName)
| OtherExpression (range : Range) (children : list Expression).

Definition range_of (e : Expression) : Range :=
  match e with
  | Identifier r _ | NumberLiteral r _ | MemberAccess r _ _
  | FunctionCall r _ _ | ElementaryTypeNameExpression r _
  | OtherExpression r _ => r
  end.

(** [e.hasOwnProperty('name')] and [e.name]. *)
Definition has_name (e : Expression) : bool :=
  match e with Identifier _ _ => true | _ => false end.
Definition expr_name (e : Expression) : Js.val :=
  match e with Identifier _ n => Js.Str n | _ => Js.Undefined end.

(** Nodes below a contract member. [ParameterList] is a node of earlier
    versions of the parser: the parser the program imports hands the
    parameters of a function over as [VariableDeclaration] nodes, so the
    trees it produces hold no [ParameterList] and the handler of that name
    is not reached on them. *)
Inductive Node :=
| ParameterList (parameters : list VariableDeclaration)
| VariableDeclarationNode (v : VariableDeclaration)
| ModifierInvocation (name : string) (arguments : list Expression)
| ExpressionNode (e : Expression)
| OtherNode (children : list Node).

Record FunctionDefinition := {
  fn_name : Js.val;
  isConstructor : bool;
  isFallback : bool;
  isReceiveEther : bool;
  visibility : string;
  stateMutability : Js.val;
  fn_children : list Node
}.

Inductive ContractPart :=
| StateVariableDeclaration (variables : list VariableDeclaration)
    (children : list Node)
| FunctionDefinitionPart (f : FunctionDefinition)
| ModifierDefinition (name : string) (children : list Node)
| EventDefinition (name : string) (children : list Node)
| StructDefinition (name : string) (children : list Node)
| CustomErrorDefinition (name : string) (children : list Node)
| UsingForDeclaration (libraryName : string) (typeName : option TypeName)
| OtherPart (children : list Node).

(** An [InheritanceSpecifier]: [baseName.namePath] and its arguments. *)
Record InheritanceSpecifier := {
  baseName_namePath : string;
  base_arguments : list Node
}.

Record ContractDefinition := {
  contract_name : string;
  contract_kind : string;
  baseContracts : list InheritanceSpecifier;
  subNodes : list ContractPart
}.

Inductive SourceItem :=
| ImportDirective (path : string)
| ContractItem (c : ContractDefinition)
| FileLevel (p : ContractPart).

Definition SourceUnit : Type := list SourceItem.

(** The options [parse] is called with: [{tolerant: true}] by the importer,
    [{range: true}] by the graph builder. *)
Inductive ParseOptions := Tolerant | WithRange.

End Ast.

(* ===================================================================== *)
(** ** The platform: file system, paths, parser *)
(* ===================================================================== *)

(** What [fs.readFileSync] does. *)
Inductive ReadResult :=
| ReadOk (content : string)
| ReadEISDIR
| ReadFailed.

(** Node's [fs] and [path] modules and the parser's [parse], as the two
    source files call them. [cwd] is [process.cwd()]. *)
Record Platform := {
  path_sep : ascii;
  path_resolve : string -> string -> string;
  path_join : string -> string -> string;
  path_dirname : string -> string;
  cwd : string;
  fs_readFileSync : string -> ReadResult;
  fs_readdirSync : string -> result (list string);
  fs_existsSync : string -> bool;
  fs_isFile : string -> bool;
  parse : Ast.ParseOptions -> string -> option Ast.SourceUnit
}.

(* ===================================================================== *)
(** ** [src/utils/importer.js] *)
(* ===================================================================== *)

Module Importer.

Section WithPlatform.
Variable P : Platform.

(** What the [while (keepLooping)] loop of [resolveImportPath] leaves
    behind. *)
Record DependencyRoot := {
  currentDir : string;
  nodeModulesBool : bool;
  forgeRemappingsBool : bool
}.

(** The [while (keepLooping)] loop. [currentDirArray.pop()] is
    [removelast]; each round that keeps looping shortens the array, so
    [S (length currentDirArray)] rounds are more than the loop can make
    when [topmostDirArray] is not empty. *)
Fixpoint findDependencyRoot (fuel : nat) (topmostDirArray : list string)
    (currentDir : string) (currentDirArray : list string)
  : result DependencyRoot :=
  match fuel with
  | O => Err OutOfFuel
  | S fuel' =>
      if (length currentDirArray <? length topmostDirArray)%nat
      then Err UnresolvedRemapping
      else
        currentDirContents ← fs_readdirSync P currentDir;
        let nm := bool_decide ("node_modules" ∈ currentDirContents) in
        let fr := bool_decide ("remappings.txt" ∈ currentDirContents) in
        if fr || nm
        then Ok {| currentDir := currentDir;
                   nodeModulesBool := nm;
                   forgeRemappingsBool := fr |}
        else findDependencyRoot fuel' topmostDirArray
               (path_resolve P currentDir "..")
               (removelast currentDirArray)
  end.

(** [xs[i]], which is [undefined] past the end of the array:
    [remappingSplit[1]] of a line without separator. *)
Definition nth_js (i : nat) (xs : list string) : Js.val :=
  match xs !! i with
  | Some s => Js.Str s
  | None => Js.Undefined
  end.

(** [remappingSplit[0]] and [remappingSplit[1]] of a manifest line. *)
Definition remappingInput (line : string) : string :=
  Js.to_string (nth_js 0 (Js.split "=" line)).
Definition remappingOutput (line : string) : Js.val :=
  nth_js 1 (Js.split "=" line).

(** [remappingSplit.length > 2]: more than one separator in the line. *)
Definition multipleAssignments (line : string) : bool :=
  (2 <? length (Js.split "=" line))%nat.

(** [remappingSplit[0].includes(importBase)]. *)
Definition lineMatches (importBase line : string) : bool :=
  Js.str_includes (remappingInput line) importBase.

(** The [for (let idx ...)] loop over [remappingsArray]. *)
Fixpoint scanRemappings (remappingsArray : list string) (importBase : string)
  : result (string * Js.val) :=
  match remappingsArray with
  | [] => Ok (EmptyString, Js.Str EmptyString)
  | line :: rest =>
      if multipleAssignments line then Err AmbiguousRemapping
      else if lineMatches importBase line
      then Ok (remappingInput line, remappingOutput line)
      else scanRemappings rest importBase
  end.

(** [importedFilePath.split("/")[0]]. *)
Definition importBaseOf (importedFilePath : string) : string :=
  Js.to_string (nth_js 0 (Js.split "/" importedFilePath)).

(** The check that ends [resolveImportPath]. *)
Definition verifyIsFile (resolvedPath : string) : result string :=
  if negb (fs_existsSync P resolvedPath) || negb (fs_isFile P resolvedPath)
  then Err (UnresolvedImport resolvedPath)
  else Ok resolvedPath.

(** The remapped branch of [resolveImportPath], after the dependency root
    has been found: lines 108 to 137. [resolvedPath] is only assigned in the
    manifest block; when it is not, the block of [node_modules] assigns it,
    so the [undefined] it would be otherwise is never read. *)
Definition resolveRemapped (root : DependencyRoot) (importedFilePath : string)
  : result string :=
  remapped ←
    (if forgeRemappingsBool root then
       match fs_readFileSync P (path_join P (currentDir root) "remappings.txt") with
       | ReadOk remappingsFile =>
           '(forgeRemappingInput, forgeRemappingOutput) ←
             scanRemappings (Js.split_lines remappingsFile)
               (importBaseOf importedFilePath);
           Ok (forgeRemappingInput,
               Some (path_join P (currentDir root)
                       (Js.replace importedFilePath forgeRemappingInput
                          (Js.to_string forgeRemappingOutput))))
       | _ => Err IOError
       end
     else Ok (EmptyString, None));
  let '(forgeRemappingInput, resolvedPath) := remapped in
  if negb (forgeRemappingsBool root)
     || (forgeRemappingsBool root && bool_decide (forgeRemappingInput = EmptyString))
  then Ok (path_join P (path_join P (currentDir root) "node_modules")
             importedFilePath)
  else match resolvedPath with
       | Some p => Ok p
       | None => Err TypeError
       end.

(** The walk upward of the remapped branch: it starts at the parent of
    the directory of the importing file. *)
Definition dependencyRootOf (baseFilePath projectDir : string)
  : result DependencyRoot :=
  let baseDirPath := path_dirname P baseFilePath in
  let currentDirArray := removelast (Js.split (path_sep P) baseDirPath) in
  findDependencyRoot (S (length currentDirArray))
    (Js.split (path_sep P) projectDir)
    (path_resolve P baseDirPath "..") currentDirArray.

(** An import path that starts with [.] or [/]. *)
Definition isRelativeOrAbsolute (importedFilePath : string) : bool :=
  bool_decide (Js.slice01 importedFilePath = ".")
  || bool_decide (Js.slice01 importedFilePath = "/").

Definition resolveImportPath (baseFilePath importedFilePath projectDir : string)
  : result string :=
  resolvedPath ←
    (if isRelativeOrAbsolute importedFilePath
     then Ok (path_resolve P (path_dirname P baseFilePath) importedFilePath)
     else
       root ← dependencyRootOf baseFilePath projectDir;
       resolveRemapped root importedFilePath);
  verifyIsFile resolvedPath.

(** The [ImportDirective] handler, over the import directives of a file in
    source order; [importedFiles] is only read. *)
Definition collectNewFiles (file projectDir : string)
    (importedFiles : list string) (ast : Ast.SourceUnit)
  : result (list string) :=
  forM (fun newFiles item =>
          match item with
          | Ast.ImportDirective path =>
              newFile ← resolveImportPath file path projectDir;
              Ok (if Js.set_has newFile importedFiles then newFiles
                  else newFiles ++ [newFile])
          | _ => Ok newFiles
          end) ast [].

(** [importProfiler(files, projectDir, importedFiles)]. The [Set]
    [importedFiles] is shared by all the recursive calls, so it is the
    state each call returns; the value the function returns is that set
    (on the [EISDIR] path) or the array made from it, both the same
    list here. [fuel] bounds the depth of the recursion over the
    import graph. *)
Fixpoint importProfiler (fuel : nat) (files : list string)
    (projectDir : string) (importedFiles : list string)
  : result (list string) :=
  match fuel with
  | O => Err OutOfFuel
  | S fuel' =>
      (fix loop (files : list string) (importedFiles : list string)
         : result (list string) :=
         match files with
         | [] => Ok importedFiles
         | file :: rest =>
             let file := path_resolve P projectDir file in
             if negb (Js.starts_with file projectDir)
                || negb (Js.ends_with file ".sol")
             then Err (InvalidImportPath file)
             else
               match fs_readFileSync P file with
               | ReadEISDIR => Ok importedFiles
               | ReadFailed => Err IOError
               | ReadOk content =>
                   let importedFiles := Js.set_add file importedFiles in
                   match parse P Ast.Tolerant content with
                   | None => Err ParseError
                   | Some ast =>
                       newFiles ← collectNewFiles file projectDir importedFiles ast;
                       importedFiles' ←
                         importProfiler fuel' newFiles projectDir importedFiles;
                       loop rest importedFiles'
                   end
               end
         end) files importedFiles
  end.

End WithPlatform.

End Importer.

(* ===================================================================== *)
(** ** The helpers of [utils/parserHelpers.js] *)
(* ===================================================================== *)

(** [graph.js] classifies nodes through the predicates of
    [utils/parserHelpers], a module that is not among the sources at hand.
    The resolver is therefore parameterised by them: every statement about a
    handler holds for any helpers, under hypotheses on what they answer for
    the node at hand. *)
Record ParserHelpers := {
  isRegularFunctionCall :
    Ast.Expression -> list string -> list Js.val -> list Js.val -> list string -> bool;
  isMemberAccess : Ast.Expression -> bool;
  isMemberAccessOfAddress : Ast.Expression -> bool;
  isAContractTypecast : Ast.Expression -> list string -> bool;
  isSpecialVariable : Ast.Expression -> bool;
  getSpecialVariableType : Ast.Expression -> Js.val;
  isElementaryTypecast : Ast.Expression -> bool;
  isUserDefinedDeclaration : Ast.VariableDeclaration -> bool;
  isElementaryTypeDeclaration : Ast.VariableDeclaration -> bool;
  isArrayDeclaration : Ast.VariableDeclaration -> bool;
  isMappingDeclaration : Ast.VariableDeclaration -> bool
}.

(* ===================================================================== *)
(** ** The graph builder *)
(* ===================================================================== *)

(** The package [graphviz] is not part of the sources; the model keeps what
    the calls of [graph.js] rely on. A graph of the package holds a table of
    nodes, a table of clusters and a list of edges, and a cluster is a graph
    of its own: [addNode] and [getNode] write and read the table of the
    graph they are called on, so a node added through a cluster handle is in
    that cluster's table and [digraph.getNode] does not see it;
    [digraph.addEdge], called with two names, looks both up in the table of
    the root graph, enters the ones it does not find, and appends the edge.
    A cluster is keyed by the contract name its identifier is built from;
    colours and styles are reduced to the tags that tell the kinds of
    clusters, nodes and edges apart. *)
Module Graphviz.

Inductive NodeStyle :=
| DeclaredFunction (visibility : string) (payable : bool)
| DeclaredModifier
| CalledPlain
| CalledEvent
| CalledError.

Record NodeOpts := {
  node_label : Js.val;
  node_style : NodeStyle
}.

Inductive ClusterKind := DefinedContract | UndefinedContract.

Record Cluster := {
  cluster_label : string;
  cluster_kind : ClusterKind;
  cluster_nodes : list (string * NodeOpts)
}.

(** [colorScheme.call.*] and the colour of modifier edges. *)
Inductive EdgeKind :=
| CallDefault
| CallRegular
| CallError
| CallThis
| ModifierEdge.

Record Edge := {
  edge_from : string;
  edge_to : string;
  edge_kind : EdgeKind
}.

Record Digraph := {
  nodes : list string;
  clusters : list (string * Cluster);
  edges : list Edge
}.

Definition empty : Digraph := {| nodes := []; clusters := []; edges := [] |}.

Fixpoint assoc {V : Type} (k : string) (l : list (string * V)) : option V :=
  match l with
  | [] => None
  | (k', v) :: l' => if String.eqb k k' then Some v else assoc k l'
  end.

(** Replace the entry of key [k], or append one. *)
Fixpoint assoc_set {V : Type} (k : string) (v : V) (l : list (string * V))
  : list (string * V) :=
  match l with
  | [] => [(k, v)]
  | (k', v') :: l' =>
      if String.eqb k k' then (k, v) :: l' else (k', v') :: assoc_set k v l'
  end.

(** [digraph.getCluster(id)]. *)
Definition getCluster (g : Digraph) (name : string) : option Cluster :=
  assoc name (clusters g).

(** [digraph.addCluster(id)], with the label and the colours the caller
    sets right after: a new cluster, without nodes. *)
Definition addCluster (g : Digraph) (name label : string) (kind : ClusterKind)
  : Digraph :=
  {| nodes := nodes g;
     clusters := assoc_set name
                   {| cluster_label := label; cluster_kind := kind;
                      cluster_nodes := [] |} (clusters g);
     edges := edges g |}.

(** [cluster.addNode(id, opts)], the cluster being the one of [name]: the
    node is entered in the table of that cluster, in place of the node the
    table may hold under the same name; the table of the root graph and the
    tables of the other clusters are not looked at. *)
Definition addNode (g : Digraph) (name id : string) (opts : NodeOpts) : Digraph :=
  match getCluster g name with
  | Some c =>
      {| nodes := nodes g;
         clusters := assoc_set name
                       {| cluster_label := cluster_label c;
                          cluster_kind := cluster_kind c;
                          cluster_nodes := assoc_set id opts (cluster_nodes c) |}
                       (clusters g);
         edges := edges g |}
  | None => g
  end.

Definition cluster_has_node (id : string) (c : Cluster) : bool :=
  bool_decide (is_Some (assoc id (cluster_nodes c))).

(** [digraph.getNode(id)], as a truth value: the lookup in the table of the
    root graph. *)
Definition getNode (g : Digraph) (id : string) : bool :=
  bool_decide (id ∈ nodes g).

(** The table of the root graph once [id] has been looked up in it and
    entered when absent. *)
Definition enter (id : string) (table : list string) : list string :=
  if bool_decide (id ∈ table) then table else table ++ [id].

(** [digraph.addEdge(from, to, opts)] with two names. *)
Definition addEdge (g : Digraph) (from to : string) (kind : EdgeKind) : Digraph :=
  {| nodes := enter to (enter from (nodes g));
     clusters := clusters g;
     edges := edges g ++ [{| edge_from := from; edge_to := to; edge_kind := kind |}] |}.

(** The names of the clusters a node of name [id] was added to. *)
Definition members (id : string) (cs : list (string * Cluster)) : list string :=
  map fst (filter (fun kc => Is_true (cluster_has_node id (snd kc))) cs).
Definition clusters_of (g : Digraph) (id : string) : list string :=
  members id (clusters g).

End Graphviz.

(* ===================================================================== *)
(** ** The inheritance linearizer *)
(* ===================================================================== *)

(** Modelled from the spec: [linearize] comes from the package
    [c3-linearization], which is not part of the sources. The specification
    (section 4.3) has it merge, for each contract, the linearizations of its
    bases together with its base list itself, selecting at each step the
    first candidate head that occurs in the tail of no other list being
    merged, failing when there is none, and reverse the result so that the
    contract itself comes first and [0_global] last. The lists are therefore
    merged in the orientation of the base lists ([0_global] first, the
    contract appended last) and the outcome is reversed. A name with no
    entry in the map, or with no base, is its own linearization. *)
Module C3.

Definition in_tail (h : string) (s : list string) : bool :=
  bool_decide (h ∈ tail s).

(** Modelled from the spec: the first candidate head, in the order of the
    lists, that occurs in the tail of no other list being merged; [before]
    are the lists already passed over. *)
Fixpoint find_head (before after : list (list string)) : option string :=
  match after with
  | [] => None
  | s :: rest =>
      match s with
      | [] => find_head (before ++ [s]) rest
      | h :: _ =>
          if forallb (fun t => negb (in_tail h t)) (before ++ rest)
          then Some h
          else find_head (before ++ [s]) rest
      end
  end.

Definition remove_name (h : string) (s : list string) : list string :=
  filter (fun x => x ≠ h) s.

Definition nonempty (s : list string) : bool :=
  match s with [] => false | _ => true end.

Definition total_length (seqs : list (list string)) : nat :=
  foldr (fun s n => length s + n) 0 seqs.

(** Modelled from the spec: the merge of section 4.3. The head selected is
    removed from the lists, the lists left empty are dropped, and the merge
    fails when lists are left and none of their heads can be selected. *)
Fixpoint merge_fuel (fuel : nat) (seqs : list (list string))
  : result (list string) :=
  match fuel with
  | O => Err OutOfFuel
  | S fuel' =>
      let seqs := List.filter nonempty seqs in
      match seqs with
      | [] => Ok []
      | _ =>
          match find_head [] seqs with
          | None => Err InconsistentInheritance
          | Some h =>
              rest ← merge_fuel fuel' (map (remove_name h) seqs);
              Ok (h :: rest)
          end
      end
  end.

(** Modelled from the spec: the merge with the rounds it needs. Each round
    removes the selected name from the lists, so one more round than there
    are names is enough. *)
Definition merge (seqs : list (list string)) : result (list string) :=
  merge_fuel (S (total_length seqs)) seqs.

(** Modelled from the spec: the linearization of [head] before the final
    reversal, the merge of the linearizations of its bases and of its base
    list, followed by [head]. *)
Fixpoint raw_order (fuel : nat) (graph : gmap string (list string))
    (head : string) : result (list string) :=
  match fuel with
  | O => Err OutOfFuel
  | S fuel' =>
      match graph !! head with
      | None | Some [] => Ok [head]
      | Some parents =>
          seqs ← mapM_result (raw_order fuel' graph) parents;
          merged ← merge (seqs ++ [parents]);
          Ok (merged ++ [head])
      end
  end.

(** Modelled from the spec: the result reversed, so that the contract
    comes first. *)
Definition linearize_one (fuel : nat) (graph : gmap string (list string))
    (head : string) : result (list string) :=
  order ← raw_order fuel graph head; Ok (rev order).

(** A chain of bases visits each contract of the map at most once before
    it leaves the map, unless the hierarchy is cyclic. *)
Definition depth_bound (graph : gmap string (list string)) : nat :=
  S (S (size graph)).

(** Modelled from the spec: the entry of one contract name is added to the
    map being built. *)
Definition linearize_step (graph : gmap string (list string))
    (acc : gmap string (list string)) (kv : string * list string)
  : result (gmap string (list string)) :=
  order ← linearize_one (depth_bound graph) graph (fst kv);
  Ok (<[fst kv := order]> acc).

(** Modelled from the spec: [linearize(dependencies, {reverse: true})],
    the map from each contract name of [dependencies] to its ancestor
    order. *)
Definition linearize (graph : gmap string (list string))
  : result (gmap string (list string)) :=
  forM (linearize_step graph) (map_to_list graph) ∅.

End C3.

(* ===================================================================== *)
(** ** [src/graph.js]: declarations *)
(* ===================================================================== *)

(** The options [graph] reads; [colorScheme] is styling only. *)
Record Options := {
  contentsInFilePath : bool;
  importer : bool;
  enableModifierEdges : bool;
  libraries : bool
}.

(** The name of the pseudo-contract of file-level declarations. *)
Definition GLOBAL : string := "0_global".

(** A table from names to values, a JavaScript object used as a map. *)
Abbreviation Table := (gmap string Js.val).

(** The variables [graph] initialises before its loops ("vars that persist
    over file parsing loops"), with the graph being built and the
    [contractName] captured by the handlers of the first visitor. *)
Record Decls := {
  userDefinedStateVars : gmap string Table;
  stateVars : gmap string Table;
  dependencies : gmap string (list string);
  fileASTs : list Ast.SourceUnit;
  functionsPerContract : gmap string (list Js.val);
  eventsPerContract : gmap string (list string);
  structsPerContract : gmap string (list string);
  contractUsingFor : gmap string (gmap string (list string));
  contractNames : list string;
  customErrorNames : list string;
  content : string;
  digraph : Graphviz.Digraph;
  contractName : string
}.

Definition initialDecls : Decls := {|
  userDefinedStateVars := ∅;
  stateVars := ∅;
  dependencies := ∅;
  fileASTs := [];
  functionsPerContract := {[ GLOBAL := [] ]};
  eventsPerContract := {[ GLOBAL := [] ]};
  structsPerContract := {[ GLOBAL := [] ]};
  contractUsingFor := ∅;
  contractNames := [GLOBAL];
  customErrorNames := [];
  content := EmptyString;
  digraph := Graphviz.empty;
  contractName := GLOBAL
|}.

(** [m[k].push(x)]; reading [push] of [undefined] throws. *)
Definition push_at {V : Type} (k : string) (x : V) (m : gmap string (list V))
  : result (gmap string (list V)) :=
  match m !! k with
  | Some l => Ok (<[k := l ++ [x]]> m)
  | None => Err TypeError
  end.

(** [m[k][name] = v]; setting a property of [undefined] throws. *)
Definition set_at (k name : string) (v : Js.val) (m : gmap string Table)
  : result (gmap string Table) :=
  match m !! k with
  | Some t => Ok (<[k := <[name := v]> t]> m)
  | None => Err TypeError
  end.

(** The six tables each contract, and each file for the pseudo-contract,
    starts with. *)
Definition resetTables (name : string) (d : Decls) : Decls := {|
  userDefinedStateVars := <[name := ∅]> (userDefinedStateVars d);
  stateVars := <[name := ∅]> (stateVars d);
  dependencies := dependencies d;
  fileASTs := fileASTs d;
  functionsPerContract := <[name := []]> (functionsPerContract d);
  eventsPerContract := <[name := []]> (eventsPerContract d);
  structsPerContract := <[name := []]> (structsPerContract d);
  contractUsingFor := <[name := ∅]> (contractUsingFor d);
  contractNames := contractNames d;
  customErrorNames := customErrorNames d;
  content := content d;
  digraph := digraph d;
  contractName := contractName d
|}.

Module Collect.

Section WithHelpers.
Variable H : ParserHelpers.

Definition kindSuffix (kind : string) : string :=
  if String.eqb kind "interface" then "  (iface)"
  else if String.eqb kind "library" then "  (lib)"
  else EmptyString.

(** The [ContractDefinition] handler of the first visitor. An existing
    cluster only has its style set again, which the graph model does not
    record. *)
Definition ContractDefinition (d : Decls) (node : Ast.ContractDefinition)
  : Decls :=
  let name := Ast.contract_name node in
  let d := resetTables name d in
  {| userDefinedStateVars := userDefinedStateVars d;
     stateVars := stateVars d;
     dependencies :=
       <[name := GLOBAL :: map Ast.baseName_namePath (Ast.baseContracts node)]>
         (dependencies d);
     fileASTs := fileASTs d;
     functionsPerContract := functionsPerContract d;
     eventsPerContract := eventsPerContract d;
     structsPerContract := structsPerContract d;
     contractUsingFor := contractUsingFor d;
     contractNames := contractNames d ++ [name];
     customErrorNames := customErrorNames d;
     content := content d;
     digraph :=
       match Graphviz.getCluster (digraph d) name with
       | None => Graphviz.addCluster (digraph d) name
                   (name +:+ kindSuffix (Ast.contract_kind node))
                   Graphviz.DefinedContract
       | Some _ => digraph d
       end;
     contractName := name |}.

Definition ContractDefinition_exit (d : Decls) : Decls :=
  {| userDefinedStateVars := userDefinedStateVars d;
     stateVars := stateVars d;
     dependencies := dependencies d;
     fileASTs := fileASTs d;
     functionsPerContract := functionsPerContract d;
     eventsPerContract := eventsPerContract d;
     structsPerContract := structsPerContract d;
     contractUsingFor := contractUsingFor d;
     contractNames := contractNames d;
     customErrorNames := customErrorNames d;
     content := content d;
     digraph := digraph d;
     contractName := GLOBAL |}.

Definition with_userDefinedStateVars (d : Decls) (m : gmap string Table) : Decls :=
  {| userDefinedStateVars := m;
     stateVars := stateVars d;
     dependencies := dependencies d;
     fileASTs := fileASTs d;
     functionsPerContract := functionsPerContract d;
     eventsPerContract := eventsPerContract d;
     structsPerContract := structsPerContract d;
     contractUsingFor := contractUsingFor d;
     contractNames := contractNames d;
     customErrorNames := customErrorNames d;
     content := content d;
     digraph := digraph d;
     contractName := contractName d |}.

Definition with_stateVars (d : Decls) (m : gmap string Table) : Decls :=
  {| userDefinedStateVars := userDefinedStateVars d;
     stateVars := m;
     dependencies := dependencies d;
     fileASTs := fileASTs d;
     functionsPerContract := functionsPerContract d;
     eventsPerContract := eventsPerContract d;
     structsPerContract := structsPerContract d;
     contractUsingFor := contractUsingFor d;
     contractNames := contractNames d;
     customErrorNames := customErrorNames d;
     content := content d;
     digraph := digraph d;
     contractName := contractName d |}.

Definition with_functions (d : Decls) (m : gmap string (list Js.val))
    (errors : list string) : Decls :=
  {| userDefinedStateVars := userDefinedStateVars d;
     stateVars := stateVars d;
     dependencies := dependencies d;
     fileASTs := fileASTs d;
     functionsPerContract := m;
     eventsPerContract := eventsPerContract d;
     structsPerContract := structsPerContract d;
     contractUsingFor := contractUsingFor d;
     contractNames := contractNames d;
     customErrorNames := errors;
     content := content d;
     digraph := digraph d;
     contractName := contractName d |}.

Definition with_events_structs (d : Decls)
    (ev st : gmap string (list string)) : Decls :=
  {| userDefinedStateVars := userDefinedStateVars d;
     stateVars := stateVars d;
     dependencies := dependencies d;
     fileASTs := fileASTs d;
     functionsPerContract := functionsPerContract d;
     eventsPerContract := ev;
     structsPerContract := st;
     contractUsingFor := contractUsingFor d;
     contractNames := contractNames d;
     customErrorNames := customErrorNames d;
     content := content d;
     digraph := digraph d;
     contractName := contractName d |}.

Definition with_usingFor (d : Decls)
    (m : gmap string (gmap string (list string))) : Decls :=
  {| userDefinedStateVars := userDefinedStateVars d;
     stateVars := stateVars d;
     dependencies := dependencies d;
     fileASTs := fileASTs d;
     functionsPerContract := functionsPerContract d;
     eventsPerContract := eventsPerContract d;
     structsPerContract := structsPerContract d;
     contractUsingFor := m;
     contractNames := contractNames d;
     customErrorNames := customErrorNames d;
     content := content d;
     digraph := digraph d;
     contractName := contractName d |}.

(** One round of the loop of the [StateVariableDeclaration] handler. *)
Definition declareStateVariable (d : Decls) (variable : Ast.VariableDeclaration)
  : result Decls :=
  let key := Js.to_string (Ast.var_name variable) in
  let t := Ast.var_typeName variable in
  if isUserDefinedDeclaration H variable then
    m ← set_at (contractName d) key (Ast.typeName_namePath t)
          (userDefinedStateVars d);
    Ok (with_userDefinedStateVars d m)
  else if isElementaryTypeDeclaration H variable then
    m ← set_at (contractName d) key (Ast.typeName_name t) (stateVars d);
    Ok (with_stateVars d m)
  else if isArrayDeclaration H variable then
    match t with
    | Ast.ArrayTypeName base =>
        m ← set_at (contractName d) key (Ast.typeName_namePath base) (stateVars d);
        Ok (with_stateVars d m)
    | _ => Err TypeError
    end
  else if isMappingDeclaration H variable then
    match t with
    | Ast.Mapping _ value =>
        m ← set_at (contractName d) key (Ast.typeName_name value) (stateVars d);
        Ok (with_stateVars d m)
    | _ => Err TypeError
    end
  else Ok d.

(** The [UsingForDeclaration] handler. *)
Definition UsingForDeclaration (d : Decls) (libraryName : string)
    (typeName : option Ast.TypeName) : result Decls :=
  let typeNameName :=
    match typeName with
    | Some (Ast.ElementaryTypeName n) => n
    | Some (Ast.UserDefinedTypeName p) => p
    | _ => "*"
    end in
  match contractUsingFor d !! contractName d with
  | None => Err TypeError
  | Some usingFor =>
      let registered := default [] (usingFor !! typeNameName) in
      Ok (with_usingFor d
            (<[contractName d :=
                 <[typeNameName := Js.set_add libraryName registered]> usingFor]>
               (contractUsingFor d)))
  end.

(** The handlers of the kinds a contract member, or a file-level
    declaration, can have. *)
Definition visitPart (d : Decls) (p : Ast.ContractPart) : result Decls :=
  match p with
  | Ast.StateVariableDeclaration variables _ =>
      forM declareStateVariable variables d
  | Ast.FunctionDefinitionPart f =>
      m ← push_at (contractName d) (Ast.fn_name f) (functionsPerContract d);
      Ok (with_functions d m (customErrorNames d))
  | Ast.CustomErrorDefinition name _ =>
      m ← push_at (contractName d) (Js.Str name) (functionsPerContract d);
      Ok (with_functions d m (customErrorNames d ++ [name]))
  | Ast.EventDefinition name _ =>
      m ← push_at (contractName d) name (eventsPerContract d);
      Ok (with_events_structs d m (structsPerContract d))
  | Ast.StructDefinition name _ =>
      m ← push_at (contractName d) name (structsPerContract d);
      Ok (with_events_structs d (eventsPerContract d) m)
  | Ast.UsingForDeclaration libraryName typeName =>
      UsingForDeclaration d libraryName typeName
  | Ast.ModifierDefinition _ _ | Ast.OtherPart _ => Ok d
  end.

Definition visitItem (d : Decls) (item : Ast.SourceItem) : result Decls :=
  match item with
  | Ast.ImportDirective _ => Ok d
  | Ast.ContractItem c =>
      d' ← forM visitPart (Ast.subNodes c) (ContractDefinition d c);
      Ok (ContractDefinition_exit d')
  | Ast.FileLevel p => visitPart d p
  end.

(** The body of the first [for (let file of files)] loop once [content]
    has been read: parse, record the tree, reset the tables of the
    pseudo-contract, visit. *)
Definition collectContent (d : Decls) (contentRead : string)
    (ast : Ast.SourceUnit) : result Decls :=
  let d := resetTables GLOBAL d in
  forM visitItem ast
    {| userDefinedStateVars := userDefinedStateVars d;
       stateVars := stateVars d;
       dependencies := dependencies d;
       fileASTs := fileASTs d ++ [ast];
       functionsPerContract := functionsPerContract d;
       eventsPerContract := eventsPerContract d;
       structsPerContract := structsPerContract d;
       contractUsingFor := contractUsingFor d;
       contractNames := contractNames d;
       customErrorNames := customErrorNames d;
       content := contentRead;
       digraph := digraph d;
       contractName := GLOBAL |}.

End WithHelpers.

End Collect.

(* ===================================================================== *)
(** ** [src/graph.js]: node names and node registration *)
(* ===================================================================== *)

Definition FALLBACK : string := "<Fallback>".
Definition RECEIVE : string := "<Receive Ether>".
Definition CONSTRUCTOR : string := "<Constructor>".

(** The template literal [`${contract}.${member}`]. *)
Definition qualified (contract : string) (member : Js.val) : string :=
  contract +:+ "." +:+ Js.to_string member.

(** [nodeName(functionName, contractName)], closed over the linearized
    [dependencies] and the graph. *)
Definition nodeName (deps : gmap string (list string)) (g : Graphviz.Digraph)
    (functionName : Js.val) (contractName : string) : string :=
  if bool_decide (functionName ≠ Js.Str FALLBACK)
     && bool_decide (functionName ≠ Js.Str RECEIVE)
     && bool_decide (functionName ≠ Js.Str CONSTRUCTOR)
  then
    match deps !! contractName with
    | Some order =>
        match List.find (fun dep => Graphviz.getNode g (qualified dep functionName)) order with
        | Some dep => qualified dep functionName
        | None => qualified contractName functionName
        end
    | None => qualified contractName functionName
    end
  else qualified contractName functionName.

(** [functionName(node)]. *)
Definition functionName (node : Ast.FunctionDefinition) : Js.val :=
  if Ast.isConstructor node then Js.Str CONSTRUCTOR
  else if Ast.isFallback node then Js.Str FALLBACK
  else if Ast.isReceiveEther node then Js.Str RECEIVE
  else Ast.fn_name node.

Module Register.

(** The variables the handlers of the second visitor capture: the current
    contract, the cluster fetched for it ([None] is [null] or
    [undefined]; a cluster is referred to by its name, so adding a node
    through the handle changes the one graph), and the graph. *)
Record State := {
  contractName : string;
  cluster : option string;
  digraph : Graphviz.Digraph
}.

Definition initial (g : Graphviz.Digraph) : State :=
  {| contractName := GLOBAL; cluster := None; digraph := g |}.

Section WithDependencies.
Variable deps : gmap string (list string).

Definition ContractDefinition (st : State) (node : Ast.ContractDefinition)
  : State :=
  {| contractName := Ast.contract_name node;
     cluster := match Graphviz.getCluster (digraph st) (Ast.contract_name node) with
                | Some _ => Some (Ast.contract_name node)
                | None => None
                end;
     digraph := digraph st |}.

Definition ContractDefinition_exit (st : State) : State :=
  {| contractName := GLOBAL; cluster := cluster st; digraph := digraph st |}.

Definition FunctionDefinition (st : State) (node : Ast.FunctionDefinition)
  : State :=
  let name := functionName node in
  let opts :=
    {| Graphviz.node_label := name;
       Graphviz.node_style :=
         Graphviz.DeclaredFunction (Ast.visibility node)
           (bool_decide (Ast.stateMutability node = Js.Str "payable")) |} in
  match cluster st with
  | None => st
  | Some c =>
      {| contractName := contractName st;
         cluster := cluster st;
         digraph := Graphviz.addNode (digraph st) c
                      (nodeName deps (digraph st) name (contractName st)) opts |}
  end.

Definition ModifierDefinition (st : State) (name : string) : result State :=
  let opts := {| Graphviz.node_label := Js.Str name;
                 Graphviz.node_style := Graphviz.DeclaredModifier |} in
  match cluster st with
  | None => Err TypeError
  | Some c =>
      Ok {| contractName := contractName st;
            cluster := cluster st;
            digraph := Graphviz.addNode (digraph st) c
                         (nodeName deps (digraph st) (Js.Str name) (contractName st))
                         opts |}
  end.

Definition visitPart (st : State) (p : Ast.ContractPart) : result State :=
  match p with
  | Ast.FunctionDefinitionPart f => Ok (FunctionDefinition st f)
  | Ast.ModifierDefinition name _ => ModifierDefinition st name
  | _ => Ok st
  end.

Definition visitItem (st : State) (item : Ast.SourceItem) : result State :=
  match item with
  | Ast.ImportDirective _ => Ok st
  | Ast.ContractItem c =>
      st' ← forM visitPart (Ast.subNodes c) (ContractDefinition st c);
      Ok (ContractDefinition_exit st')
  | Ast.FileLevel p => visitPart st p
  end.

(** The first [parser.visit] of the second loop, over one file. *)
Definition visit (g : Graphviz.Digraph) (ast : Ast.SourceUnit) : result State :=
  forM visitItem ast (initial g).

End WithDependencies.

End Register.

(* ===================================================================== *)
(** ** [src/graph.js]: call resolution *)
(* ===================================================================== *)

Module Resolve.

(** The variables the handlers of the third visitor capture. [callingScope]
    is [null] ([None]) or a node name, which is never the empty string. *)
Record Scope := {
  contractName : string;
  callingScope : option string;
  userDefinedLocalVars : Table;
  localVars : Table;
  tempUserDefinedStateVars : Table;
  tempStateVars : Table;
  eventDefinitions : list string;
  digraph : Graphviz.Digraph
}.

Definition initial (g : Graphviz.Digraph) : Scope :=
  {| contractName := GLOBAL; callingScope := None;
     userDefinedLocalVars := ∅; localVars := ∅;
     tempUserDefinedStateVars := ∅; tempStateVars := ∅;
     eventDefinitions := []; digraph := g |}.

Definition with_digraph (st : Scope) (g : Graphviz.Digraph) : Scope :=
  {| contractName := contractName st; callingScope := callingScope st;
     userDefinedLocalVars := userDefinedLocalVars st; localVars := localVars st;
     tempUserDefinedStateVars := tempUserDefinedStateVars st;
     tempStateVars := tempStateVars st;
     eventDefinitions := eventDefinitions st; digraph := g |}.

Definition with_callingScope (st : Scope) (s : option string) : Scope :=
  {| contractName := contractName st; callingScope := s;
     userDefinedLocalVars := userDefinedLocalVars st; localVars := localVars st;
     tempUserDefinedStateVars := tempUserDefinedStateVars st;
     tempStateVars := tempStateVars st;
     eventDefinitions := eventDefinitions st; digraph := digraph st |}.

Definition with_locals (st : Scope) (ud l : Table) : Scope :=
  {| contractName := contractName st; callingScope := callingScope st;
     userDefinedLocalVars := ud; localVars := l;
     tempUserDefinedStateVars := tempUserDefinedStateVars st;
     tempStateVars := tempStateVars st;
     eventDefinitions := eventDefinitions st; digraph := digraph st |}.

(** [Object.assign(target, source)]: the entries of [source] win. *)
Definition assign (target : Table) (source : option Table) : Table :=
  match source with
  | Some s => s ∪ target
  | None => target
  end.

(** [functionsPerContract[contract] != undefined ?
     functionsPerContract[contract].includes(name) : false]. *)
Definition declares (functions : gmap string (list Js.val)) (name : Js.val)
    (contract : string) : bool :=
  match functions !! contract with
  | Some fs => Js.includes fs name
  | None => false
  end.

(** [table[key] !== undefined] with the value of [table[key]]. The tables
    are plain objects, so a key the table does not hold itself is looked up
    on [Object.prototype]. *)
Definition defined_at (t : Table) (key : string) : option Js.val :=
  match t !! key with
  | Some v => if bool_decide (v = Js.Undefined) then None else Some v
  | None => Js.Str <$> Js.inherited key
  end.

(** What a call resolves to before an edge is drawn: the member name, the
    contract it is looked up in and the kind of the edge. *)
Record Callee := {
  callee_name : Js.val;
  localContractName : string;
  callee_kind : Graphviz.EdgeKind
}.

Section WithContext.
Variable H : ParserHelpers.
Variable options : Options.
(** The tables of the first loop and [content], which still holds the
    text of the last file read. *)
Variable d : Decls.
(** [dependencies] after [linearize]. *)
Variable deps : gmap string (list string).

Definition ContractDefinition (st : Scope) (node : Ast.ContractDefinition)
  : result Scope :=
  let name := Ast.contract_name node in
  match deps !! name with
  | None => Err TypeError
  | Some order =>
      let ud := fold_left (fun t dep => assign t (userDefinedStateVars d !! dep))
                  order (tempUserDefinedStateVars st) in
      let sv := fold_left (fun t dep => assign t (stateVars d !! dep))
                  order (tempStateVars st) in
      Ok {| contractName := name; callingScope := callingScope st;
            userDefinedLocalVars := userDefinedLocalVars st;
            localVars := localVars st;
            tempUserDefinedStateVars := assign ud (userDefinedStateVars d !! name);
            tempStateVars := assign sv (stateVars d !! name);
            eventDefinitions := eventDefinitions st; digraph := digraph st |}
  end.

Definition ContractDefinition_exit (st : Scope) : Scope :=
  {| contractName := GLOBAL; callingScope := callingScope st;
     userDefinedLocalVars := userDefinedLocalVars st; localVars := localVars st;
     tempUserDefinedStateVars := ∅; tempStateVars := ∅;
     eventDefinitions := eventDefinitions st; digraph := digraph st |}.

Definition EventDefinition (st : Scope) (name : string) : Scope :=
  {| contractName := contractName st; callingScope := callingScope st;
     userDefinedLocalVars := userDefinedLocalVars st; localVars := localVars st;
     tempUserDefinedStateVars := tempUserDefinedStateVars st;
     tempStateVars := tempStateVars st;
     eventDefinitions := eventDefinitions st ++ [name]; digraph := digraph st |}.

Definition FunctionDefinition (st : Scope) (node : Ast.FunctionDefinition)
  : Scope :=
  with_callingScope st
    (Some (nodeName deps (digraph st) (functionName node) (contractName st))).

Definition FunctionDefinition_exit (st : Scope) : Scope :=
  with_locals (with_callingScope st None) ∅ ∅.

Definition ModifierDefinition (st : Scope) (name : string) : Scope :=
  with_callingScope st
    (Some (nodeName deps (digraph st) (Js.Str name) (contractName st))).

Definition ModifierDefinition_exit (st : Scope) : Scope :=
  with_callingScope st None.

(** The [ParameterList] handler; its [return] leaves the loop. *)
Fixpoint ParameterList (st : Scope) (parameters : list Ast.VariableDeclaration)
  : Scope :=
  match parameters with
  | [] => st
  | parameter :: rest =>
      if bool_decide (Ast.var_name parameter = Js.Null) then st
      else if isUserDefinedDeclaration H parameter then
        ParameterList
          (with_locals st
             (<[Js.to_string (Ast.var_name parameter) :=
                  Ast.typeName_namePath (Ast.var_typeName parameter)]>
                (userDefinedLocalVars st))
             (localVars st)) rest
      else if bool_decide (is_Some (callingScope st)) then
        ParameterList
          (with_locals st (userDefinedLocalVars st)
             (<[Js.to_string (Ast.var_name parameter) :=
                  Ast.typeName_name (Ast.var_typeName parameter)]>
                (localVars st))) rest
      else ParameterList st rest
  end.

(** The [VariableDeclaration] handler. *)
Definition VariableDeclaration (st : Scope) (node : Ast.VariableDeclaration)
  : result Scope :=
  let key := Js.to_string (Ast.var_name node) in
  let t := Ast.var_typeName node in
  match callingScope st with
  | None => Ok st
  | Some _ =>
      if bool_decide (Ast.var_name node = Js.Null) then Ok st
      else if isUserDefinedDeclaration H node then
        Ok (with_locals st (<[key := Ast.typeName_namePath t]> (userDefinedLocalVars st))
              (localVars st))
      else if isElementaryTypeDeclaration H node then
        Ok (with_locals st (userDefinedLocalVars st)
              (<[key := Ast.typeName_name t]> (localVars st)))
      else if isArrayDeclaration H node then
        match t with
        | Ast.ArrayTypeName base =>
            Ok (with_locals st (userDefinedLocalVars st)
                  (<[key := Ast.typeName_namePath base]> (localVars st)))
        | _ => Err TypeError
        end
      else if isMappingDeclaration H node then
        match t with
        | Ast.Mapping _ value =>
            Ok (with_locals st (userDefinedLocalVars st)
                  (<[key := Ast.typeName_name value]> (localVars st)))
        | _ => Err TypeError
        end
      else Ok st
  end.

(** The [ModifierInvocation] handler. *)
Definition ModifierInvocation (st : Scope) (name : string) : Scope :=
  match callingScope st with
  | Some scope =>
      if enableModifierEdges options then
        with_digraph st
          (Graphviz.addEdge (digraph st) scope
             (nodeName deps (digraph st) (Js.Str name) (contractName st))
             Graphviz.ModifierEdge)
      else st
  | None => st
  end.

(** [e.expression], [e.arguments], [e.memberName]: [undefined] ([None])
    on the kinds that do not have the property. *)
Definition expr_expression (e : Ast.Expression) : option Ast.Expression :=
  match e with
  | Ast.MemberAccess _ e' _ | Ast.FunctionCall _ e' _ => Some e'
  | _ => None
  end.
Definition expr_arguments (e : Ast.Expression) : option (list Ast.Expression) :=
  match e with
  | Ast.FunctionCall _ _ args => Some args
  | _ => None
  end.
Definition expr_memberName (e : Ast.Expression) : Js.val :=
  match e with
  | Ast.MemberAccess _ _ m => Js.Str m
  | _ => Js.Undefined
  end.

(** Reading a property of [undefined] throws. *)
Definition required {A : Type} (o : option A) : result A :=
  match o with
  | Some a => Ok a
  | None => Err TypeError
  end.

(** [content.substring(e.range[0], e.range[1]+1)] without its double
    quotes. *)
Definition sourceText (e : Ast.Expression) : string :=
  Js.strip_quotes
    (Js.substring (fst (Ast.range_of e)) (snd (Ast.range_of e) + 1) (content d)).

(** Lines 394 to 401: the events and structs of the whole linearization
    ([concat] of a missing table appends [undefined]). *)
Definition ofDependencies (perContract : gmap string (list string))
    (st : Scope) : list Js.val :=
  match deps !! contractName st with
  | Some order =>
      flat_map (fun dep => match perContract !! dep with
                           | Some names => map Js.Str names
                           | None => [Js.Undefined]
                           end) order
  | None => []
  end.

(** Lines 412 to 441: the object of a member access and the name called,
    which a low-level [call] changes. *)
Definition memberObject (node expr : Ast.Expression)
    (arguments : list Ast.Expression) : result (Js.val * Js.val) :=
  let name := expr_memberName expr in
  inner ← required (expr_expression expr);
  if Ast.has_name inner then Ok (Ast.expr_name inner, name)
  else if isMemberAccessOfAddress H node then
    let name :=
      if bool_decide (name = Js.Str "call") then
        match arguments with
        | a0 :: _ => Js.Str (sourceText a0)
        | [] => Js.Str FALLBACK
        end
      else name in
    target ← required (expr_arguments inner ≫= head);
    Ok (if Ast.has_name target then Ast.expr_name target
        else match target with
             | Ast.NumberLiteral _ number => Js.Str ("address(" +:+ number +:+ ")")
             | _ => Js.Str (sourceText target)
             end, name)
  else if isAContractTypecast H node (contractNames d) then
    typecast ← required (expr_expression inner);
    Ok (Ast.expr_name typecast, name)
  else Ok (Js.Null, name).

(** Lines 443 to 467: the declared type of the object, if one is found. *)
Definition objectType (st : Scope) (expr : Ast.Expression) (object : Js.val)
  : result Js.val :=
  inner ← required (expr_expression expr);
  variableType ←
    (if isSpecialVariable H inner then Ok (getSpecialVariableType H inner)
     else if isElementaryTypecast H inner then
       typecast ← required (expr_expression inner);
       match typecast with
       | Ast.ElementaryTypeNameExpression _ t => Ok (Ast.typeName_name t)
       | _ => Err TypeError
       end
     else
       let key := Js.to_string object in
       Ok (match localVars st !! key with
           | Some v => v
           | None =>
             match userDefinedLocalVars st !! key with
             | Some v => v
             | None =>
               match tempUserDefinedStateVars st !! key with
               | Some v => v
               | None => default Js.Null (tempStateVars st !! key)
               end
             end
           end));
  Ok (if bool_decide (variableType = Js.Str "uint") then Js.Str "uint256"
      else variableType).

(** [functionsPerContract.hasOwnProperty(aSet)]: the set is coerced to a
    property key first. *)
Definition functionsHasOwnProperty (aSet : list string) : bool :=
  bool_decide (is_Some (functionsPerContract d !! Js.set_to_key aSet)).

(** One of the two "best effort first match" blocks: [None] is the
    [return] taken when [options.libraries] is set. *)
Definition firstMatch (candidates : list string) (name object : Js.val)
  : option Js.val :=
  match List.filter (declares (functionsPerContract d) name) candidates with
  | first :: _ => if negb (libraries options) then Some (Js.Str first) else None
  | [] => Some object
  end.

(** Lines 469 to 509: the object after the using-for declarations of the
    contract have been consulted, [None] when the handler returns. *)
Definition usingForDispatch (st : Scope) (name object variableType : Js.val)
  : result (option Js.val) :=
  usingFor ← required (contractUsingFor d !! contractName st);
  let anyType := usingFor !! "*" in
  if bool_decide (variableType ≠ Js.Null) then
    match usingFor !! Js.to_string variableType with
    | Some forType =>
        if functionsHasOwnProperty forType then
          let contractUsingForDefinitions :=
            match anyType with
            | Some forAny =>
                if functionsHasOwnProperty forAny
                then Js.new_set_spread (forType ++ forAny)
                else Js.new_set_spread forType
            | None => Js.new_set_spread forType
            end in
          Ok (firstMatch contractUsingForDefinitions name object)
        else Ok (Some object)
    | None => Ok (Some object)
    end
  else
    match anyType with
    | Some forAny =>
        if functionsHasOwnProperty forAny
        then Ok (firstMatch forAny name object)
        else Ok (Some object)
    | None => Ok (Some object)
    end.

(** Lines 512 to 531: from the object to the contract the member is
    looked up in; [None] is a [return]. *)
Definition calleeOfObject (st : Scope) (name object : Js.val)
  : result (option Callee) :=
  match object with
  | Js.Null => Ok None
  | _ =>
      if bool_decide (object = Js.Str "this") then
        Ok (Some {| callee_name := name; localContractName := contractName st;
                    callee_kind := Graphviz.CallThis |})
      else if bool_decide (object = Js.Str "super") then
        order ← required (deps !! contractName st);
        match List.filter (declares (functionsPerContract d) name) order with
        | first :: _ =>
            Ok (Some {| callee_name := name; localContractName := first;
                        callee_kind := Graphviz.CallDefault |})
        | [] => Ok None
        end
      else
        let key := Js.to_string object in
        let contract :=
          match defined_at (tempUserDefinedStateVars st) key with
          | Some v => v
          | None => default object (defined_at (userDefinedLocalVars st) key)
          end in
        Ok (Some {| callee_name := name;
                    localContractName := Js.to_string contract;
                    callee_kind := Graphviz.CallDefault |})
  end.

(** Lines 403 to 535: what the call is resolved to, [None] when the
    handler returns without an edge. *)
Definition resolveCallee (st : Scope) (node expr : Ast.Expression)
    (arguments : list Ast.Expression) : result (option Callee) :=
  if isRegularFunctionCall H node (contractNames d)
       (ofDependencies (eventsPerContract d) st)
       (ofDependencies (structsPerContract d) st) (customErrorNames d)
  then Ok (Some {| callee_name := Ast.expr_name expr;
                   localContractName := contractName st;
                   callee_kind := Graphviz.CallRegular |})
  else if Js.includes_str (customErrorNames d) (Ast.expr_name expr)
  then Ok (Some {| callee_name := Ast.expr_name expr;
                   localContractName := contractName st;
                   callee_kind := Graphviz.CallError |})
  else if isMemberAccess H node then
    '(object, name) ← memberObject node expr arguments;
    variableType ← objectType st expr object;
    dispatched ← usingForDispatch st name object variableType;
    match dispatched with
    | Some object => calleeOfObject st name object
    | None => Ok None
    end
  else Ok None.

(** Lines 537 to 551: the cluster of the callee's contract, created as
    an undefined one when there is none. *)
Definition ensureCluster (g : Graphviz.Digraph) (contract : string)
  : Graphviz.Digraph :=
  match Graphviz.getCluster g contract with
  | Some _ => g
  | None => Graphviz.addCluster g contract contract Graphviz.UndefinedContract
  end.

(** Lines 557 to 574: the options of a node created for a callee. *)
Definition calleeOpts (st : Scope) (expr : Ast.Expression) (name : Js.val)
  : Graphviz.NodeOpts :=
  {| Graphviz.node_label := name;
     Graphviz.node_style :=
       if Js.includes_str (eventDefinitions st) name
       then Graphviz.CalledEvent
       else if Js.includes_str (customErrorNames d) (Ast.expr_name expr)
       then Graphviz.CalledError
       else Graphviz.CalledPlain |}.

(** Lines 537 to 578: the cluster and the node of the callee are made
    sure of, then the edge is added. *)
Definition emitCall (st : Scope) (scope : string) (expr : Ast.Expression)
    (c : Callee) : Scope :=
  let contract := localContractName c in
  let g1 := ensureCluster (digraph st) contract in
  let localNodeName := nodeName deps g1 (callee_name c) contract in
  let g2 :=
    if negb (Graphviz.getNode g1 localNodeName)
    then Graphviz.addNode g1 contract localNodeName
           (calleeOpts st expr (callee_name c))
    else g1 in
  with_digraph st (Graphviz.addEdge g2 scope localNodeName (callee_kind c)).

(** The [FunctionCall] handler. *)
Definition FunctionCall (st : Scope) (node : Ast.Expression) : result Scope :=
  match callingScope st, node with
  | Some scope, Ast.FunctionCall _ expr arguments =>
      callee ← resolveCallee st node expr arguments;
      match callee with
      | Some c => Ok (emitCall st scope expr c)
      | None => Ok st
      end
  | _, _ => Ok st
  end.

(** The depth-first walk below a contract member. *)
Fixpoint visitExpression (st : Scope) (e : Ast.Expression) : result Scope :=
  match e with
  | Ast.FunctionCall _ callee arguments =>
      st1 ← FunctionCall st e;
      st2 ← visitExpression st1 callee;
      forM visitExpression arguments st2
  | Ast.MemberAccess _ e' _ => visitExpression st e'
  | Ast.OtherExpression _ children => forM visitExpression children st
  | _ => Ok st
  end.

Fixpoint visitNode (st : Scope) (n : Ast.Node) : result Scope :=
  match n with
  | Ast.ParameterList parameters => Ok (ParameterList st parameters)
  | Ast.VariableDeclarationNode v => VariableDeclaration st v
  | Ast.ModifierInvocation name arguments =>
      forM visitExpression arguments (ModifierInvocation st name)
  | Ast.ExpressionNode e => visitExpression st e
  | Ast.OtherNode children => forM visitNode children st
  end.

Definition visitPart (st : Scope) (p : Ast.ContractPart) : result Scope :=
  match p with
  | Ast.StateVariableDeclaration variables children =>
      st1 ← forM VariableDeclaration variables st;
      forM visitNode children st1
  | Ast.FunctionDefinitionPart f =>
      st1 ← forM visitNode (Ast.fn_children f) (FunctionDefinition st f);
      Ok (FunctionDefinition_exit st1)
  | Ast.ModifierDefinition name children =>
      st1 ← forM visitNode children (ModifierDefinition st name);
      Ok (ModifierDefinition_exit st1)
  | Ast.EventDefinition name children =>
      forM visitNode children (EventDefinition st name)
  | Ast.StructDefinition _ children
  | Ast.CustomErrorDefinition _ children
  | Ast.OtherPart children => forM visitNode children st
  | Ast.UsingForDeclaration _ _ => Ok st
  end.

Definition visitItem (st : Scope) (item : Ast.SourceItem) : result Scope :=
  match item with
  | Ast.ImportDirective _ => Ok st
  | Ast.ContractItem c =>
      st1 ← ContractDefinition st c;
      st2 ← forM (fun st b => forM visitNode (Ast.base_arguments b) st)
              (Ast.baseContracts c) st1;
      st3 ← forM visitPart (Ast.subNodes c) st2;
      Ok (ContractDefinition_exit st3)
  | Ast.FileLevel p => visitPart st p
  end.

(** The second [parser.visit] of the second loop, over one file. *)
Definition visit (g : Graphviz.Digraph) (ast : Ast.SourceUnit) : result Scope :=
  forM visitItem ast (initial g).

End WithContext.

End Resolve.

(* ===================================================================== *)
(** ** [src/graph.js]: the three passes *)
(* ===================================================================== *)

Section Graph.
Variable P : Platform.
Variable H : ParserHelpers.

(** One round of the first [for (let file of files)] loop. A directory is
    skipped ([continue]); any other read error is thrown again. *)
Definition collectFile (options : Options) (d : Decls) (file : string)
  : result Decls :=
  let parseAndCollect (text : string) :=
    match parse P Ast.WithRange text with
    | Some ast => Collect.collectContent H d text ast
    | None => Err ParseError
    end in
  if negb (contentsInFilePath options) then
    match fs_readFileSync P file with
    | ReadOk text => parseAndCollect text
    | ReadEISDIR => Ok d
    | ReadFailed => Err IOError
    end
  else parseAndCollect file.

(** One round of the second loop: node registration, then call
    resolution, over the same tree. *)
Definition resolveFile (options : Options) (d : Decls)
    (deps : gmap string (list string)) (g : Graphviz.Digraph)
    (ast : Ast.SourceUnit) : result Graphviz.Digraph :=
  registered ← Register.visit deps g ast;
  resolved ← Resolve.visit H options d deps (Register.digraph registered) ast;
  Ok (Resolve.digraph resolved).

(** [graph(files, options)], up to the serialisation of the graph and the
    legend pasted into it; [fuel] bounds the recursion of the importer. *)
Definition graph (fuel : nat) (files : list string) (options : Options)
  : result Graphviz.Digraph :=
  match files with
  | [] => Err EmptyInputError
  | _ =>
      files ← (if negb (contentsInFilePath options) && importer options
               then Importer.importProfiler P fuel files (cwd P) []
               else Ok (Js.set_of_list files));
      d ← forM (collectFile options) files initialDecls;
      deps ← C3.linearize (dependencies d);
      forM (resolveFile options d deps) (fileASTs d) (digraph d)
  end.

End Graph.

(* ===================================================================== *)
(** ** Instances to run the embedding on *)
(* ===================================================================== *)

(** Modelled from the spec: the predicates of [utils/parserHelpers.js], for
    running the resolver on concrete trees. A regular call is a call of a
    plain name that is no contract, event, struct or custom error; a member
    access is a call whose callee is a member access; an address member
    access has a cast to [address] as its object; the contextual variables
    are the message, transaction and block metadata with their canonical
    types; declarations are told apart by the shape of their type. *)
Module SpecHelpers.

Definition specialVariables : list (string * string * string) :=
  [ ("msg", "sender", "address"); ("msg", "value", "uint256");
    ("msg", "data", "bytes"); ("msg", "sig", "bytes4");
    ("tx", "origin", "address"); ("tx", "gasprice", "uint256");
    ("block", "coinbase", "address"); ("block", "timestamp", "uint256");
    ("block", "number", "uint256"); ("block", "difficulty", "uint256");
    ("block", "gaslimit", "uint256") ].

Definition specialVariableType (e : Ast.Expression) : option string :=
  match e with
  | Ast.MemberAccess _ (Ast.Identifier _ object) member =>
      snd <$> List.find (fun entry => String.eqb (fst (fst entry)) object
                                     && String.eqb (snd (fst entry)) member)
                specialVariables
  | Ast.Identifier _ name => if String.eqb name "now" then Some "uint256" else None
  | _ => None
  end.

Definition callee_of (node : Ast.Expression) : option Ast.Expression :=
  match node with
  | Ast.FunctionCall _ expr _ => Some expr
  | _ => None
  end.

(** Modelled from the spec: the helpers of [utils/parserHelpers.js], as
    section 4.4 describes what they tell apart. *)
Definition helpers : ParserHelpers := {|
  isRegularFunctionCall := fun node contractNames eventNames structNames errorNames =>
    match callee_of node with
    | Some (Ast.Identifier _ name) =>
        negb (bool_decide (name ∈ contractNames))
        && negb (Js.includes eventNames (Js.Str name))
        && negb (Js.includes structNames (Js.Str name))
        && negb (bool_decide (name ∈ errorNames))
    | _ => false
    end;
  isMemberAccess := fun node =>
    match callee_of node with
    | Some (Ast.MemberAccess _ _ _) => true
    | _ => false
    end;
  isMemberAccessOfAddress := fun node =>
    match callee_of node with
    | Some (Ast.MemberAccess _
              (Ast.FunctionCall _
                 (Ast.ElementaryTypeNameExpression _ (Ast.ElementaryTypeName t)) _) _) =>
        String.eqb t "address"
    | _ => false
    end;
  isAContractTypecast := fun node contractNames =>
    match callee_of node with
    | Some (Ast.MemberAccess _ (Ast.FunctionCall _ (Ast.Identifier _ c) _) _) =>
        bool_decide (c ∈ contractNames)
    | _ => false
    end;
  isSpecialVariable := fun e => bool_decide (is_Some (specialVariableType e));
  getSpecialVariableType := fun e =>
    match specialVariableType e with
    | Some t => Js.Str t
    | None => Js.Undefined
    end;
  isElementaryTypecast := fun e =>
    match e with
    | Ast.FunctionCall _ (Ast.ElementaryTypeNameExpression _ _) _ => true
    | _ => false
    end;
  isUserDefinedDeclaration := fun v =>
    match Ast.var_typeName v with Ast.UserDefinedTypeName _ => true | _ => false end;
  isElementaryTypeDeclaration := fun v =>
    match Ast.var_typeName v with Ast.ElementaryTypeName _ => true | _ => false end;
  isArrayDeclaration := fun v =>
    match Ast.var_typeName v with Ast.ArrayTypeName _ => true | _ => false end;
  isMappingDeclaration := fun v =>
    match Ast.var_typeName v with Ast.Mapping _ _ => true | _ => false end
|}.

End SpecHelpers.

(** The POSIX flavour of Node's [path] module over an in-memory file
    system, for running the importer on concrete project trees. *)
Module Posix.

Definition SEP : ascii := ascii_of_nat 47.

(** [normalizeString]: empty segments and [.] are dropped, [..] removes the
    segment before it; above the root it is dropped, at the front of a
    relative path it is kept. *)
Definition normalize_segments (absolute : bool) (segments : list string)
  : list string :=
  fold_left (fun acc s =>
               if String.eqb s EmptyString || String.eqb s "." then acc
               else if String.eqb s ".." then
                 match last acc with
                 | Some l => if String.eqb l ".." then acc ++ [s] else removelast acc
                 | None => if absolute then acc else acc ++ [s]
                 end
               else acc ++ [s]) segments [].

Fixpoint join_segments (segments : list string) : string :=
  match segments with
  | [] => EmptyString
  | [s] => s
  | s :: rest => s +:+ "/" +:+ join_segments rest
  end.

(** [path.normalize]: a leading and a trailing separator are kept. *)
Definition normalize (p : string) : string :=
  if String.eqb p EmptyString then "." else
  let absolute := Js.starts_with p "/" in
  let trailing := Js.ends_with p "/" in
  let body := join_segments (normalize_segments absolute (Js.split SEP p)) in
  if String.eqb body EmptyString
  then (if absolute then "/" else if trailing then "./" else ".")
  else (if absolute then "/" else EmptyString)
       +:+ body +:+ (if trailing then "/" else EmptyString).

(** [path.join(a, b)]: the arguments that are not empty, joined by a
    separator and normalised. *)
Definition join (a b : string) : string :=
  normalize
    (join_segments
       (List.filter (fun s => negb (String.eqb s EmptyString)) [a; b])).

(** [path.resolve(a, b)]: the arguments are read from the right until the
    path is absolute, the working directory last; no trailing separator
    is kept. *)
Definition resolve (workingDirectory a b : string) : string :=
  let from (base rest : string) : string :=
    if Js.starts_with rest "/" then rest
    else if String.eqb base EmptyString then rest
    else base +:+ "/" +:+ rest in
  let p := from workingDirectory (from a b) in
  let absolute := Js.starts_with p "/" in
  let body := join_segments (normalize_segments absolute (Js.split SEP p)) in
  if absolute then "/" +:+ body
  else if String.eqb body EmptyString then "." else body.

Definition is_sep (a : ascii) : bool := Ascii.eqb a SEP.

Fixpoint dropwhile {A : Type} (p : A -> bool) (l : list A) : list A :=
  match l with
  | [] => []
  | a :: l' => if p a then dropwhile p l' else l
  end.

Fixpoint string_of_chars (l : list ascii) : string :=
  match l with
  | [] => EmptyString
  | a :: l' => String a (string_of_chars l')
  end.

(** [path.dirname]: the path up to its last separator, trailing separators
    apart; the path is not normalised. *)
Definition dirname (p : string) : string :=
  match p with
  | EmptyString => "."
  | String first rest =>
      let backwards := rev (list_ascii_of_string rest) in
      let name := dropwhile is_sep backwards in
      match dropwhile (fun a => negb (is_sep a)) name with
      | [] => if is_sep first then "/" else "."
      | _ :: before =>
          if is_sep first && bool_decide (before = []) then "//"
          else String first (string_of_chars (rev before))
      end
  end.

Inductive Entry :=
| File (text : string)
| Directory (names : list string).

Definition FileSystem : Type := list (string * Entry).

Definition platform (fs : FileSystem)
    (parser : Ast.ParseOptions -> string -> option Ast.SourceUnit)
    (workingDirectory : string) : Platform := {|
  path_sep := SEP;
  path_resolve := resolve workingDirectory;
  path_join := join;
  path_dirname := dirname;
  cwd := workingDirectory;
  fs_readFileSync := fun p =>
    match Graphviz.assoc p fs with
    | Some (File text) => ReadOk text
    | Some (Directory _) => ReadEISDIR
    | None => ReadFailed
    end;
  fs_readdirSync := fun p =>
    match Graphviz.assoc p fs with
    | Some (Directory names) => Ok names
    | _ => Err IOError
    end;
  fs_existsSync := fun p => bool_decide (is_Some (Graphviz.assoc p fs));
  fs_isFile := fun p =>
    match Graphviz.assoc p fs with
    | Some (File _) => true
    | _ => false
    end;
  parse := parser
|}.

End Posix.

(* ===================================================================== *)
(** ** Well-formedness of the collected declarations *)
(* ===================================================================== *)

(** What the [ContractDefinition] handler of the first visitor makes of
    [dependencies] (lines 141 to 145): every declared contract is mapped to
    its base names behind [0_global]. Contract and base names are
    identifiers, so none of them is [0_global]. *)
Definition wf_dependencies (graph : gmap string (list string)) : Prop :=
  forall name parents,
    graph !! name = Some parents ->
    name ≠ GLOBAL /\ exists bases, parents = GLOBAL :: bases /\ GLOBAL ∉ bases.

(** What the parser guarantees of the names in a tree: contract names and
    base names are identifiers, so none is the name of the pseudo-contract. *)
Definition wf_item (item : Ast.SourceItem) : Prop :=
  match item with
  | Ast.ContractItem c =>
      Ast.contract_name c ≠ GLOBAL
      /\ GLOBAL ∉ map Ast.baseName_namePath (Ast.baseContracts c)
  | _ => True
  end.
Definition wf_unit (ast : Ast.SourceUnit) : Prop := Forall wf_item ast.
Definition wf_parser (P : Platform) : Prop :=
  forall options text ast, parse P options text = Some ast -> wf_unit ast.

(** What the [ContractDefinition] handler of the first visitor records in
    [dependencies] for a contract: its base names behind [0_global]. *)
Definition basesOf (c : Ast.ContractDefinition) : list string :=
  GLOBAL :: map Ast.baseName_namePath (Ast.baseContracts c).

(** The [dependencies] collected for a contract [C] with bases [[A, B]],
    [A] and [B] having no base. *)
Definition twoBases (A B C : string) : gmap string (list string) :=
  {[ A := [GLOBAL]; B := [GLOBAL]; C := [GLOBAL; A; B] ]}.


(** A file the import-closure resolver adds to [importedFiles]: it passed
    the check of line 20 and was read. The check compares strings: the
    path starts with the characters of the project directory, which a file
    of a sibling directory [/p2] does for the project directory [/p]. *)
Definition importedFrom (P : Platform) (projectDir file : string) : Prop :=
  Js.starts_with file projectDir = true
  /\ Js.ends_with file ".sol" = true
  /\ exists text, fs_readFileSync P file = ReadOk text.

(** How many of the paths of [universe] are not yet in [seen]. *)
Definition unseen (universe seen : list string) : nat :=
  length (filter (fun p => p ∉ seen) universe).

(** A directory that holds neither of the two markers the upward walk of
    [resolveImportPath] looks for. *)
Definition unmarked (P : Platform) (dir : string) : Prop :=
  exists names,
    fs_readdirSync P dir = Ok names
    /\ ("node_modules" ∉ names) /\ ("remappings.txt" ∉ names).

(** The text of a manifest whose lines are [lines], each ended by a line
    feed but the last; a line holds neither a line feed nor a carriage
    return. *)
Definition unlines (lines : list string) : string :=
  String.concat (String Js.LF EmptyString) lines.

Fixpoint oneLine (s : string) : bool :=
  match s with
  | EmptyString => true
  | String a s' => negb (Ascii.eqb a Js.LF) && negb (Ascii.eqb a Js.CR) && oneLine s'
  end.

(** The directory the upward walk reads in its round [k], counted from
    zero, when it starts at [dir]: each round moves to the parent. *)
Fixpoint ancestorDir (P : Platform) (dir : string) (k : nat) : string :=
  match k with
  | O => dir
  | S k' => ancestorDir P (path_resolve P dir "..") k'
  end.

(** [typeNameName] of the [UsingForDeclaration] handler (lines 184 to 190). *)
Definition usingForKey (typeName : option Ast.TypeName) : string :=
  match typeName with
  | Some (Ast.ElementaryTypeName n) => n
  | Some (Ast.UserDefinedTypeName p) => p
  | _ => "*"
  end.

(** Every edge of the graph points to a node of the graph. *)
Definition targetsExist (g : Graphviz.Digraph) : Prop :=
  Forall (fun e => Graphviz.getNode g (Graphviz.edge_to e) = true) (Graphviz.edges g).

(** A name the graph draws: a cluster holds a node of that name, or an
    edge starts at it (a function at file level before any contract has no
    node in a cluster, and its calls are drawn all the same). *)
Definition drawn (g : Graphviz.Digraph) (id : string) : Prop :=
  Graphviz.clusters_of g id ≠ []
  \/ exists e, e ∈ Graphviz.edges g /\ Graphviz.edge_from e = id.

(** Every edge of the graph points to a name the graph draws. *)
Definition targetsDrawn (g : Graphviz.Digraph) : Prop :=
  Forall (fun e => drawn g (Graphviz.edge_to e)) (Graphviz.edges g).

(** The table of the root graph holds ends of edges only. *)
Definition rootNodesAreEnds (g : Graphviz.Digraph) : Prop :=
  forall id,
    Graphviz.getNode g id = true ->
    exists e, e ∈ Graphviz.edges g
              /\ (Graphviz.edge_from e = id \/ Graphviz.edge_to e = id).

(** What a graph keeps of an earlier one: the nodes of its root table and
    of each cluster, its edges (new ones come after them) and, of each
    cluster, the label and the kind. *)
Definition extends (g g' : Graphviz.Digraph) : Prop :=
  (forall id, Graphviz.getNode g id = true -> Graphviz.getNode g' id = true)
  /\ (forall id c, c ∈ Graphviz.clusters_of g id -> c ∈ Graphviz.clusters_of g' id)
  /\ (exists added, Graphviz.edges g' = Graphviz.edges g ++ added)
  /\ (forall name c,
         Graphviz.getCluster g name = Some c ->
         exists c',
           Graphviz.getCluster g' name = Some c'
           /\ Graphviz.cluster_label c' = Graphviz.cluster_label c
           /\ Graphviz.cluster_kind c' = Graphviz.cluster_kind c).

(** The contract members that open a calling scope. *)
Definition opensScope (p : Ast.ContractPart) : bool :=
  match p with
  | Ast.FunctionDefinitionPart _ | Ast.ModifierDefinition _ _ => true
  | _ => false
  end.

(** The graph the first loop leaves: clusters of declared contracts, without
    nodes, no node in the table of the root graph and no edge. *)
Definition firstPassGraph (g : Graphviz.Digraph) : Prop :=
  Graphviz.nodes g = []
  /\ Graphviz.edges g = []
  /\ Forall (fun kc => Graphviz.cluster_kind (snd kc) = Graphviz.DefinedContract
                       /\ Graphviz.cluster_nodes (snd kc) = [])
       (Graphviz.clusters g).

(** What the first visitor keeps true of the graph and of [contractNames]. *)
Definition firstPass (d : Decls) : Prop :=
  firstPassGraph (digraph d)
  /\ forall name,
       name ∈ contractNames d
       <-> name = GLOBAL \/ is_Some (Graphviz.getCluster (digraph d) name).

(** The trees recorded so far, and the contracts they declare. *)
Definition declaredIn (d : Decls) (c : Ast.ContractDefinition) : Prop :=
  exists ast, ast ∈ fileASTs d /\ Ast.ContractItem c ∈ ast.

(** A graph that extends another one without a new edge. *)
Definition keepsEdges (g g' : Graphviz.Digraph) : Prop :=
  extends g g' /\ Graphviz.edges g' = Graphviz.edges g.

(** The names the first visitor pushes to [functionsPerContract] for the
    members of a contract: functions and custom errors, in source order. *)
Definition callables (parts : list Ast.ContractPart) : list Js.val :=
  flat_map (fun p => match p with
                     | Ast.FunctionDefinitionPart f => [Ast.fn_name f]
                     | Ast.CustomErrorDefinition name _ => [Js.Str name]
                     | _ => []
                     end) parts.

(** A top-level item none of whose members opens a calling scope. *)
Definition scopeless (item : Ast.SourceItem) : bool :=
  match item with
  | Ast.ContractItem c => forallb (fun p => negb (opensScope p)) (Ast.subNodes c)
  | Ast.FileLevel p => negb (opensScope p)
  | Ast.ImportDirective _ => true
  end.

(** A scope outside of functions and modifiers, over the graph [g]. *)
Definition idle (g : Graphviz.Digraph) (st : Resolve.Scope) : Prop :=
  Resolve.callingScope st = None /\ Resolve.digraph st = g.

(** A scope inside the function or modifier of node [scope]: the edges
    added to [g] so far all start at that node. *)
Definition attributed (g : Graphviz.Digraph) (scope : string) (st : Resolve.Scope) : Prop :=
  Resolve.callingScope st = Some scope
  /\ exists added,
       Graphviz.edges (Resolve.digraph st) = Graphviz.edges g ++ added
       /\ Forall (fun e => Graphviz.edge_from e = scope) added.

(** The edge a call handler adds. *)
Definition callEdge (from to : string) (kind : Graphviz.EdgeKind) : Graphviz.Edge :=
  {| Graphviz.edge_from := from; Graphviz.edge_to := to; Graphviz.edge_kind := kind |}.

(* ===================================================================== *)
(** ** Concrete projects *)
(* ===================================================================== *)

Module Examples.
Import Ast.

Definition r0 : Range := (0, 0).

Definition fn (name : string) (children : list Node) : ContractPart :=
  FunctionDefinitionPart
    {| fn_name := Js.Str name; isConstructor := false; isFallback := false;
       isReceiveEther := false; visibility := "public";
       stateMutability := Js.Null; fn_children := children |}.

Definition contract (name kind : string) (bases : list string)
    (parts : list ContractPart) : SourceItem :=
  ContractItem
    {| contract_name := name; contract_kind := kind;
       baseContracts :=
         map (fun b => {| baseName_namePath := b; base_arguments := [] |}) bases;
       subNodes := parts |}.

Definition var (name : string) (t : TypeName) : VariableDeclaration :=
  {| var_name := Js.Str name; var_typeName := t |}.

(** [object.member(arguments)] and [f()] as statements. *)
Definition memberCall (object member : string) (arguments : list Expression)
  : Expression :=
  FunctionCall r0 (MemberAccess r0 (Identifier r0 object) member) arguments.
Definition plainCall (f : string) : Expression :=
  FunctionCall r0 (Identifier r0 f) [].

(** A parser that knows the trees of the given texts. *)
Definition parser (trees : list (string * SourceUnit))
  : ParseOptions -> string -> option SourceUnit :=
  fun _ text => Graphviz.assoc text trees.

Definition sources : Options :=
  {| contentsInFilePath := true; importer := false;
     enableModifierEdges := false; libraries := false |}.

(** [graph] on source texts handed in directly. *)
Definition run (trees : list (string * SourceUnit)) : result Graphviz.Digraph :=
  graph (Posix.platform [] (parser trees) "/") SpecHelpers.helpers 0
    (map fst trees) sources.

Definition edgesOf (r : result Graphviz.Digraph) : list (string * string) :=
  match r with
  | Ok g => map (fun e => (Graphviz.edge_from e, Graphviz.edge_to e)) (Graphviz.edges g)
  | Err _ => []
  end.

Definition clustersOf (r : result Graphviz.Digraph) (id : string) : list string :=
  match r with
  | Ok g => Graphviz.clusters_of g id
  | Err _ => []
  end.

(** [library SafeMath { function add(uint256 x, uint256 y) ... }] and
    [contract Token { using SafeMath for uint256;
       function f() public { uint256 a; a.add(b); } }]. *)
Definition safeMathToken : SourceUnit :=
  [ contract "SafeMath" "library" []
      [ fn "add" [ VariableDeclarationNode (var "x" (ElementaryTypeName "uint256"));
                   VariableDeclarationNode (var "y" (ElementaryTypeName "uint256")) ] ];
    contract "Token" "contract" []
      [ UsingForDeclaration "SafeMath" (Some (ElementaryTypeName "uint256"));
        fn "f" [ OtherNode
                   [ OtherNode [VariableDeclarationNode
                                  (var "a" (ElementaryTypeName "uint256"))];
                     ExpressionNode (memberCall "a" "add" [Identifier r0 "b"]) ] ] ] ].

(** [contract A { function f() }], [contract B is A { function f() }],
    [contract C is B { function g() { super.f(); } }]. *)
Definition superChain : SourceUnit :=
  [ contract "A" "contract" [] [ fn "f" [] ];
    contract "B" "contract" ["A"] [ fn "f" [] ];
    contract "C" "contract" ["B"]
      [ fn "g" [ ExpressionNode (memberCall "super" "f" []) ] ] ].

(** [contract B { function foo() }] and
    [contract C is B { function bar() { foo(); } }]. *)
Definition inherited : SourceUnit :=
  [ contract "B" "contract" [] [ fn "foo" [] ];
    contract "C" "contract" ["B"] [ fn "bar" [ ExpressionNode (plainCall "foo") ] ] ].

(** [contract A { function f() }] and
    [contract B is A { function f() { super.f(); } }]. *)
Definition superOverride : SourceUnit :=
  [ contract "A" "contract" [] [ fn "f" [] ];
    contract "B" "contract" ["A"]
      [ fn "f" [ ExpressionNode (memberCall "super" "f" []) ] ] ].

(** [contract B { function foo() function other() { foo(); } }] and
    [contract C is B { function bar() { foo(); } }]. *)
Definition callingBase : SourceUnit :=
  [ contract "B" "contract" []
      [ fn "foo" []; fn "other" [ ExpressionNode (plainCall "foo") ] ];
    contract "C" "contract" ["B"] [ fn "bar" [ ExpressionNode (plainCall "foo") ] ] ].

(** Two files: [contract A { function f() function h() { f(); } }] and
    [contract B is A { function f() }]. *)
Definition baseWithCall : SourceUnit :=
  [ contract "A" "contract" []
      [ fn "f" []; fn "h" [ ExpressionNode (plainCall "f") ] ] ].
Definition derivedRedeclaring : SourceUnit :=
  [ contract "B" "contract" ["A"] [ fn "f" [] ] ].


(** [contract T { modifier m() { Lib a; _; } function f() { a.g(); } }]. *)
Definition modifierLocal : SourceUnit :=
  [ contract "T" "contract" []
      [ ModifierDefinition "m"
          [ OtherNode [VariableDeclarationNode (var "a" (UserDefinedTypeName "Lib"))] ];
        fn "f" [ ExpressionNode (memberCall "a" "g" []) ] ] ].

(** The same contract with the local declared in a function instead. *)
Definition functionLocal : SourceUnit :=
  [ contract "T" "contract" []
      [ fn "m"
          [ OtherNode [VariableDeclarationNode (var "a" (UserDefinedTypeName "Lib"))] ];
        fn "f" [ ExpressionNode (memberCall "a" "g" []) ] ] ].

(** A project with a remappings manifest at its root [/p]. *)
Definition project (manifest : string) (libraryFile : string) : Posix.FileSystem :=
  [ ("/p", Posix.Directory ["remappings.txt"; "src"; "lib"]);
    ("/p/remappings.txt", Posix.File manifest);
    ("/p/src", Posix.Directory ["A.sol"]);
    ("/p/src/A.sol", Posix.File "A");
    (libraryFile, Posix.File "L") ].

Definition noParser : ParseOptions -> string -> option SourceUnit :=
  fun _ _ => Some [].

Definition ozManifest : string := "@oz/=lib/openzeppelin/".
Definition ozProject : Platform :=
  Posix.platform (project ozManifest "/p/lib/openzeppelin/token/ERC20.sol")
    noParser "/p".

(** The line for [@oz] behind a line whose key holds [@oz] as well. *)
Definition shadowedManifest : string :=
  unlines ["@oz-upgradeable/=lib/ozu/"; "@oz/=lib/openzeppelin/"].
Definition shadowedProject : Platform :=
  Posix.platform (project shadowedManifest "/p/lib/openzeppelin/token/ERC20.sol")
    noParser "/p".

(** A first line that matches, then a line with two separators. *)
Definition lateAmbiguity : string := "@oz/=lib/oz/" +:+ String Js.LF "x=y=z".
Definition lateAmbiguityProject : Platform :=
  Posix.platform (project lateAmbiguity "/p/lib/oz/T.sol") noParser "/p".

(** The line with two separators first. *)
Definition earlyAmbiguity : string := "x=y=z" +:+ String Js.LF "@oz/=lib/oz/".
Definition earlyAmbiguityProject : Platform :=
  Posix.platform (project earlyAmbiguity "/p/lib/oz/T.sol") noParser "/p".

(** A project whose first input entry, [d.sol], is a directory. *)
Definition withDirectory : Platform :=
  Posix.platform
    [ ("/p", Posix.Directory ["d.sol"; "a.sol"]);
      ("/p/d.sol", Posix.Directory []);
      ("/p/a.sol", Posix.File "a") ]
    noParser "/p".

Definition files : Options :=
  {| contentsInFilePath := false; importer := false;
     enableModifierEdges := false; libraries := false |}.

(** The declarations of the first pass, reduced to the tables the call
    handler reads. *)
Definition declsOf (functions : gmap string (list Js.val))
    (usingFor : gmap string (gmap string (list string))) (names : list string)
  : Decls :=
  {| userDefinedStateVars := ∅; stateVars := ∅; dependencies := ∅;
     fileASTs := [];
     functionsPerContract := functions;
     eventsPerContract := {[ GLOBAL := [] ]};
     structsPerContract := {[ GLOBAL := [] ]};
     contractUsingFor := usingFor;
     contractNames := names; customErrorNames := [];
     content := EmptyString; digraph := Graphviz.empty; contractName := GLOBAL |}.

(** A graph with the given defined clusters and their declared nodes. *)
Definition declaredNode (label : string) : Graphviz.NodeOpts :=
  {| Graphviz.node_label := Js.Str label;
     Graphviz.node_style := Graphviz.DeclaredFunction "public" false |}.
Definition graphOf (cs : list (string * list (string * string))) : Graphviz.Digraph :=
  {| Graphviz.clusters :=
       map (fun c => (fst c,
                      {| Graphviz.cluster_label := fst c;
                         Graphviz.cluster_kind := Graphviz.DefinedContract;
                         Graphviz.cluster_nodes :=
                           map (fun n => (fst n, declaredNode (snd n))) (snd c) |})) cs;
     Graphviz.nodes := [];
     Graphviz.edges := [] |}.

(** The scope inside a function of [contract] whose node is [scope]. *)
Definition scopeIn (contract scope : string) (g : Graphviz.Digraph) : Resolve.Scope :=
  {| Resolve.contractName := contract; Resolve.callingScope := Some scope;
     Resolve.userDefinedLocalVars := ∅; Resolve.localVars := ∅;
     Resolve.tempUserDefinedStateVars := ∅; Resolve.tempStateVars := ∅;
     Resolve.eventDefinitions := []; Resolve.digraph := g |}.

(** [inherited] when the call in [C.bar] is reached. *)
Definition inheritedDeps : gmap string (list string) :=
  {[ "B" := ["B"; GLOBAL]; "C" := ["C"; "B"; GLOBAL] ]}.
Definition inheritedGraph : Graphviz.Digraph :=
  graphOf [ ("B", [("B.foo", "foo")]); ("C", [("C.bar", "bar")]) ].
Definition inheritedDecls : Decls :=
  declsOf {[ GLOBAL := []; "B" := [Js.Str "foo"]; "C" := [Js.Str "bar"] ]}
    {[ GLOBAL := ∅; "B" := ∅; "C" := ∅ ]} [GLOBAL; "B"; "C"].

(** The first loop of [graph] on [superChain]. *)
Definition superPlatform : Platform :=
  Posix.platform [] (parser [("ABC", superChain)]) "/".
Definition superCollected : Decls :=
  Eval vm_compute in
    match forM (collectFile superPlatform SpecHelpers.helpers sources) ["ABC"]
            initialDecls with
    | Ok d => d
    | Err _ => initialDecls
    end.

(** [contract A {}], [contract B {}] and [contract C is A, B {}], with the
    first loop of [graph] on them and the linearized [dependencies]. *)
Definition twoBasesUnit : SourceUnit :=
  [ contract "A" "contract" [] [];
    contract "B" "contract" [] [];
    contract "C" "contract" ["A"; "B"] [] ].
Definition twoBasesPlatform : Platform :=
  Posix.platform [] (parser [("ABC", twoBasesUnit)]) "/".
Definition twoBasesCollected : Decls :=
  Eval vm_compute in
    match forM (collectFile twoBasesPlatform SpecHelpers.helpers sources) ["ABC"]
            initialDecls with
    | Ok d => d
    | Err _ => initialDecls
    end.
Definition twoBasesLinearized : gmap string (list string) :=
  Eval vm_compute in
    match C3.linearize (dependencies twoBasesCollected) with
    | Ok lin => lin
    | Err _ => ∅
    end.

(** The files [baseWithCall] and [derivedRedeclaring] when node
    registration reaches [f] in [B]: the first file has been analysed and
    the cluster of [B] is still empty. *)
Definition derivedEmpty : SourceUnit :=
  [ contract "B" "contract" ["A"] [] ].
Definition redeclaredDeps : gmap string (list string) :=
  {[ "A" := ["A"; GLOBAL]; "B" := ["B"; "A"; GLOBAL] ]}.
Definition redeclaredDecls : Decls :=
  declsOf {[ GLOBAL := []; "A" := [Js.Str "f"; Js.Str "h"]; "B" := [Js.Str "f"] ]}
    {[ GLOBAL := ∅; "A" := ∅; "B" := ∅ ]} [GLOBAL; "A"; "B"].
Definition redeclaredGraph : Graphviz.Digraph :=
  Eval vm_compute in
    match run [("A", baseWithCall); ("B", derivedEmpty)] with
    | Ok g => g
    | Err _ => Graphviz.empty
    end.
Definition redeclaredAtB : Register.State :=
  {| Register.contractName := "B"; Register.cluster := Some "B";
     Register.digraph := redeclaredGraph |}.

(** [A.sol] imports [./B.sol], which imports [./A.sol] back. *)
Definition importCycle : Platform :=
  Posix.platform
    [ ("/p", Posix.Directory ["A.sol"; "B.sol"]);
      ("/p/A.sol", Posix.File "A");
      ("/p/B.sol", Posix.File "B") ]
    (parser [ ("A", [ImportDirective "./B.sol"]); ("B", [ImportDirective "./A.sol"]) ])
    "/p".

(** A project directory [/p] beside a directory [/p2] that holds a source. *)
Definition sibling : Platform :=
  Posix.platform
    [ ("/p", Posix.Directory []);
      ("/p2", Posix.Directory ["x.sol"]);
      ("/p2/x.sol", Posix.File "x") ]
    noParser "/p".

(** A tree of directories without [node_modules] and without a manifest. *)
Definition noDependencyRoot : Platform :=
  Posix.platform
    [ ("/", Posix.Directory ["p"]);
      ("/p", Posix.Directory ["src"]);
      ("/p/src", Posix.Directory ["A.sol"]);
      ("/p/src/A.sol", Posix.File "A") ]
    noParser "/p".

(** A project with [node_modules] and a manifest that has no line for
    [@oz]. *)
Definition vendored : Platform :=
  Posix.platform
    [ ("/p", Posix.Directory ["remappings.txt"; "node_modules"; "src"]);
      ("/p/remappings.txt", Posix.File "forge-std/=lib/forge-std/src/");
      ("/p/src", Posix.Directory ["A.sol"]);
      ("/p/src/A.sol", Posix.File "A");
      ("/p/node_modules/@oz/T.sol", Posix.File "T") ]
    noParser "/p".

(** The graph [graph] returns for [inherited]. *)
Definition inheritedRun : Graphviz.Digraph :=
  Eval vm_compute in
    match run [("T", inherited)] with
    | Ok g => g
    | Err _ => Graphviz.empty
    end.

(** [B] declares [owner] as an address and [t] as a [Token]; [C], which
    inherits from [B], declares both again as integers. *)
Definition stateDecls : Decls :=
  {| userDefinedStateVars := {[ "B" := {[ "t" := Js.Str "Token" ]}; "C" := ∅ ]};
     stateVars := {[ "B" := {[ "owner" := Js.Str "address" ]};
                     "C" := {[ "owner" := Js.Str "uint256"; "t" := Js.Str "uint256" ]} ]};
     dependencies := ∅; fileASTs := [];
     functionsPerContract := {[ GLOBAL := [] ]};
     eventsPerContract := {[ GLOBAL := [] ]};
     structsPerContract := {[ GLOBAL := [] ]};
     contractUsingFor := ∅;
     contractNames := [GLOBAL; "B"; "C"]; customErrorNames := [];
     content := EmptyString; digraph := Graphviz.empty; contractName := GLOBAL |}.

(** Node registration when it reaches the constructor of [C], the
    constructor of its base [B] having a node. *)
Definition constructor : FunctionDefinition :=
  {| fn_name := Js.Null; isConstructor := true; isFallback := false;
     isReceiveEther := false; visibility := "public";
     stateMutability := Js.Null; fn_children := [] |}.
Definition constructorAtC : Register.State :=
  {| Register.contractName := "C"; Register.cluster := Some "C";
     Register.digraph :=
       graphOf [ ("B", [("B.<Constructor>", "<Constructor>")]); ("C", []) ] |}.



End Examples.

(* ===================================================================== *)
(** * Properties *)
(* ===================================================================== *)

(** ** The import resolver *)

Section ImporterFacts.
Variable P : Platform.

(** Lines that neither stop the scan with an error nor match are passed
    over. *)
Lemma scanRemappings_skip (importBase : string) (pre rest : list string) :
  Forall (fun line => Importer.multipleAssignments line = false
                      /\ Importer.lineMatches importBase line = false) pre ->
  Importer.scanRemappings (pre ++ rest) importBase
  = Importer.scanRemappings rest importBase.
Proof.
  induction 1 as [|line pre [Hone Hno] _ IH]; [reflexivity|].
  cbn [app Importer.scanRemappings]. now rewrite Hone, Hno.
Qed.

(** A line with more than one separator stops the scan with the error when
    no line before it matches, whether or not an earlier line has more
    than one separator itself. *)
Lemma scanRemappings_ambiguous (importBase line : string) (pre post : list string) :
  Importer.multipleAssignments line = true ->
  Forall (fun l => Importer.lineMatches importBase l = false) pre ->
  Importer.scanRemappings (pre ++ line :: post) importBase = Err AmbiguousRemapping.
Proof.
  intros Hline. induction 1 as [|l pre Hno _ IH]; cbn [app Importer.scanRemappings].
  - now rewrite Hline.
  - destruct (Importer.multipleAssignments l); [reflexivity|]. now rewrite Hno.
Qed.

Lemma resolveImportPath_remapped (baseFilePath importedFilePath projectDir : string)
    (root : Importer.DependencyRoot) :
  Importer.isRelativeOrAbsolute importedFilePath = false ->
  Importer.dependencyRootOf P baseFilePath projectDir = Ok root ->
  Importer.resolveImportPath P baseFilePath importedFilePath projectDir
  = (resolvedPath ← Importer.resolveRemapped P root importedFilePath;
     Importer.verifyIsFile P resolvedPath).
Proof.
  intros Hrel Hroot. unfold Importer.resolveImportPath. now rewrite Hrel, Hroot.
Qed.

End ImporterFacts.

Lemma split_lines_line (line rest : string) :
  oneLine line = true ->
  Js.split_lines (line +:+ String Js.LF rest) = line :: Js.split_lines rest.
Proof.
  induction line as [|a line IH]; intros Hline.
  - reflexivity.
  - cbn [oneLine] in Hline.
    apply andb_prop in Hline as [[Hlf Hcr]%andb_prop Hline].
    apply negb_true_iff in Hlf, Hcr.
    change (String a line +:+ String Js.LF rest)
      with (String a (line +:+ String Js.LF rest)).
    cbn [Js.split_lines]. rewrite Hlf, Hcr, (IH Hline). reflexivity.
Qed.

Lemma split_lines_last (line : string) :
  oneLine line = true -> Js.split_lines line = [line].
Proof.
  induction line as [|a line IH]; intros Hline; [reflexivity|].
  cbn [oneLine] in Hline.
  apply andb_prop in Hline as [[Hlf Hcr]%andb_prop Hline].
  apply negb_true_iff in Hlf, Hcr.
  cbn [Js.split_lines]. rewrite Hlf, Hcr, (IH Hline). reflexivity.
Qed.

(** Splitting the text of a manifest gives its lines back. *)
Lemma split_lines_unlines (line : string) (lines : list string) :
  Forall (fun l => oneLine l = true) (line :: lines) ->
  Js.split_lines (unlines (line :: lines)) = line :: lines.
Proof.
  revert line. induction lines as [|next lines IH]; intros line Hlines.
  - apply split_lines_last. now inversion Hlines.
  - inversion Hlines as [|? ? Hline Hrest]; subst.
    change (unlines (line :: next :: lines))
      with (line +:+ String Js.LF (unlines (next :: lines))).
    now rewrite (split_lines_line _ _ Hline), (IH next Hrest).
Qed.

Lemma split_lines_manifest (pre post : list string) (line : string) :
  Forall (fun l => oneLine l = true) (pre ++ line :: post) ->
  Js.split_lines (unlines (pre ++ line :: post)) = pre ++ line :: post.
Proof.
  destruct pre as [|first pre]; apply split_lines_unlines.
Qed.

(** C6, as stated, fails: the manifest holds the line [@oz/=lib/openzeppelin/]
    and the file [lib/openzeppelin/token/ERC20.sol] exists under the
    directory of the manifest, yet the import is not resolved. The scan
    stops at the first line whose key contains [@oz], here the line for
    [@oz-upgradeable/]; its key does not occur in the import path, which is
    joined under the directory as it is. *)
Lemma earlier_line_with_the_segment_in_its_key_wins :
  "@oz/=lib/openzeppelin/" ∈ Js.split_lines Examples.shadowedManifest
  /\ fs_isFile Examples.shadowedProject "/p/lib/openzeppelin/token/ERC20.sol" = true
  /\ Importer.resolveImportPath Examples.shadowedProject
       "/p/src/A.sol" "@oz/token/ERC20.sol" "/p"
     = Err (UnresolvedImport "/p/@oz/token/ERC20.sol").
Proof.
  split; [|split; vm_compute; reflexivity].
  change (Js.split_lines Examples.shadowedManifest)
    with ["@oz-upgradeable/=lib/ozu/"; "@oz/=lib/openzeppelin/"].
  apply list_elem_of_In. right. now left.
Qed.

(** C6, amended. With a manifest, found in the directory the walk upward
    stops at, in which [@oz/=lib/openzeppelin/] is the first line whose key
    contains [@oz] and no line before it has more than one separator, the
    import [@oz/token/ERC20.sol] resolves to
    [lib/openzeppelin/token/ERC20.sol] joined under that directory when
    this path exists and is a regular file, and fails with the
    unresolved-import error otherwise. *)
Theorem remapped_import_resolves_under_root
    (P : Platform) (baseFilePath projectDir : string)
    (root : Importer.DependencyRoot) (pre post : list string) :
  Importer.dependencyRootOf P baseFilePath projectDir = Ok root ->
  Importer.forgeRemappingsBool root = true ->
  fs_readFileSync P (path_join P (Importer.currentDir root) "remappings.txt")
  = ReadOk (unlines (pre ++ "@oz/=lib/openzeppelin/" :: post)) ->
  Forall (fun line => oneLine line = true) (pre ++ post) ->
  Forall (fun line => Importer.multipleAssignments line = false
                      /\ Importer.lineMatches "@oz" line = false) pre ->
  Importer.resolveImportPath P baseFilePath "@oz/token/ERC20.sol" projectDir
  = let resolvedPath :=
      path_join P (Importer.currentDir root) "lib/openzeppelin/token/ERC20.sol" in
    if fs_existsSync P resolvedPath && fs_isFile P resolvedPath
    then Ok resolvedPath
    else Err (UnresolvedImport resolvedPath).
Proof.
  intros Hroot Hforge Hread Hlines Hpre.
  rewrite (resolveImportPath_remapped P _ _ _ root); [|reflexivity|exact Hroot].
  unfold Importer.resolveRemapped. rewrite Hforge, Hread.
  rewrite split_lines_manifest.
  2:{ apply Forall_app in Hlines as [Hbefore Hafter].
      apply Forall_app. split; [exact Hbefore|]. now constructor. }
  change (Importer.importBaseOf "@oz/token/ERC20.sol") with "@oz".
  rewrite (scanRemappings_skip "@oz" pre _ Hpre).
  assert (Importer.scanRemappings ("@oz/=lib/openzeppelin/" :: post) "@oz"
          = Ok ("@oz/", Js.Str "lib/openzeppelin/")) as -> by reflexivity.
  assert (Js.replace "@oz/token/ERC20.sol" "@oz/" (Js.to_string (Js.Str "lib/openzeppelin/"))
          = "lib/openzeppelin/token/ERC20.sol") as Hreplace by (vm_compute; reflexivity).
  cbn [mbind result_bind negb orb andb]. rewrite Hreplace.
  rewrite (bool_decide_eq_false_2 ("@oz/" = EmptyString)) by discriminate.
  cbn [negb orb andb mbind result_bind]. unfold Importer.verifyIsFile.
  destruct (fs_existsSync P _), (fs_isFile P _); reflexivity.
Qed.

Lemma remapped_import_resolves_under_root_witness :
  Importer.resolveImportPath
    (Posix.platform
       (Examples.project
          (unlines ["forge-std/=lib/forge-std/src/"; "@oz/=lib/openzeppelin/"; "ds/=lib/ds/"])
          "/p/lib/openzeppelin/token/ERC20.sol")
       Examples.noParser "/p")
    "/p/src/A.sol" "@oz/token/ERC20.sol" "/p"
  = Ok "/p/lib/openzeppelin/token/ERC20.sol".
Proof.
  apply (remapped_import_resolves_under_root
           (Posix.platform
              (Examples.project
                 (unlines ["forge-std/=lib/forge-std/src/"; "@oz/=lib/openzeppelin/";
                           "ds/=lib/ds/"])
                 "/p/lib/openzeppelin/token/ERC20.sol")
              Examples.noParser "/p")
           "/p/src/A.sol" "/p"
           {| Importer.currentDir := "/p"; Importer.nodeModulesBool := false;
              Importer.forgeRemappingsBool := true |}
           ["forge-std/=lib/forge-std/src/"] ["ds/=lib/ds/"]).
  - reflexivity.
  - reflexivity.
  - reflexivity.
  - repeat constructor.
  - repeat constructor.
Defined.

(** C7, as stated, fails: the manifest below has a line with two separators,
    yet the import resolves, because the scan stops at the first line, which
    matches. *)
Lemma late_ambiguous_line_is_not_reported :
  (exists line, line ∈ Js.split_lines Examples.lateAmbiguity
                /\ Importer.multipleAssignments line = true)
  /\ Importer.isRelativeOrAbsolute "@oz/T.sol" = false
  /\ Importer.resolveImportPath Examples.lateAmbiguityProject
       "/p/src/A.sol" "@oz/T.sol" "/p" = Ok "/p/lib/oz/T.sol".
Proof.
  split; [|split; reflexivity].
  exists "x=y=z". split; [|reflexivity].
  change (Js.split_lines Examples.lateAmbiguity) with ["@oz/=lib/oz/"; "x=y=z"].
  apply list_elem_of_In. right. now left.
Qed.

(** C7, amended. Resolving a remapped import through a manifest fails with
    the multiple-assignment error when the manifest has a line with more
    than one separator and no line before that one matches the leading
    segment of the import. *)
Theorem ambiguous_line_before_first_match_is_reported
    (P : Platform) (baseFilePath importedFilePath projectDir manifest line : string)
    (root : Importer.DependencyRoot) (pre post : list string) :
  Importer.isRelativeOrAbsolute importedFilePath = false ->
  Importer.dependencyRootOf P baseFilePath projectDir = Ok root ->
  Importer.forgeRemappingsBool root = true ->
  fs_readFileSync P (path_join P (Importer.currentDir root) "remappings.txt")
  = ReadOk manifest ->
  Js.split_lines manifest = pre ++ line :: post ->
  Importer.multipleAssignments line = true ->
  Forall (fun l => Importer.lineMatches (Importer.importBaseOf importedFilePath) l
                   = false) pre ->
  Importer.resolveImportPath P baseFilePath importedFilePath projectDir
  = Err AmbiguousRemapping.
Proof.
  intros Hrel Hroot Hforge Hread Hlines Hline Hpre.
  rewrite (resolveImportPath_remapped P _ _ _ root Hrel Hroot).
  unfold Importer.resolveRemapped. rewrite Hforge, Hread, Hlines.
  now rewrite (scanRemappings_ambiguous _ line pre post Hline Hpre).
Qed.

Lemma ambiguous_line_before_first_match_is_reported_witness :
  Importer.resolveImportPath Examples.earlyAmbiguityProject
    "/p/src/A.sol" "@oz/T.sol" "/p" = Err AmbiguousRemapping.
Proof.
  apply (ambiguous_line_before_first_match_is_reported Examples.earlyAmbiguityProject
           "/p/src/A.sol" "@oz/T.sol" "/p" Examples.earlyAmbiguity "x=y=z"
           {| Importer.currentDir := "/p"; Importer.nodeModulesBool := false;
              Importer.forgeRemappingsBool := true |} [] ["@oz/=lib/oz/"]).
  - reflexivity.
  - reflexivity.
  - reflexivity.
  - reflexivity.
  - reflexivity.
  - reflexivity.
  - constructor.
Defined.

(** The analysis loop of [graph] skips a directory and goes on with the
    declarations collected so far. *)
Lemma collectFile_skips_directory (P : Platform) (H : ParserHelpers)
    (options : Options) (d : Decls) (file : string) (rest : list string) :
  contentsInFilePath options = false ->
  fs_readFileSync P file = ReadEISDIR ->
  forM (collectFile P H options) (file :: rest) d
  = forM (collectFile P H options) rest d.
Proof.
  intros Hmode Hdir.
  change (forM (collectFile P H options) (file :: rest) d)
    with (d' ← collectFile P H options d file; forM (collectFile P H options) rest d').
  assert (collectFile P H options d file = Ok d) as ->; [|reflexivity].
  unfold collectFile. now rewrite Hmode, Hdir.
Qed.

(** The import-closure resolver returns at a directory: the entries after it
    are dropped, whatever they are. *)
Lemma importProfiler_returns_at_directory (P : Platform) (fuel : nat)
    (file projectDir : string) (rest importedFiles : list string) :
  Js.starts_with (path_resolve P projectDir file) projectDir = true ->
  Js.ends_with (path_resolve P projectDir file) ".sol" = true ->
  fs_readFileSync P (path_resolve P projectDir file) = ReadEISDIR ->
  Importer.importProfiler P (S fuel) (file :: rest) projectDir importedFiles
  = Ok importedFiles.
Proof.
  intros Hin Hsol Hdir. cbn [Importer.importProfiler].
  now rewrite Hin, Hsol, Hdir.
Qed.

(** A directory whose path does not end in [.sol] does not reach the read:
    the check of the path throws first, as the documentation of
    [importProfiler] says. *)
Lemma importProfiler_rejects_other_directory :
  Importer.importProfiler Examples.withDirectory 5 ["/p"; "a.sol"] "/p" []
  = Err (InvalidImportPath "/p").
Proof. reflexivity. Qed.

(** C8. With the directory [d.sol] listed before the file [a.sol], the
    import-closure resolver returns the files imported so far (none) and
    never processes [a.sol], which it does resolve when the directory is not
    listed; the analysis loop skips the directory and goes on, with the
    result it has for [a.sol] alone. *)
Theorem importer_stops_at_directory_entry :
  fs_readFileSync Examples.withDirectory "/p/d.sol" = ReadEISDIR
  /\ Importer.importProfiler Examples.withDirectory 5 ["d.sol"; "a.sol"] "/p" [] = Ok []
  /\ Importer.importProfiler Examples.withDirectory 5 ["a.sol"] "/p" []
     = Ok ["/p/a.sol"]
  /\ forM (collectFile Examples.withDirectory SpecHelpers.helpers Examples.files)
       ["/p/d.sol"; "/p/a.sol"] initialDecls
     = forM (collectFile Examples.withDirectory SpecHelpers.helpers Examples.files)
         ["/p/a.sol"] initialDecls.
Proof.
  split; [reflexivity|]. split; [reflexivity|]. split; [reflexivity|].
  now apply collectFile_skips_directory.
Qed.

(** ** The graph builder *)

Section GraphvizFacts.
Import Graphviz.

Lemma assoc_set_fresh {V : Type} (k : string) (v : V) (l : list (string * V)) :
  assoc k l = None -> assoc_set k v l = l ++ [(k, v)].
Proof.
  induction l as [|[k' v'] l IH]; cbn; [reflexivity|].
  destruct (String.eqb k k'); [discriminate|]. intros Hl. now rewrite IH.
Qed.

Lemma assoc_assoc_set_eq {V : Type} (k : string) (v : V) (l : list (string * V)) :
  assoc k (assoc_set k v l) = Some v.
Proof.
  induction l as [|[k' v'] l IH]; cbn.
  - now rewrite String.eqb_refl.
  - destruct (String.eqb k k') eqn:E; cbn.
    + now rewrite String.eqb_refl.
    + now rewrite E.
Qed.

Lemma assoc_assoc_set_ne {V : Type} (k k' : string) (v : V) (l : list (string * V)) :
  k ≠ k' -> assoc k' (assoc_set k v l) = assoc k' l.
Proof.
  intros Hne. induction l as [|[k0 v0] l IH]; cbn.
  - destruct (String.eqb k' k) eqn:E; [|reflexivity].
    apply String.eqb_eq in E. congruence.
  - destruct (String.eqb k k0) eqn:E; cbn.
    + apply String.eqb_eq in E. subst k0.
      destruct (String.eqb k' k) eqn:E'; [|reflexivity].
      apply String.eqb_eq in E'. congruence.
    + now rewrite IH.
Qed.

Lemma cluster_has_node_set_eq (id : string) (opts : NodeOpts) (c : Cluster) :
  cluster_has_node id
    {| cluster_label := cluster_label c; cluster_kind := cluster_kind c;
       cluster_nodes := assoc_set id opts (cluster_nodes c) |} = true.
Proof.
  unfold cluster_has_node; cbn. rewrite assoc_assoc_set_eq.
  apply bool_decide_eq_true_2. eauto.
Qed.

Lemma cluster_has_node_set_ne (id id' : string) (opts : NodeOpts) (c : Cluster) :
  id ≠ id' ->
  cluster_has_node id'
    {| cluster_label := cluster_label c; cluster_kind := cluster_kind c;
       cluster_nodes := assoc_set id opts (cluster_nodes c) |}
  = cluster_has_node id' c.
Proof.
  intros Hne. unfold cluster_has_node; cbn. now rewrite assoc_assoc_set_ne.
Qed.

Lemma members_cons (id : string) (kc : string * Cluster) (cs : list (string * Cluster)) :
  members id (kc :: cs)
  = if cluster_has_node id (snd kc) then fst kc :: members id cs else members id cs.
Proof.
  unfold members. rewrite filter_cons.
  destruct (cluster_has_node id (snd kc)); cbn; reflexivity.
Qed.

Lemma members_app (id : string) (cs cs' : list (string * Cluster)) :
  members id (cs ++ cs') = members id cs ++ members id cs'.
Proof. unfold members. now rewrite filter_app, map_app. Qed.

Lemma members_set_same (id c : string) (cl cl' : Cluster) (cs : list (string * Cluster)) :
  assoc c cs = Some cl ->
  cluster_has_node id cl' = cluster_has_node id cl ->
  members id (assoc_set c cl' cs) = members id cs.
Proof.
  intros Hc Hsame. induction cs as [|[k v] cs IH]; [discriminate|].
  cbn [assoc assoc_set] in *.
  destruct (String.eqb c k) eqn:E.
  - apply String.eqb_eq in E. subst k. injection Hc as ->.
    rewrite !members_cons. cbn [fst snd]. now rewrite Hsame.
  - rewrite !members_cons. cbn [fst snd]. now rewrite IH.
Qed.

Lemma members_set_grows (id c x : string) (cl cl' : Cluster) (cs : list (string * Cluster)) :
  assoc c cs = Some cl ->
  cluster_has_node id cl' = true ->
  (x = c \/ x ∈ members id cs) -> x ∈ members id (assoc_set c cl' cs).
Proof.
  intros Hc Hhas. induction cs as [|[k v] cs IH]; [discriminate|].
  cbn [assoc assoc_set] in *.
  destruct (String.eqb c k) eqn:E.
  - apply String.eqb_eq in E. subst k.
    rewrite !members_cons. cbn [fst snd]. rewrite Hhas. intros [->|Hin].
    + apply list_elem_of_here.
    + destruct (cluster_has_node id v); [exact Hin|].
      now apply list_elem_of_further.
  - rewrite !members_cons. cbn [fst snd]. intros Hx.
    destruct (cluster_has_node id v).
    + destruct Hx as [->|Hin].
      * apply list_elem_of_further, IH; auto.
      * apply elem_of_cons in Hin as [->|Hin];
          [apply list_elem_of_here|apply list_elem_of_further, IH; auto].
    + apply IH; auto.
Qed.

Lemma members_set_iff (id c x : string) (cl cl' : Cluster) (cs : list (string * Cluster)) :
  assoc c cs = Some cl ->
  cluster_has_node id cl' = true ->
  x ∈ members id (assoc_set c cl' cs) <-> x = c \/ x ∈ members id cs.
Proof.
  intros Hc Hhas. split; [|now apply (members_set_grows id c x cl)].
  revert Hc. induction cs as [|[k v] cs IH]; [discriminate|].
  cbn [assoc assoc_set].
  destruct (String.eqb c k) eqn:E.
  - apply String.eqb_eq in E. subst k. intros _.
    rewrite !members_cons. cbn [fst snd]. rewrite Hhas. intros Hx.
    apply elem_of_cons in Hx as [->|Hx]; [now left|]. right.
    destruct (cluster_has_node id v); [now apply list_elem_of_further|exact Hx].
  - intros Hc. rewrite !members_cons. cbn [fst snd].
    destruct (cluster_has_node id v).
    + intros Hx. apply elem_of_cons in Hx as [->|Hx];
        [right; apply list_elem_of_here|].
      destruct (IH Hc Hx) as [->|Hin]; [now left|right; now apply list_elem_of_further].
    + exact (IH Hc).
Qed.

Lemma clusters_of_addCluster (g : Digraph) (c label id : string) (kind : ClusterKind) :
  getCluster g c = None ->
  clusters_of (addCluster g c label kind) id = clusters_of g id.
Proof.
  intros Hc. unfold clusters_of, addCluster. cbn [clusters].
  rewrite (assoc_set_fresh _ _ _ Hc), members_app.
  rewrite members_cons. cbn. now rewrite app_nil_r.
Qed.

Lemma clusters_of_addNode_other (g : Digraph) (c id id' : string) (opts : NodeOpts) :
  id ≠ id' ->
  clusters_of (addNode g c id opts) id' = clusters_of g id'.
Proof.
  intros Hne. unfold addNode. destruct (getCluster g c) as [cl|] eqn:Hc; [|reflexivity].
  unfold clusters_of. cbn [clusters].
  apply (members_set_same id' c cl); [exact Hc|].
  now apply cluster_has_node_set_ne.
Qed.

Lemma clusters_of_addNode_grows (g : Digraph) (c id x : string) (opts : NodeOpts)
    (cl : Cluster) :
  getCluster g c = Some cl ->
  (x = c \/ x ∈ clusters_of g id) -> x ∈ clusters_of (addNode g c id opts) id.
Proof.
  intros Hc Hx. unfold addNode. rewrite Hc. unfold clusters_of. cbn [clusters].
  apply (members_set_grows id c x cl); [exact Hc|apply cluster_has_node_set_eq|exact Hx].
Qed.

Lemma clusters_of_addNode_iff (g : Digraph) (c id x : string) (opts : NodeOpts)
    (cl : Cluster) :
  getCluster g c = Some cl ->
  x ∈ clusters_of (addNode g c id opts) id <-> x = c \/ x ∈ clusters_of g id.
Proof.
  intros Hc. unfold addNode. rewrite Hc. unfold clusters_of. cbn [clusters].
  apply (members_set_iff id c x cl); [exact Hc|apply cluster_has_node_set_eq].
Qed.

Lemma clusters_of_addEdge (g : Digraph) (from to id : string) (kind : EdgeKind) :
  clusters_of (addEdge g from to kind) id = clusters_of g id.
Proof. reflexivity. Qed.

(** The table of the root graph: only [addEdge] writes to it. *)
Lemma nodes_addNode (g : Digraph) (c id : string) (opts : NodeOpts) :
  nodes (addNode g c id opts) = nodes g.
Proof. unfold addNode. now destruct (getCluster g c). Qed.

Lemma elem_of_enter (x id : string) (table : list string) :
  x ∈ enter id table <-> x = id \/ x ∈ table.
Proof.
  unfold enter. case_bool_decide as Hid.
  - split; [now right|]. now intros [->|Hx].
  - rewrite elem_of_app, list_elem_of_singleton. tauto.
Qed.

Lemma getNode_addEdge (g : Digraph) (from to id : string) (kind : EdgeKind) :
  getNode (addEdge g from to kind) id = true
  <-> id = from \/ id = to \/ getNode g id = true.
Proof.
  unfold getNode, addEdge. cbn [nodes].
  rewrite !bool_decide_eq_true, !elem_of_enter. tauto.
Qed.

End GraphvizFacts.

(** ** Loops *)

Lemma forM_app {S X : Type} (body : S -> X -> result S) (xs ys : list X) (st : S) :
  forM body (xs ++ ys) st = (st' ← forM body xs st; forM body ys st').
Proof.
  revert st. induction xs as [|x xs IH]; intros st; [reflexivity|].
  cbn [app]. change (forM body (x :: xs ++ ys) st)
    with (st' ← body st x; forM body (xs ++ ys) st').
  change (forM body (x :: xs) st) with (st' ← body st x; forM body xs st').
  destruct (body st x) as [st'|e]; cbn; [apply IH|reflexivity].
Qed.

Lemma mapM_result_Forall2 {X Y : Type} (f : X -> result Y) (xs : list X) (ys : list Y) :
  mapM_result f xs = Ok ys -> Forall2 (fun x y => f x = Ok y) xs ys.
Proof.
  revert ys. induction xs as [|x xs IH]; intros ys.
  - cbn. intros [= <-]. constructor.
  - change (mapM_result f (x :: xs))
      with (y ← f x; ys' ← mapM_result f xs; Ok (y :: ys')).
    destruct (f x) as [y|e] eqn:Ex; cbn; [|discriminate].
    destruct (mapM_result f xs) as [ys'|e]; cbn; [|discriminate].
    intros [= <-]. constructor; [exact Ex|now apply IH].
Qed.

(** ** Node registration *)


(** ** Scopes *)

(** C9. The exit hook of a modifier leaves both tables of local variables
    as they are, where the exit hook of a function empties them: the local
    [a] of type [Lib] declared in the modifier [m] still types the object
    of the call [a.g()] in the function [f] that follows, which resolves to
    [Lib.g]; declared in a function instead, it is gone and the call
    resolves to [a.g]. *)
Theorem modifier_exit_keeps_local_variables :
  (forall st : Resolve.Scope,
     Resolve.userDefinedLocalVars (Resolve.ModifierDefinition_exit st)
     = Resolve.userDefinedLocalVars st
     /\ Resolve.localVars (Resolve.ModifierDefinition_exit st) = Resolve.localVars st)
  /\ (forall st : Resolve.Scope,
        Resolve.userDefinedLocalVars (Resolve.FunctionDefinition_exit st) = ∅
        /\ Resolve.localVars (Resolve.FunctionDefinition_exit st) = ∅)
  /\ Examples.edgesOf (Examples.run [("T", Examples.modifierLocal)])
     = [("T.f", "Lib.g")]
  /\ Examples.edgesOf (Examples.run [("T", Examples.functionLocal)])
     = [("T.f", "a.g")].
Proof.
  split; [intros st; split; reflexivity|].
  split; [intros st; split; reflexivity|].
  split; vm_compute; reflexivity.
Qed.

(** ** Using-for dispatch *)

(** The two guards of the using-for blocks ask [functionsPerContract] for a
    property named by a [Set]; no contract is called [[object Set]], so the
    blocks are never entered and the object is never replaced. *)
Lemma usingForDispatch_keeps_object (options : Options) (d : Decls)
    (st : Resolve.Scope) (name object variableType : Js.val) :
  functionsPerContract d !! "[object Set]" = None ->
  Resolve.usingForDispatch options d st name object variableType = Ok (Some object)
  \/ Resolve.usingForDispatch options d st name object variableType = Err TypeError.
Proof.
  intros Hkey. unfold Resolve.usingForDispatch.
  destruct (contractUsingFor d !! Resolve.contractName st) as [usingFor|];
    cbn; [|now right].
  assert (forall aSet, Resolve.functionsHasOwnProperty d aSet = false) as Hdead.
  { intros aSet. unfold Resolve.functionsHasOwnProperty, Js.set_to_key.
    rewrite Hkey. apply bool_decide_eq_false_2. intros [x Hx]. discriminate. }
  left. destruct (bool_decide (variableType ≠ Js.Null)).
  - destruct (usingFor !! Js.to_string variableType); [|reflexivity].
    now rewrite Hdead.
  - destruct (usingFor !! "*"); [|reflexivity]. now rewrite Hdead.
Qed.

(** C1. With [library SafeMath] declaring [add] and [using SafeMath for
    uint256] inside [Token], the call [a.add(b)] on the local [a] of type
    [uint256], with library-dispatch suppression off, draws its edge to
    [a.add], a node of an undefined contract [a]; the node [SafeMath.add] is
    registered and is not the target. *)
Theorem using_for_call_keeps_raw_object :
  libraries Examples.sources = false
  /\ Examples.edgesOf (Examples.run [("Token", Examples.safeMathToken)])
     = [("Token.f", "a.add")]
  /\ Examples.clustersOf (Examples.run [("Token", Examples.safeMathToken)]) "SafeMath.add"
     = ["SafeMath"]
  /\ Examples.clustersOf (Examples.run [("Token", Examples.safeMathToken)]) "a.add"
     = ["a"].
Proof. repeat split; vm_compute; reflexivity. Qed.

(** ** Emitting the edge of a resolved call *)

Section EmitFacts.
Variable d : Decls.
Variable deps : gmap string (list string).

Lemma ensureCluster_clusters_of (g : Graphviz.Digraph) (contract id : string) :
  Graphviz.clusters_of (Resolve.ensureCluster g contract) id = Graphviz.clusters_of g id.
Proof.
  unfold Resolve.ensureCluster.
  destruct (Graphviz.getCluster g contract) eqn:E; [reflexivity|].
  now apply clusters_of_addCluster.
Qed.

Lemma ensureCluster_nodes (g : Graphviz.Digraph) (contract : string) :
  Graphviz.nodes (Resolve.ensureCluster g contract) = Graphviz.nodes g.
Proof.
  unfold Resolve.ensureCluster. now destruct (Graphviz.getCluster g contract).
Qed.

Lemma ensureCluster_getNode (g : Graphviz.Digraph) (contract id : string) :
  Graphviz.getNode (Resolve.ensureCluster g contract) id = Graphviz.getNode g id.
Proof. unfold Graphviz.getNode. now rewrite ensureCluster_nodes. Qed.

Lemma ensureCluster_getCluster (g : Graphviz.Digraph) (contract : string) :
  is_Some (Graphviz.getCluster (Resolve.ensureCluster g contract) contract).
Proof.
  unfold Resolve.ensureCluster.
  destruct (Graphviz.getCluster g contract) eqn:E; [rewrite E; eauto|].
  unfold Graphviz.getCluster, Graphviz.addCluster. cbn.
  rewrite assoc_assoc_set_eq. eauto.
Qed.

Lemma ensureCluster_edges (g : Graphviz.Digraph) (contract : string) :
  Graphviz.edges (Resolve.ensureCluster g contract) = Graphviz.edges g.
Proof.
  unfold Resolve.ensureCluster. now destruct (Graphviz.getCluster g contract).
Qed.

Lemma addNode_edges (g : Graphviz.Digraph) (c id : string) (opts : Graphviz.NodeOpts) :
  Graphviz.edges (Graphviz.addNode g c id opts) = Graphviz.edges g.
Proof. unfold Graphviz.addNode. now destruct (Graphviz.getCluster g c). Qed.

Lemma getNode_addNode (g : Graphviz.Digraph) (c id id' : string)
    (opts : Graphviz.NodeOpts) :
  Graphviz.getNode (Graphviz.addNode g c id opts) id' = Graphviz.getNode g id'.
Proof. unfold Graphviz.getNode. now rewrite nodes_addNode. Qed.

Lemma find_ext {A : Type} (p q : A -> bool) (l : list A) :
  (forall x, p x = q x) -> List.find p l = List.find q l.
Proof.
  intros Hpq. induction l as [|x l IH]; [reflexivity|].
  cbn. now rewrite Hpq, IH.
Qed.

(** [nodeName] only looks at the table of the root graph. *)
Lemma nodeName_ext (g g' : Graphviz.Digraph) (name : Js.val) (contract : string) :
  (forall id, Graphviz.getNode g' id = Graphviz.getNode g id) ->
  nodeName deps g' name contract = nodeName deps g name contract.
Proof.
  intros Hsame. unfold nodeName.
  destruct (deps !! contract) as [order|]; [|reflexivity].
  now rewrite (find_ext _ (fun dep => Graphviz.getNode g (qualified dep name)) order)
    by (intros; apply Hsame).
Qed.

(** While the table of the root graph is empty, [nodeName] finds no node
    of an ancestor and answers the name of the contract it was asked for. *)
Lemma nodeName_without_nodes (g : Graphviz.Digraph) (name : Js.val) (contract : string) :
  Graphviz.nodes g = [] ->
  nodeName deps g name contract = qualified contract name.
Proof.
  intros Hnodes. unfold nodeName. destruct (_ && _ && _); [|reflexivity].
  destruct (deps !! contract) as [order|]; [|reflexivity].
  assert (List.find (fun dep => Graphviz.getNode g (qualified dep name)) order = None)
    as ->; [|reflexivity].
  induction order as [|dep order IH]; [reflexivity|]. cbn [List.find].
  unfold Graphviz.getNode at 1. rewrite Hnodes.
  rewrite bool_decide_eq_false_2; [exact IH|]. apply not_elem_of_nil.
Qed.

(** The pseudo-contract has no ancestors: its linearization, if it has
    one, is [0_global] alone, so [nodeName] answers [0_global.name]. *)
Lemma nodeName_global (g : Graphviz.Digraph) (name : Js.val) :
  (forall order, deps !! GLOBAL = Some order -> order = [GLOBAL]) ->
  nodeName deps g name GLOBAL = qualified GLOBAL name.
Proof.
  intros Hglobal. unfold nodeName. destruct (_ && _ && _); [|reflexivity].
  destruct (deps !! GLOBAL) as [order|] eqn:Horder; [|reflexivity].
  rewrite (Hglobal _ eq_refl). cbn [find]. now destruct (Graphviz.getNode _ _).
Qed.

Lemma emitCall_target (st : Resolve.Scope) (contract : string) (name : Js.val) :
  nodeName deps (Resolve.ensureCluster (Resolve.digraph st) contract) name contract
  = nodeName deps (Resolve.digraph st) name contract.
Proof. apply nodeName_ext. intros. apply ensureCluster_getNode. Qed.

(** The edge goes from the calling scope to the node [nodeName] answers
    for the callee. *)
Lemma emitCall_edges (st : Resolve.Scope) (scope : string) (expr : Ast.Expression)
    (c : Resolve.Callee) :
  Graphviz.edges (Resolve.digraph (Resolve.emitCall d deps st scope expr c))
  = Graphviz.edges (Resolve.digraph st)
    ++ [callEdge scope
          (nodeName deps (Resolve.digraph st) (Resolve.callee_name c)
             (Resolve.localContractName c))
          (Resolve.callee_kind c)].
Proof.
  unfold Resolve.emitCall, Resolve.with_digraph. cbn [Resolve.digraph].
  rewrite emitCall_target. unfold Graphviz.addEdge at 1. cbn [Graphviz.edges].
  destruct (negb _); [rewrite addNode_edges|]; now rewrite ensureCluster_edges.
Qed.

(** Both ends of the edge are in the table of the root graph afterwards,
    with what was there before. *)
Lemma emitCall_getNode (st : Resolve.Scope) (scope : string) (expr : Ast.Expression)
    (c : Resolve.Callee) (id : string) :
  Graphviz.getNode (Resolve.digraph (Resolve.emitCall d deps st scope expr c)) id = true
  <-> id = scope
      \/ id = nodeName deps (Resolve.digraph st) (Resolve.callee_name c)
                (Resolve.localContractName c)
      \/ Graphviz.getNode (Resolve.digraph st) id = true.
Proof.
  unfold Resolve.emitCall, Resolve.with_digraph. cbn [Resolve.digraph].
  rewrite emitCall_target, getNode_addEdge.
  destruct (negb _); [rewrite getNode_addNode|]; now rewrite ensureCluster_getNode.
Qed.

(** A node is added for the callee when the table of the root graph has
    none of its name, to the cluster of the callee's contract and to no
    other; no other name is added to a cluster. *)
Lemma emitCall_clusters_of (st : Resolve.Scope) (scope : string)
    (expr : Ast.Expression) (c : Resolve.Callee) (id : string) :
  let g := Resolve.digraph st in
  let g' := Resolve.digraph (Resolve.emitCall d deps st scope expr c) in
  let target := nodeName deps g (Resolve.callee_name c) (Resolve.localContractName c) in
  Graphviz.clusters_of g' id = Graphviz.clusters_of g id
  \/ (id = target
      /\ Graphviz.getNode g target = false
      /\ forall x, x ∈ Graphviz.clusters_of g' id
                   <-> x = Resolve.localContractName c \/ x ∈ Graphviz.clusters_of g id).
Proof.
  cbn zeta. unfold Resolve.emitCall, Resolve.with_digraph. cbn [Resolve.digraph].
  rewrite emitCall_target.
  set (g := Resolve.digraph st). set (contract := Resolve.localContractName c).
  set (target := nodeName deps g (Resolve.callee_name c) contract).
  rewrite ensureCluster_getNode.
  destruct (Graphviz.getNode g target) eqn:Hexists; cbn [negb].
  - left. rewrite clusters_of_addEdge. apply ensureCluster_clusters_of.
  - rewrite clusters_of_addEdge.
    destruct (decide (target = id)) as [<-|Hne].
    + right. split; [reflexivity|]. split; [reflexivity|]. intros x.
      destruct (ensureCluster_getCluster g contract) as [cl Hcl].
      rewrite (clusters_of_addNode_iff _ _ _ _ _ cl Hcl).
      now rewrite ensureCluster_clusters_of.
    + left. rewrite clusters_of_addNode_other by exact Hne.
      apply ensureCluster_clusters_of.
Qed.

Lemma emitCall_new_node (st : Resolve.Scope) (scope : string)
    (expr : Ast.Expression) (c : Resolve.Callee) :
  let g := Resolve.digraph st in
  let g' := Resolve.digraph (Resolve.emitCall d deps st scope expr c) in
  let target := nodeName deps g (Resolve.callee_name c) (Resolve.localContractName c) in
  Graphviz.getNode g target = false ->
  forall x, x ∈ Graphviz.clusters_of g' target
            <-> x = Resolve.localContractName c \/ x ∈ Graphviz.clusters_of g target.
Proof.
  cbn zeta. intros Hnone x.
  unfold Resolve.emitCall, Resolve.with_digraph. cbn [Resolve.digraph].
  rewrite emitCall_target, ensureCluster_getNode, Hnone. cbn [negb].
  rewrite clusters_of_addEdge.
  destruct (ensureCluster_getCluster (Resolve.digraph st) (Resolve.localContractName c))
    as [cl Hcl].
  rewrite (clusters_of_addNode_iff _ _ _ _ _ cl Hcl).
  now rewrite ensureCluster_clusters_of.
Qed.

End EmitFacts.

(** ** Call resolution *)

Section CallFacts.
Variable H : ParserHelpers.
Variable options : Options.
Variable d : Decls.
Variable deps : gmap string (list string).

Lemma usingForDispatch_dead (st : Resolve.Scope) (name object variableType : Js.val)
    (usingFor : gmap string (list string)) :
  functionsPerContract d !! "[object Set]" = None ->
  contractUsingFor d !! Resolve.contractName st = Some usingFor ->
  Resolve.usingForDispatch options d st name object variableType = Ok (Some object).
Proof.
  intros Hkey Husing.
  destruct (usingForDispatch_keeps_object options d st name object variableType Hkey)
    as [Hok|Herr]; [exact Hok|].
  unfold Resolve.usingForDispatch in Herr. rewrite Husing in Herr. cbn in Herr.
  repeat match type of Herr with
         | context [match ?x with _ => _ end] => destruct x
         end; discriminate.
Qed.


(** The search of a [super] call: the whole linearization of the current
    contract, the contract itself included. *)
Lemma super_callee (st : Resolve.Scope) (m : Js.val) (order : list string) :
  deps !! Resolve.contractName st = Some order ->
  Resolve.calleeOfObject d deps st m (Js.Str "super")
  = Ok (match List.filter (Resolve.declares (functionsPerContract d) m) order with
        | first :: _ =>
            Some {| Resolve.callee_name := m; Resolve.localContractName := first;
                    Resolve.callee_kind := Graphviz.CallDefault |}
        | [] => None
        end).
Proof.
  intros Horder. unfold Resolve.calleeOfObject.
  rewrite (bool_decide_eq_false_2 (Js.Str "super" = Js.Str "this")) by discriminate.
  rewrite (bool_decide_eq_true_2 (Js.Str "super" = Js.Str "super")) by reflexivity.
  rewrite Horder. cbn [Resolve.required mbind result_bind].
  now destruct (List.filter _ order).
Qed.

End CallFacts.

(** ** Node names *)

Lemma registration_keeps_root_table (deps : gmap string (list string))
    (st : Register.State) (f : Ast.FunctionDefinition) :
  Graphviz.nodes (Register.digraph (Register.FunctionDefinition deps st f))
  = Graphviz.nodes (Register.digraph st).
Proof.
  unfold Register.FunctionDefinition. destruct (Register.cluster st); [|reflexivity].
  cbn [Register.digraph]. apply nodes_addNode.
Qed.

(** C3. The code does not do what the claim says, on the claim's own
    example. [nodeName] asks the root graph for the node of each contract of
    the linearization, but node registration adds the node of a declared
    function to the cluster of its contract and leaves the table of the
    root graph as it was, so while that table is empty [nodeName] answers
    the contract it was asked for. For [contract B { foo }] and [contract C
    is B { bar() { foo(); } }] the edge of the call goes to [C.foo], a node
    the call adds to the cluster of [C], and the node [B.foo] stays alone
    in the cluster of [B]. An ancestor's name is reused only once an edge
    has ended at it: with [other() { foo(); }] in [B] before, the call in
    [C.bar] goes to [B.foo]. *)
Theorem inherited_call_goes_to_a_node_of_the_calling_contract :
  (forall (deps : gmap string (list string)) (g : Graphviz.Digraph) (name : Js.val)
          (contract : string),
      Graphviz.nodes g = [] ->
      nodeName deps g name contract = qualified contract name)
  /\ (forall (deps : gmap string (list string)) (st : Register.State)
             (f : Ast.FunctionDefinition),
         Graphviz.nodes (Register.digraph (Register.FunctionDefinition deps st f))
         = Graphviz.nodes (Register.digraph st))
  /\ Examples.edgesOf (Examples.run [("BC", Examples.inherited)]) = [("C.bar", "C.foo")]
  /\ Examples.clustersOf (Examples.run [("BC", Examples.inherited)]) "C.foo" = ["C"]
  /\ Examples.clustersOf (Examples.run [("BC", Examples.inherited)]) "B.foo" = ["B"]
  /\ Examples.edgesOf (Examples.run [("BC", Examples.callingBase)])
     = [("B.other", "B.foo"); ("C.bar", "B.foo")].
Proof.
  split; [intros; now apply nodeName_without_nodes|].
  split; [intros; apply registration_keeps_root_table|].
  repeat split; vm_compute; reflexivity.
Qed.

(** ** Calls through [super] *)

(** C2. The claim's example holds: in [C is B is A], with [f] declared by
    [A] and [B], the call [super.f()] in [C.g] is drawn to [B.f]. The search
    itself is not the one the claim describes: the filter runs over the
    whole linearization of the current contract, which starts with the
    contract itself, so when the contract declares the member the callee is
    looked up in the contract itself. For [contract A { f }] and [contract
    B is A { f() { super.f(); } }] the edge goes from [B.f] to [B.f]. *)
Theorem super_call_searches_the_contract_itself :
  (forall (d : Decls) (deps : gmap string (list string)) (st : Resolve.Scope)
          (m : Js.val) (ancestors : list string),
      deps !! Resolve.contractName st = Some (Resolve.contractName st :: ancestors) ->
      Resolve.declares (functionsPerContract d) m (Resolve.contractName st) = true ->
      Resolve.calleeOfObject d deps st m (Js.Str "super")
      = Ok (Some {| Resolve.callee_name := m;
                    Resolve.localContractName := Resolve.contractName st;
                    Resolve.callee_kind := Graphviz.CallDefault |}))
  /\ Examples.edgesOf (Examples.run [("AB", Examples.superOverride)]) = [("B.f", "B.f")]
  /\ Examples.edgesOf (Examples.run [("ABC", Examples.superChain)]) = [("C.g", "B.f")].
Proof.
  split.
  - intros d deps st m ancestors Horder Hself.
    rewrite (super_callee d deps st m _ Horder). cbn [List.filter].
    now rewrite Hself.
  - split; vm_compute; reflexivity.
Qed.

(** ** Clusters *)

(** C5, as stated, fails. File [A] holds [contract A { f; h() { f(); } }]
    and file [B] holds [contract B is A { f }]. The call in [A.h] draws an
    edge to [A.f], which enters the name in the table of the root graph;
    when the declaration of [f] in [B] is registered, [nodeName] finds
    [A.f] there and the node [A.f] is added to the cluster of [B] as well. *)
Lemma node_of_an_earlier_file_joins_a_second_cluster :
  Examples.clustersOf
    (Examples.run [("A", Examples.baseWithCall); ("B", Examples.derivedRedeclaring)])
    "A.f"
  = ["A"; "B"].
Proof. vm_compute. reflexivity. Qed.

(** C5, amended. Each step adds a node to one cluster. The call resolver
    adds a node only when the table of the root graph has none of the
    callee's name, and then to the cluster of the contract the callee was
    resolved in and to no other (an undefined cluster named after it when
    that contract was not declared); for every other name the clusters are
    as before. Node registration adds the node of a declared function,
    under the name the node-name rule answers, to the cluster of the
    contract being visited and to no other, and takes it out of none: a
    name the rule takes from an ancestor, known from the edges of a file
    analysed before, is then in the cluster of the ancestor and in the
    cluster of the derived contract. *)
Theorem call_nodes_get_one_cluster_declared_nodes_the_current_one
    (d : Decls) (deps : gmap string (list string))
    (st : Resolve.Scope) (scope : string) (expr : Ast.Expression)
    (callee : Resolve.Callee) (id : string)
    (registering : Register.State) (f : Ast.FunctionDefinition)
    (current : string) (cl : Graphviz.Cluster) :
  Register.cluster registering = Some current ->
  Graphviz.getCluster (Register.digraph registering) current = Some cl ->
  let g := Resolve.digraph st in
  let g' := Resolve.digraph (Resolve.emitCall d deps st scope expr callee) in
  let target :=
    nodeName deps g (Resolve.callee_name callee) (Resolve.localContractName callee) in
  let declared :=
    nodeName deps (Register.digraph registering) (functionName f)
      (Register.contractName registering) in
  let registered :=
    Register.digraph (Register.FunctionDefinition deps registering f) in
  (Graphviz.clusters_of g' id = Graphviz.clusters_of g id
   \/ (id = target
       /\ Graphviz.getNode g target = false
       /\ forall x, x ∈ Graphviz.clusters_of g' id
                    <-> x = Resolve.localContractName callee
                        \/ x ∈ Graphviz.clusters_of g id))
  /\ (forall x, x ∈ Graphviz.clusters_of registered declared
                <-> x = current
                    \/ x ∈ Graphviz.clusters_of (Register.digraph registering) declared)
  /\ (forall other, other ≠ declared ->
        Graphviz.clusters_of registered other
        = Graphviz.clusters_of (Register.digraph registering) other).
Proof.
  intros Hcluster Hcl g g' target declared registered. split; [|split].
  - exact (emitCall_clusters_of d deps st scope expr callee id).
  - intros x. subst registered. unfold Register.FunctionDefinition. rewrite Hcluster.
    cbn [Register.digraph]. apply (clusters_of_addNode_iff _ _ _ _ _ cl Hcl).
  - intros other Hother. subst registered. unfold Register.FunctionDefinition.
    rewrite Hcluster. cbn [Register.digraph].
    apply clusters_of_addNode_other. exact (not_eq_sym Hother).
Qed.

Lemma call_nodes_get_one_cluster_declared_nodes_the_current_one_witness :
  "B" ∈ Graphviz.clusters_of
          (Register.digraph
             (Register.FunctionDefinition Examples.redeclaredDeps Examples.redeclaredAtB
                {| Ast.fn_name := Js.Str "f"; Ast.isConstructor := false;
                   Ast.isFallback := false; Ast.isReceiveEther := false;
                   Ast.visibility := "public"; Ast.stateMutability := Js.Null;
                   Ast.fn_children := [] |}))
          "A.f"
  /\ "A" ∈ Graphviz.clusters_of
            (Register.digraph
               (Register.FunctionDefinition Examples.redeclaredDeps Examples.redeclaredAtB
                  {| Ast.fn_name := Js.Str "f"; Ast.isConstructor := false;
                     Ast.isFallback := false; Ast.isReceiveEther := false;
                     Ast.visibility := "public"; Ast.stateMutability := Js.Null;
                     Ast.fn_children := [] |}))
            "A.f".
Proof.
  destruct (call_nodes_get_one_cluster_declared_nodes_the_current_one
              Examples.redeclaredDecls Examples.redeclaredDeps
              (Examples.scopeIn "A" "A.h" (Register.digraph Examples.redeclaredAtB)) "A.h"
              (Ast.Identifier Examples.r0 "f")
              {| Resolve.callee_name := Js.Str "f";
                 Resolve.localContractName := "A";
                 Resolve.callee_kind := Graphviz.CallRegular |}
              "A.f" Examples.redeclaredAtB
              {| Ast.fn_name := Js.Str "f"; Ast.isConstructor := false;
                 Ast.isFallback := false; Ast.isReceiveEther := false;
                 Ast.visibility := "public"; Ast.stateMutability := Js.Null;
                 Ast.fn_children := [] |}
              "B"
              {| Graphviz.cluster_label := "B";
                 Graphviz.cluster_kind := Graphviz.DefinedContract;
                 Graphviz.cluster_nodes := [] |}
              eq_refl eq_refl) as (_ & Hdeclared & _).
  split; apply Hdeclared.
  - now left.
  - right. vm_compute. apply list_elem_of_here.
Defined.

(** ** Functions at file level *)




(** ** The inheritance linearizer *)

Section C3Facts.
Import C3.

Lemma elem_of_filter_nonempty (s : list string) (seqs : list (list string)) :
  s ∈ List.filter nonempty seqs -> s ∈ seqs.
Proof. rewrite !list_elem_of_In, filter_In. tauto. Qed.

Lemma find_head_is_head (before after : list (list string)) (h : string) :
  find_head before after = Some h -> exists s, s ∈ after /\ head s = Some h.
Proof.
  revert before. induction after as [|s after IH]; intros before; [discriminate|].
  cbn [find_head]. destruct s as [|x t].
  - intros (s & Hs & Hh)%IH. exists s. split; [now apply list_elem_of_further|exact Hh].
  - destruct (forallb _ _).
    + intros [= <-]. exists (x :: t). split; [apply list_elem_of_here|reflexivity].
    + intros (s & Hs & Hh)%IH. exists s.
      split; [now apply list_elem_of_further|exact Hh].
Qed.

Lemma elem_of_remove_name (h x : string) (s : list string) :
  x ∈ remove_name h s <-> x ≠ h /\ x ∈ s.
Proof. unfold remove_name. now rewrite list_elem_of_filter. Qed.

(** What [merge] returns comes from the lists it was given. *)
Lemma merge_fuel_elements (fuel : nat) (seqs : list (list string)) (r : list string) :
  merge_fuel fuel seqs = Ok r ->
  forall x, x ∈ r -> exists s, s ∈ seqs /\ x ∈ s.
Proof.
  revert seqs r. induction fuel as [|fuel IH]; intros seqs r; [discriminate|].
  cbn [merge_fuel]. destruct (List.filter nonempty seqs) as [|s0 ss] eqn:Hfilter.
  - intros [= <-] x Hx. now apply elem_of_nil in Hx.
  - destruct (find_head [] (s0 :: ss)) as [h|] eqn:Hhead; [|discriminate].
    destruct (merge_fuel fuel (map (remove_name h) (s0 :: ss))) as [rest|e] eqn:Hrest;
      cbn; [|discriminate].
    intros [= <-] x [->|Hx]%elem_of_cons.
    + apply find_head_is_head in Hhead as (s & Hs & Hh).
      exists s. split; [apply elem_of_filter_nonempty; now rewrite Hfilter|].
      destruct s as [|y t]; [discriminate|]. injection Hh as ->. apply list_elem_of_here.
    + destruct (IH _ _ Hrest x Hx) as (s' & Hs' & Hxs').
      apply list_elem_of_fmap in Hs' as (s & -> & Hs).
      apply elem_of_remove_name in Hxs' as [_ Hxs].
      exists s. split; [apply elem_of_filter_nonempty; now rewrite Hfilter|exact Hxs].
Qed.

(** A name selected by [merge] is not selected again. *)
Lemma merge_fuel_head_once (fuel : nat) (seqs : list (list string))
    (h : string) (rest : list string) :
  merge_fuel fuel seqs = Ok (h :: rest) -> h ∉ rest.
Proof.
  destruct fuel as [|fuel]; [discriminate|]. cbn [merge_fuel].
  destruct (List.filter nonempty seqs) as [|s0 ss]; [discriminate|].
  destruct (find_head [] (s0 :: ss)) as [h'|]; [|discriminate].
  destruct (merge_fuel fuel (map (remove_name h') (s0 :: ss))) as [rest'|e] eqn:Hrest;
    cbn; [|discriminate].
  intros [= -> ->] Hin.
  destruct (merge_fuel_elements _ _ _ Hrest h Hin) as (s' & Hs' & Hhs').
  apply list_elem_of_fmap in Hs' as (s & -> & _).
  apply elem_of_remove_name in Hhs' as [Hne _]. now apply Hne.
Qed.

(** The head of the first list is selected first when it is in the tail of
    no other list. *)
Lemma merge_fuel_first (fuel : nat) (first : string) (t : list string)
    (others : list (list string)) (r : list string) :
  (forall s, s ∈ others -> in_tail first s = false) ->
  merge_fuel fuel ((first :: t) :: others) = Ok r ->
  exists rest, r = first :: rest /\ first ∉ rest.
Proof.
  intros Hothers Hmerge. assert (exists rest, r = first :: rest) as [rest ->].
  { destruct fuel as [|fuel]; [discriminate|]. cbn [merge_fuel List.filter nonempty] in Hmerge.
    cbn [find_head app] in Hmerge.
    assert (forallb (fun s => negb (in_tail first s)) (List.filter nonempty others) = true)
      as Hall.
    { apply forallb_forall. intros s Hs%list_elem_of_In%elem_of_filter_nonempty.
      now rewrite (Hothers s Hs). }
    rewrite Hall in Hmerge.
    destruct (merge_fuel fuel _) as [rest|e]; cbn in Hmerge; [|discriminate].
    injection Hmerge as <-. now exists rest. }
  exists rest. split; [reflexivity|]. now apply (merge_fuel_head_once _ _ _ _ Hmerge).
Qed.

Section WithDependencies.
Variable graph : gmap string (list string).
Hypothesis Hwf : wf_dependencies graph.

Lemma global_not_declared : graph !! GLOBAL = None.
Proof.
  destruct (graph !! GLOBAL) as [parents|] eqn:E; [|reflexivity].
  now destruct (Hwf _ _ E) as [Hne _].
Qed.

(** Before the reversal, the linearization of a declared contract
    starts with [0_global], which does not occur again, and ends with
    the contract. *)
Lemma raw_order_declared (fuel : nat) (C : string) (parents r : list string) :
  graph !! C = Some parents ->
  raw_order fuel graph C = Ok r ->
  exists middle, r = GLOBAL :: middle ++ [C] /\ GLOBAL ∉ middle ++ [C].
Proof.
  revert C parents r. induction fuel as [|fuel IH]; intros C parents r HC;
    [discriminate|].
  destruct (Hwf _ _ HC) as (HneC & bases & -> & Hbases).
  cbn [raw_order]. rewrite HC.
  change (mapM_result (raw_order fuel graph) (GLOBAL :: bases))
    with (y ← raw_order fuel graph GLOBAL;
          ys ← mapM_result (raw_order fuel graph) bases; Ok (y :: ys)).
  destruct (raw_order fuel graph GLOBAL) as [sG|e] eqn:HG; cbn [mbind result_bind]; [|discriminate].
  destruct (mapM_result (raw_order fuel graph) bases) as [sbases|e] eqn:Hmap;
    cbn [mbind result_bind]; [|discriminate].
  destruct (merge ((sG :: sbases) ++ [GLOBAL :: bases])) as [merged|e] eqn:Hmerge;
    cbn [mbind result_bind]; [|discriminate].
  intros [= <-].
  assert (sG = [GLOBAL]) as ->.
  { destruct fuel as [|fuel']; [discriminate|].
    cbn [raw_order] in HG. rewrite global_not_declared in HG. congruence. }
  unfold merge in Hmerge. cbn [app] in Hmerge.
  apply merge_fuel_first in Hmerge as (rest & -> & Hrest).
  - exists rest. split; [reflexivity|].
    rewrite elem_of_app, list_elem_of_singleton. intros [?|?]; congruence.
  - intros s [Hs|Hs%list_elem_of_singleton]%elem_of_app.
    + apply mapM_result_Forall2 in Hmap.
      destruct (proj1 (list_elem_of_lookup _ _) Hs) as [i Hi].
      destruct (Forall2_lookup_r _ _ _ _ _ Hmap Hi) as (b & Hb & Hraw).
      unfold in_tail. apply bool_decide_eq_false_2.
      destruct (graph !! b) as [pb|] eqn:Hgb.
      * destruct (IH _ _ _ Hgb Hraw) as (middle & -> & Hmid). exact Hmid.
      * destruct fuel as [|fuel']; [discriminate|].
        cbn [raw_order] in Hraw. rewrite Hgb in Hraw. injection Hraw as <-.
        apply not_elem_of_nil.
    + subst s. unfold in_tail. cbn [tail]. now apply bool_decide_eq_false_2.
Qed.

Lemma linearize_one_declared (fuel : nat) (C : string) (parents order : list string) :
  graph !! C = Some parents ->
  linearize_one fuel graph C = Ok order ->
  head order = Some C /\ last order = Some GLOBAL.
Proof.
  intros HC. unfold linearize_one.
  destruct (raw_order fuel graph C) as [r|e] eqn:Hraw; cbn; [|discriminate].
  intros [= <-].
  destruct (raw_order_declared _ _ _ _ HC Hraw) as (middle & -> & _).
  cbn [rev]. rewrite rev_app_distr. cbn. split; [reflexivity|].
  apply (last_snoc GLOBAL (C :: rev middle)).
Qed.

End WithDependencies.

(** The entries of the linearized map are the linearizations of the keys
    of the map it was given. *)
Lemma linearize_entries (graph : gmap string (list string))
    (entries : list (string * list string))
    (acc lin : gmap string (list string)) (C : string) (order : list string) :
  forM (linearize_step graph) entries acc = Ok lin ->
  lin !! C = Some order ->
  acc !! C = Some order
  \/ (C ∈ map fst entries /\ linearize_one (depth_bound graph) graph C = Ok order).
Proof.
  revert acc. induction entries as [|[k v] entries IH]; intros acc.
  - cbn. intros [= <-] Hlin. now left.
  - change (forM (linearize_step graph) ((k, v) :: entries) acc)
      with (acc' ← linearize_step graph acc (k, v);
            forM (linearize_step graph) entries acc').
    assert (linearize_step graph acc (k, v)
            = (order ← linearize_one (depth_bound graph) graph k;
               Ok (<[k := order]> acc))) as -> by reflexivity.
    destruct (linearize_one (depth_bound graph) graph k) as [o|e] eqn:Hk;
      cbn [mbind result_bind]; [|discriminate].
    intros Hrest Hlin. destruct (IH _ Hrest Hlin) as [Hacc|[Hin Hone]].
    + destruct (decide (k = C)) as [->|Hne].
      * rewrite lookup_insert_eq in Hacc. injection Hacc as ->.
        right. split; [apply list_elem_of_here|exact Hk].
      * rewrite lookup_insert_ne in Hacc by exact Hne. now left.
    + right. split; [now apply list_elem_of_further|exact Hone].
Qed.

Lemma linearize_lookup (graph lin : gmap string (list string))
    (C : string) (order : list string) :
  linearize graph = Ok lin ->
  lin !! C = Some order ->
  is_Some (graph !! C) /\ linearize_one (depth_bound graph) graph C = Ok order.
Proof.
  intros Hlin HC. destruct (linearize_entries _ _ _ _ _ _ Hlin HC) as [Hacc|[Hin Hone]].
  - now rewrite lookup_empty in Hacc.
  - split; [|exact Hone].
    apply list_elem_of_fmap in Hin as ([k v] & -> & Hkv).
    apply elem_of_map_to_list in Hkv. cbn. eauto.
Qed.

End C3Facts.

(** *** A contract with two bases *)

Lemma merge_fuel_S (fuel : nat) (seqs : list (list string)) :
  C3.merge_fuel (S fuel) seqs
  = match List.filter C3.nonempty seqs with
    | [] => Ok []
    | s :: ss =>
        match C3.find_head [] (s :: ss) with
        | None => Err InconsistentInheritance
        | Some h =>
            rest ← C3.merge_fuel fuel (map (C3.remove_name h) (s :: ss));
            Ok (h :: rest)
        end
    end.
Proof. cbn [C3.merge_fuel]. now destruct (List.filter C3.nonempty seqs). Qed.

Lemma mapM_result_cons {X Y : Type} (f : X -> result Y) (x : X) (xs : list X) :
  mapM_result f (x :: xs) = (y ← f x; ys ← mapM_result f xs; Ok (y :: ys)).
Proof. reflexivity. Qed.

Ltac solve_name :=
  first [ congruence
        | rewrite ?elem_of_cons, ?elem_of_nil; intuition congruence ].

Ltac decide_names :=
  repeat match goal with
    | |- context [decide ?P] =>
        first [ rewrite (decide_True (P := P)) by solve_name
              | rewrite (decide_False (P := P)) by solve_name ]
    | |- context [bool_decide ?P] =>
        first [ rewrite (bool_decide_eq_true_2 P) by solve_name
              | rewrite (bool_decide_eq_false_2 P) by solve_name ]
    end.

(** One round of [merge] on explicit lists of names known to differ. *)
Ltac merge_step :=
  rewrite merge_fuel_S;
  cbn [List.filter C3.nonempty C3.find_head app forallb];
  unfold C3.in_tail; cbn [tail];
  decide_names;
  cbn [negb andb map]; unfold C3.remove_name; cbn [filter list_filter];
  decide_names;
  cbn [mbind result_bind].

Section TwoBases.
Variables A B C : string.
Hypothesis HAB : A ≠ B.
Hypothesis HAC : A ≠ C.
Hypothesis HBC : B ≠ C.
Hypothesis HA : A ≠ GLOBAL.
Hypothesis HB : B ≠ GLOBAL.
Hypothesis HC : C ≠ GLOBAL.

Lemma twoBases_A : twoBases A B C !! A = Some [GLOBAL].
Proof. unfold twoBases. now rewrite lookup_insert_eq. Qed.
Lemma twoBases_B : twoBases A B C !! B = Some [GLOBAL].
Proof.
  unfold twoBases. rewrite lookup_insert_ne by exact HAB.
  now rewrite lookup_insert_eq.
Qed.
Lemma twoBases_C : twoBases A B C !! C = Some [GLOBAL; A; B].
Proof.
  unfold twoBases. rewrite lookup_insert_ne by exact HAC.
  rewrite lookup_insert_ne by exact HBC. now rewrite lookup_singleton_eq.
Qed.
Lemma twoBases_GLOBAL : twoBases A B C !! GLOBAL = None.
Proof.
  unfold twoBases. rewrite !lookup_insert_ne by congruence.
  now rewrite lookup_singleton_ne by congruence.
Qed.

Lemma twoBases_keys (k : string) (v : list string) :
  twoBases A B C !! k = Some v -> k = A \/ k = B \/ k = C.
Proof.
  unfold twoBases. intros Hk.
  destruct (decide (A = k)) as [|HkA]; [now left|].
  rewrite lookup_insert_ne in Hk by exact HkA.
  destruct (decide (B = k)) as [|HkB]; [now right; left|].
  rewrite lookup_insert_ne in Hk by exact HkB.
  apply lookup_singleton_Some in Hk as [-> _]. now right; right.
Qed.

Lemma raw_order_GLOBAL (fuel : nat) :
  C3.raw_order (S fuel) (twoBases A B C) GLOBAL = Ok [GLOBAL].
Proof. cbn [C3.raw_order]. now rewrite twoBases_GLOBAL. Qed.

Lemma raw_order_base (fuel : nat) (X : string) :
  X ≠ GLOBAL ->
  twoBases A B C !! X = Some [GLOBAL] ->
  C3.raw_order (S (S fuel)) (twoBases A B C) X = Ok [GLOBAL; X].
Proof.
  intros HX Hlookup.
  change (C3.raw_order (S (S fuel)) (twoBases A B C) X)
    with (match twoBases A B C !! X with
          | None | Some [] => Ok [X]
          | Some parents =>
              seqs ← mapM_result (C3.raw_order (S fuel) (twoBases A B C)) parents;
              merged ← C3.merge (seqs ++ [parents]);
              Ok (merged ++ [X])
          end).
  rewrite Hlookup, mapM_result_cons, raw_order_GLOBAL.
  cbn [mapM_result mbind result_bind app]. unfold C3.merge.
  cbn [C3.total_length foldr length Nat.add].
  merge_step. merge_step. reflexivity.
Qed.

Lemma raw_order_derived (fuel : nat) :
  C3.raw_order (S (S (S fuel))) (twoBases A B C) C = Ok [GLOBAL; A; B; C].
Proof.
  change (C3.raw_order (S (S (S fuel))) (twoBases A B C) C)
    with (match twoBases A B C !! C with
          | None | Some [] => Ok [C]
          | Some parents =>
              seqs ← mapM_result (C3.raw_order (S (S fuel)) (twoBases A B C)) parents;
              merged ← C3.merge (seqs ++ [parents]);
              Ok (merged ++ [C])
          end).
  rewrite twoBases_C, !mapM_result_cons, raw_order_GLOBAL.
  rewrite (raw_order_base fuel A HA twoBases_A), (raw_order_base fuel B HB twoBases_B).
  cbn [mapM_result mbind result_bind app]. unfold C3.merge.
  cbn [C3.total_length foldr length Nat.add].
  merge_step. merge_step. merge_step. merge_step. reflexivity.
Qed.

Lemma twoBases_depth : exists fuel, C3.depth_bound (twoBases A B C) = S (S (S fuel)).
Proof.
  unfold C3.depth_bound. destruct (size (twoBases A B C)) as [|n] eqn:Hsize; [|eauto].
  apply map_size_empty_iff in Hsize. pose proof twoBases_A as HlA.
  rewrite Hsize, lookup_empty in HlA. discriminate.
Qed.

End TwoBases.

(** *** The linearized map *)

Section LinearizeFacts.
Variable graph : gmap string (list string).

Lemma linearize_steps_total (entries : list (string * list string))
    (acc : gmap string (list string)) :
  (forall kv, kv ∈ entries ->
              exists order,
                C3.linearize_one (C3.depth_bound graph) graph (fst kv) = Ok order) ->
  exists lin, forM (C3.linearize_step graph) entries acc = Ok lin.
Proof.
  revert acc. induction entries as [|kv entries IH]; intros acc Hall; [now exists acc|].
  destruct (Hall kv (list_elem_of_here _ _)) as [order Horder].
  change (forM (C3.linearize_step graph) (kv :: entries) acc)
    with (acc' ← C3.linearize_step graph acc kv;
          forM (C3.linearize_step graph) entries acc').
  assert (C3.linearize_step graph acc kv = Ok (<[fst kv := order]> acc)) as ->
    by (unfold C3.linearize_step; now rewrite Horder).
  cbn [mbind result_bind]. apply IH. intros kv' Hin. apply Hall.
  now apply list_elem_of_further.
Qed.

Lemma linearize_steps_other (entries : list (string * list string))
    (acc lin : gmap string (list string)) (k : string) :
  forM (C3.linearize_step graph) entries acc = Ok lin ->
  k ∉ map fst entries ->
  lin !! k = acc !! k.
Proof.
  revert acc. induction entries as [|kv entries IH]; intros acc.
  - cbn. now intros [= <-].
  - change (forM (C3.linearize_step graph) (kv :: entries) acc)
      with (acc' ← C3.linearize_step graph acc kv;
          forM (C3.linearize_step graph) entries acc').
    assert (C3.linearize_step graph acc kv
            = (order ← C3.linearize_one (C3.depth_bound graph) graph (fst kv);
               Ok (<[fst kv := order]> acc))) as -> by reflexivity.
    destruct (C3.linearize_one _ graph (fst kv)) as [order|e];
      cbn [mbind result_bind]; [|discriminate].
    intros Hrest Hk. cbn [map] in Hk. apply not_elem_of_cons in Hk as [Hne Hk].
    rewrite (IH _ Hrest Hk). now rewrite lookup_insert_ne.
Qed.

Lemma linearize_steps_key (entries : list (string * list string))
    (acc lin : gmap string (list string)) (k : string) :
  forM (C3.linearize_step graph) entries acc = Ok lin ->
  k ∈ map fst entries ->
  exists order,
    lin !! k = Some order
    /\ C3.linearize_one (C3.depth_bound graph) graph k = Ok order.
Proof.
  revert acc. induction entries as [|kv entries IH]; intros acc.
  - cbn. intros _ Hk. now apply elem_of_nil in Hk.
  - change (forM (C3.linearize_step graph) (kv :: entries) acc)
      with (acc' ← C3.linearize_step graph acc kv;
          forM (C3.linearize_step graph) entries acc').
    assert (C3.linearize_step graph acc kv
            = (order ← C3.linearize_one (C3.depth_bound graph) graph (fst kv);
               Ok (<[fst kv := order]> acc))) as -> by reflexivity.
    destruct (C3.linearize_one _ graph (fst kv)) as [order|e] eqn:Horder;
      cbn [mbind result_bind]; [|discriminate].
    intros Hrest Hk.
    destruct (decide (k ∈ map fst entries)) as [Hlater|Hnot]; [now apply (IH _ Hrest)|].
    cbn [map] in Hk. apply elem_of_cons in Hk as [->|Hk]; [|contradiction].
    exists order. split; [|exact Horder].
    rewrite (linearize_steps_other _ _ _ _ Hrest Hnot). apply lookup_insert_eq.
Qed.

(** When every declared contract has a linearization, [linearize] returns
    the map of these linearizations. *)
Lemma linearize_total :
  (forall k parents,
      graph !! k = Some parents ->
      exists order, C3.linearize_one (C3.depth_bound graph) graph k = Ok order) ->
  exists lin,
    C3.linearize graph = Ok lin
    /\ forall k parents order,
         graph !! k = Some parents ->
         C3.linearize_one (C3.depth_bound graph) graph k = Ok order ->
         lin !! k = Some order.
Proof.
  intros Hall.
  destruct (linearize_steps_total (map_to_list graph) ∅) as [lin Hlin].
  { intros [k v] Hin%elem_of_map_to_list. exact (Hall k v Hin). }
  exists lin. split; [exact Hlin|].
  intros k parents order Hk Horder.
  destruct (linearize_steps_key (map_to_list graph) ∅ lin k Hlin) as (o & Ho & Hone).
  { apply list_elem_of_fmap. exists (k, parents).
    split; [reflexivity|now apply elem_of_map_to_list]. }
  congruence.
Qed.

End LinearizeFacts.

(** Every key of the map [linearize] is given has an entry in the map it
    returns. *)
Lemma linearize_entry (graph lin : gmap string (list string))
    (k : string) (parents : list string) :
  C3.linearize graph = Ok lin ->
  graph !! k = Some parents ->
  exists order, lin !! k = Some order.
Proof.
  intros Hlin Hk.
  destruct (linearize_steps_key graph (map_to_list graph) ∅ lin k Hlin) as (o & Ho & _).
  { apply list_elem_of_fmap. exists (k, parents).
    split; [reflexivity|now apply elem_of_map_to_list]. }
  eauto.
Qed.

(** The linearization of every declared contract of a well-formed map
    starts with the contract and ends with [0_global]. *)
Lemma linearize_declared (graph lin : gmap string (list string))
    (C : string) (order : list string) :
  wf_dependencies graph ->
  C3.linearize graph = Ok lin ->
  lin !! C = Some order ->
  head order = Some C /\ last order = Some GLOBAL.
Proof.
  intros Hwf Hlin HC.
  destruct (linearize_lookup _ _ _ _ Hlin HC) as [[parents Hparents] Hone].
  exact (linearize_one_declared graph Hwf _ _ _ _ Hparents Hone).
Qed.

(** The linearizations of [C], [A] and [B] when [C] has the bases
    [[A, B]] and there is no other relation. *)
Lemma linearize_twoBases (A B C : string) :
  A ≠ B -> A ≠ C -> B ≠ C -> A ≠ GLOBAL -> B ≠ GLOBAL -> C ≠ GLOBAL ->
  exists lin,
    C3.linearize (twoBases A B C) = Ok lin
    /\ lin !! A = Some [A; GLOBAL]
    /\ lin !! B = Some [B; GLOBAL]
    /\ lin !! C = Some [C; B; A; GLOBAL].
Proof.
  intros HAB HAC HBC HA HB HC.
  destruct (twoBases_depth A B C) as [fuel Hfuel].
  assert (C3.linearize_one (C3.depth_bound (twoBases A B C)) (twoBases A B C) A
          = Ok [A; GLOBAL]) as HlA.
  { unfold C3.linearize_one. rewrite Hfuel.
    now rewrite (raw_order_base A B C HA HB HC (S fuel) A HA (twoBases_A A B C)). }
  assert (C3.linearize_one (C3.depth_bound (twoBases A B C)) (twoBases A B C) B
          = Ok [B; GLOBAL]) as HlB.
  { unfold C3.linearize_one. rewrite Hfuel.
    now rewrite (raw_order_base A B C HA HB HC (S fuel) B HB (twoBases_B A B C HAB)). }
  assert (C3.linearize_one (C3.depth_bound (twoBases A B C)) (twoBases A B C) C
          = Ok [C; B; A; GLOBAL]) as HlC.
  { unfold C3.linearize_one. rewrite Hfuel.
    now rewrite (raw_order_derived A B C HAB HAC HBC HA HB HC fuel). }
  destruct (linearize_total (twoBases A B C)) as (lin & Hlin & Hentries).
  { intros k parents Hk.
    destruct (twoBases_keys A B C HAC HBC HC k parents Hk) as [-> | [-> | ->]]; eauto. }
  exists lin. split; [exact Hlin|].
  split; [exact (Hentries _ _ _ (twoBases_A A B C) HlA)|].
  split; [exact (Hentries _ _ _ (twoBases_B A B C HAB) HlB)|].
  exact (Hentries _ _ _ (twoBases_C A B C HAC HBC) HlC).
Qed.

(** ** The collected [dependencies] are well formed *)

Lemma forM_invariant {S X : Type} (body : S -> X -> result S) (Inv : S -> Prop)
    (good : X -> Prop) (xs : list X) (st st' : S) :
  (forall s x s', good x -> Inv s -> body s x = Ok s' -> Inv s') ->
  Forall good xs ->
  Inv st ->
  forM body xs st = Ok st' ->
  Inv st'.
Proof.
  intros Hbody Hgood. revert st. induction Hgood as [|x xs Hx _ IH]; intros st Hst.
  - cbn. now intros [= <-].
  - change (forM body (x :: xs) st) with (s ← body st x; forM body xs s).
    destruct (body st x) as [s|e] eqn:Hs; cbn [mbind result_bind]; [|discriminate].
    apply IH. exact (Hbody _ _ _ Hx Hst Hs).
Qed.

Lemma Forall_True {X : Type} (xs : list X) : Forall (fun _ => True) xs.
Proof. induction xs; constructor; auto. Qed.

Section CollectFacts.
Variable P : Platform.
Variable H : ParserHelpers.

Lemma declareStateVariable_dependencies (d d' : Decls) (v : Ast.VariableDeclaration) :
  Collect.declareStateVariable H d v = Ok d' -> dependencies d' = dependencies d.
Proof.
  unfold Collect.declareStateVariable, set_at.
  repeat match goal with
         | |- context [if ?b then _ else _] => destruct b
         | |- context [match ?x with _ => _ end] => destruct x
         end; cbn; intros [= <-]; reflexivity.
Qed.

Lemma visitPart_dependencies (d d' : Decls) (p : Ast.ContractPart) :
  Collect.visitPart H d p = Ok d' -> dependencies d' = dependencies d.
Proof.
  destruct p; cbn [Collect.visitPart].
  - apply (forM_invariant (Collect.declareStateVariable H)
             (fun s => dependencies s = dependencies d) (fun _ => True));
      [|apply Forall_True|reflexivity].
    intros s x s' _ Hs Hstep.
    now rewrite (declareStateVariable_dependencies _ _ _ Hstep).
  - unfold push_at. destruct (functionsPerContract d !! contractName d); cbn;
      intros [= <-]; reflexivity.
  - intros [= <-]; reflexivity.
  - unfold push_at. destruct (eventsPerContract d !! contractName d); cbn;
      intros [= <-]; reflexivity.
  - unfold push_at. destruct (structsPerContract d !! contractName d); cbn;
      intros [= <-]; reflexivity.
  - unfold push_at. destruct (functionsPerContract d !! contractName d); cbn;
      intros [= <-]; reflexivity.
  - unfold Collect.UsingForDeclaration.
    destruct (contractUsingFor d !! contractName d); intros [= <-]; reflexivity.
  - intros [= <-]; reflexivity.
Qed.

Lemma wf_dependencies_insert (graph : gmap string (list string))
    (name : string) (bases : list string) :
  wf_dependencies graph ->
  name ≠ GLOBAL -> GLOBAL ∉ bases ->
  wf_dependencies (<[name := GLOBAL :: bases]> graph).
Proof.
  intros Hwf Hname Hbases k parents Hk.
  destruct (decide (name = k)) as [<-|Hne].
  - rewrite lookup_insert_eq in Hk. injection Hk as <-. eauto.
  - rewrite lookup_insert_ne in Hk by exact Hne. exact (Hwf _ _ Hk).
Qed.

Lemma visitItem_wf (d d' : Decls) (item : Ast.SourceItem) :
  wf_item item ->
  wf_dependencies (dependencies d) ->
  Collect.visitItem H d item = Ok d' ->
  wf_dependencies (dependencies d').
Proof.
  destruct item as [path|c|p]; cbn [Collect.visitItem wf_item].
  - now intros _ Hwf [= <-].
  - intros [Hname Hbases] Hwf.
    destruct (forM (Collect.visitPart H) (Ast.subNodes c) (Collect.ContractDefinition d c))
      as [d1|e] eqn:Hparts; cbn [mbind result_bind]; [|discriminate].
    intros [= <-]. cbn [Collect.ContractDefinition_exit dependencies].
    apply (forM_invariant (Collect.visitPart H)
             (fun s => wf_dependencies (dependencies s)) (fun _ => True)
             _ _ _) with (4 := Hparts); [|apply Forall_True|].
    + intros s x s' _ Hs Hstep. now rewrite (visitPart_dependencies _ _ _ Hstep).
    + cbn [Collect.ContractDefinition dependencies resetTables].
      now apply wf_dependencies_insert.
  - intros _ Hwf Hpart. now rewrite (visitPart_dependencies _ _ _ Hpart).
Qed.

Lemma collectFile_wf (options : Options) (d d' : Decls) (file : string) :
  wf_parser P ->
  wf_dependencies (dependencies d) ->
  collectFile P H options d file = Ok d' ->
  wf_dependencies (dependencies d').
Proof.
  intros Hparser Hwf. unfold collectFile.
  assert (forall text,
             match parse P Ast.WithRange text with
             | Some ast => Collect.collectContent H d text ast
             | None => Err ParseError
             end = Ok d' -> wf_dependencies (dependencies d')) as Hcollect.
  { intros text. destruct (parse P Ast.WithRange text) as [ast|] eqn:Hparse;
      [|discriminate].
    unfold Collect.collectContent.
    apply (forM_invariant (Collect.visitItem H)
             (fun s => wf_dependencies (dependencies s)) wf_item).
    - intros s x s' Hx Hs Hstep. exact (visitItem_wf _ _ _ Hx Hs Hstep).
    - exact (Hparser _ _ _ Hparse).
    - exact Hwf. }
  destruct (negb (contentsInFilePath options)).
  - destruct (fs_readFileSync P file); [apply Hcollect| |discriminate].
    now intros [= <-].
  - apply Hcollect.
Qed.

(** After the first loop of [graph], [dependencies] maps every declared
    contract to its bases behind [0_global]. *)
Lemma collected_dependencies_wf (options : Options) (files : list string) (d : Decls) :
  wf_parser P ->
  forM (collectFile P H options) files initialDecls = Ok d ->
  wf_dependencies (dependencies d).
Proof.
  intros Hparser.
  apply (forM_invariant (collectFile P H options)
           (fun s => wf_dependencies (dependencies s)) (fun _ => True)).
  - intros s x s' _ Hs Hstep. exact (collectFile_wf _ _ _ _ Hparser Hs Hstep).
  - apply Forall_True.
  - intros k parents Hk. cbn in Hk. now rewrite lookup_empty in Hk.
Qed.

End CollectFacts.

(* ===================================================================== *)
(** * Further properties *)
(* ===================================================================== *)

(** ** The import resolver, continued *)

Lemma split_not_nil (c : ascii) (s : string) : Js.split c s ≠ [].
Proof.
  destruct s as [|a s]; cbn; [discriminate|].
  destruct (Ascii.eqb a c); [discriminate|].
  destruct (Js.split c s); discriminate.
Qed.

Lemma removelast_length {X : Type} (xs : list X) :
  xs ≠ [] -> S (length (removelast xs)) = length xs.
Proof.
  induction xs as [|x xs IH]; [congruence|]. intros _.
  destruct xs as [|y xs]; [reflexivity|].
  change (removelast (x :: y :: xs)) with (x :: removelast (y :: xs)).
  cbn [length]. now rewrite IH.
Qed.

Section WalkFacts.
Variable P : Platform.
Variable top : list string.
Hypothesis Htop : top ≠ [].

Lemma walk_shortens (cur : list string) :
  (length cur <? length top)%nat = false -> S (length (removelast cur)) = length cur.
Proof.
  intros Hlen. apply removelast_length. intros ->.
  destruct top; [congruence|discriminate].
Qed.

(** The [while] loop of [resolveImportPath] ends within the rounds the
    embedding gives it. *)
Lemma findDependencyRoot_fuel (fuel : nat) (dir : string) (cur : list string) :
  (forall p, fs_readdirSync P p ≠ Err OutOfFuel) ->
  (length cur < fuel)%nat ->
  Importer.findDependencyRoot P fuel top dir cur ≠ Err OutOfFuel.
Proof.
  intros Hfs. revert dir cur. induction fuel as [|fuel IH]; intros dir cur Hlen; [lia|].
  cbn [Importer.findDependencyRoot].
  destruct (length cur <? length top)%nat eqn:Hshort; [discriminate|].
  destruct (fs_readdirSync P dir) as [names|e] eqn:Hdir; cbn [mbind result_bind].
  - destruct (_ || _); [discriminate|]. apply IH.
    pose proof (walk_shortens cur Hshort). lia.
  - intros [= ->]. now apply (Hfs dir).
Qed.

(** Without a marker in the directories it reads, the walk ends with the
    error of line 94. *)
Lemma findDependencyRoot_unmarked (fuel : nat) (dir : string) (cur : list string) :
  (forall k, (length top + k <= length cur)%nat -> unmarked P (ancestorDir P dir k)) ->
  (length cur < fuel)%nat ->
  Importer.findDependencyRoot P fuel top dir cur = Err UnresolvedRemapping.
Proof.
  revert dir cur. induction fuel as [|fuel IH]; intros dir cur Hfs Hlen; [lia|].
  cbn [Importer.findDependencyRoot].
  destruct (length cur <? length top)%nat eqn:Hshort; [reflexivity|].
  apply Nat.ltb_ge in Hshort as Hge.
  destruct (Hfs 0%nat) as (names & Hdir & Hnm & Hfr); [lia|].
  cbn [ancestorDir] in Hdir. rewrite Hdir. cbn [mbind result_bind].
  rewrite !bool_decide_eq_false_2 by assumption. cbn [orb].
  pose proof (walk_shortens cur Hshort).
  apply IH; [|lia]. intros k Hk. apply (Hfs (S k)). lia.
Qed.

(** The directory the walk stops at lists at least one of the two markers,
    and the flags say which. *)
Lemma findDependencyRoot_marked (fuel : nat) (dir : string) (cur : list string)
    (root : Importer.DependencyRoot) :
  Importer.findDependencyRoot P fuel top dir cur = Ok root ->
  exists names,
    fs_readdirSync P (Importer.currentDir root) = Ok names
    /\ Importer.nodeModulesBool root = bool_decide ("node_modules" ∈ names)
    /\ Importer.forgeRemappingsBool root = bool_decide ("remappings.txt" ∈ names)
    /\ Importer.forgeRemappingsBool root || Importer.nodeModulesBool root = true.
Proof.
  revert dir cur. induction fuel as [|fuel IH]; intros dir cur; [discriminate|].
  cbn [Importer.findDependencyRoot].
  destruct (length cur <? length top)%nat; [discriminate|].
  destruct (fs_readdirSync P dir) as [names|e] eqn:Hdir; cbn [mbind result_bind];
    [|discriminate].
  destruct (bool_decide ("remappings.txt" ∈ names)
            || bool_decide ("node_modules" ∈ names)) eqn:Hmark; [|apply IH].
  intros [= <-]. exists names. cbn. auto.
Qed.

End WalkFacts.

Lemma posix_readdir_no_fuel (fs : Posix.FileSystem)
    (parser : Ast.ParseOptions -> string -> option Ast.SourceUnit) (wd p : string) :
  fs_readdirSync (Posix.platform fs parser wd) p ≠ Err OutOfFuel.
Proof. cbn. destruct (Graphviz.assoc p fs) as [[text|names]|]; discriminate. Qed.

Lemma resolveImportPath_file
    (P : Platform) (baseFilePath importedFilePath projectDir resolvedPath : string) :
  Importer.resolveImportPath P baseFilePath importedFilePath projectDir = Ok resolvedPath ->
  fs_existsSync P resolvedPath = true /\ fs_isFile P resolvedPath = true.
Proof.
  unfold Importer.resolveImportPath.
  destruct (if Importer.isRelativeOrAbsolute importedFilePath then _ else _) as [p|e];
    cbn [mbind result_bind]; [|discriminate].
  unfold Importer.verifyIsFile.
  destruct (fs_existsSync P p) eqn:He, (fs_isFile P p) eqn:Hf; cbn; try discriminate.
  intros [= <-]. now rewrite He, Hf.
Qed.

(** X1. A path [resolveImportPath] returns exists and is a regular file,
    whichever branch resolved it. *)
Theorem resolved_import_is_regular_file
    (P : Platform) (baseFilePath importedFilePath projectDir resolvedPath : string) :
  Importer.resolveImportPath P baseFilePath importedFilePath projectDir = Ok resolvedPath ->
  fs_existsSync P resolvedPath = true /\ fs_isFile P resolvedPath = true.
Proof. apply resolveImportPath_file. Qed.

Lemma resolved_import_is_regular_file_witness :
  fs_existsSync Examples.ozProject "/p/lib/openzeppelin/token/ERC20.sol" = true
  /\ fs_isFile Examples.ozProject "/p/lib/openzeppelin/token/ERC20.sol" = true.
Proof.
  apply (resolved_import_is_regular_file Examples.ozProject "/p/src/A.sol"
           "@oz/token/ERC20.sol" "/p").
  reflexivity.
Defined.

Lemma scanRemappings_no_fuel (lines : list string) (importBase : string) :
  Importer.scanRemappings lines importBase ≠ Err OutOfFuel.
Proof.
  induction lines as [|line lines IH]; cbn [Importer.scanRemappings]; [discriminate|].
  destruct (Importer.multipleAssignments line); [discriminate|].
  destruct (Importer.lineMatches importBase line); [discriminate|exact IH].
Qed.

Lemma resolveRemapped_no_fuel (P : Platform) (root : Importer.DependencyRoot)
    (importedFilePath : string) :
  Importer.resolveRemapped P root importedFilePath ≠ Err OutOfFuel.
Proof.
  unfold Importer.resolveRemapped.
  destruct (Importer.forgeRemappingsBool root); cbn [negb orb andb].
  - destruct (fs_readFileSync P _) as [text| |]; cbn [mbind result_bind];
      try discriminate.
    pose proof (scanRemappings_no_fuel (Js.split_lines text)
                  (Importer.importBaseOf importedFilePath)) as Hscan.
    destruct (Importer.scanRemappings _ _) as [[input output]|e];
      cbn [mbind result_bind]; [|congruence].
    destruct (bool_decide _); discriminate.
  - discriminate.
Qed.

Lemma resolveImportPath_no_fuel
    (P : Platform) (baseFilePath importedFilePath projectDir : string) :
  (forall p, fs_readdirSync P p ≠ Err OutOfFuel) ->
  Importer.resolveImportPath P baseFilePath importedFilePath projectDir ≠ Err OutOfFuel.
Proof.
  intros Hfs. unfold Importer.resolveImportPath.
  destruct (Importer.isRelativeOrAbsolute importedFilePath).
  - cbn [mbind result_bind]. unfold Importer.verifyIsFile.
    destruct (_ || _); discriminate.
  - pose proof (findDependencyRoot_fuel P (Js.split (path_sep P) projectDir)
                  (split_not_nil _ _)
                  (S (length (removelast (Js.split (path_sep P)
                                            (path_dirname P baseFilePath)))))
                  (path_resolve P (path_dirname P baseFilePath) "..")
                  (removelast (Js.split (path_sep P) (path_dirname P baseFilePath)))
                  Hfs (Nat.lt_succ_diag_r _)) as Hwalk.
    fold (Importer.dependencyRootOf P baseFilePath projectDir) in Hwalk.
    destruct (Importer.dependencyRootOf P baseFilePath projectDir) as [root|e];
      cbn [mbind result_bind]; [|congruence].
    pose proof (resolveRemapped_no_fuel P root importedFilePath) as Hremap.
    destruct (Importer.resolveRemapped P root importedFilePath) as [p|e];
      cbn [mbind result_bind]; [|congruence].
    unfold Importer.verifyIsFile. destruct (_ || _); discriminate.
Qed.

(** X2. [resolveImportPath] always ends: the rounds given to the upward
    walk of the remapped branch are never used up, so the outcome is a path
    or one of the errors of the program. *)
Theorem resolveImportPath_ends
    (P : Platform) (baseFilePath importedFilePath projectDir : string) :
  (forall p, fs_readdirSync P p ≠ Err OutOfFuel) ->
  Importer.resolveImportPath P baseFilePath importedFilePath projectDir ≠ Err OutOfFuel.
Proof. apply resolveImportPath_no_fuel. Qed.

Lemma resolveImportPath_ends_witness :
  Importer.resolveImportPath Examples.ozProject "/p/src/A.sol" "unknown/T.sol" "/p"
  ≠ Err OutOfFuel.
Proof.
  apply (resolveImportPath_ends Examples.ozProject "/p/src/A.sol" "unknown/T.sol" "/p").
  intros p. apply posix_readdir_no_fuel.
Defined.

(** X3. When none of the directories the upward walk reads holds
    [node_modules] or [remappings.txt], an import that does not start with
    [.] or [/] fails with the unresolved-remapping error. The walk reads the
    parent of the importing file's directory and then each parent in turn,
    as long as the segments left of the directory of the importing file are
    no fewer than the segments of the project directory. *)
Theorem import_without_dependency_root_fails
    (P : Platform) (baseFilePath importedFilePath projectDir : string) :
  Importer.isRelativeOrAbsolute importedFilePath = false ->
  (forall k,
      (length (Js.split (path_sep P) projectDir) + k
       <= length (removelast (Js.split (path_sep P) (path_dirname P baseFilePath))))%nat ->
      unmarked P (ancestorDir P (path_resolve P (path_dirname P baseFilePath) "..") k)) ->
  Importer.resolveImportPath P baseFilePath importedFilePath projectDir
  = Err UnresolvedRemapping.
Proof.
  intros Hrel Hfs. unfold Importer.resolveImportPath, Importer.dependencyRootOf.
  rewrite Hrel.
  now rewrite (findDependencyRoot_unmarked P _ (split_not_nil _ _) _ _ _ Hfs
                 (Nat.lt_succ_diag_r _)).
Qed.

Lemma import_without_dependency_root_fails_witness :
  Importer.resolveImportPath Examples.noDependencyRoot "/p/src/A.sol" "@oz/T.sol" "/p"
  = Err UnresolvedRemapping.
Proof.
  apply (import_without_dependency_root_fails Examples.noDependencyRoot
           "/p/src/A.sol" "@oz/T.sol" "/p").
  - reflexivity.
  - intros k Hk.
    assert (k = 0%nat) as -> by (vm_compute in Hk; lia).
    exists ["src"]. split; [reflexivity|].
    split; intros Hin; apply list_elem_of_singleton in Hin; discriminate.
Defined.

(** X4. The directory the upward walk returns lists [node_modules] or
    [remappings.txt], and the two flags of the result tell which of them it
    lists. *)
Theorem dependency_root_holds_a_marker
    (P : Platform) (baseFilePath projectDir : string) (root : Importer.DependencyRoot) :
  Importer.dependencyRootOf P baseFilePath projectDir = Ok root ->
  exists names,
    fs_readdirSync P (Importer.currentDir root) = Ok names
    /\ Importer.nodeModulesBool root = bool_decide ("node_modules" ∈ names)
    /\ Importer.forgeRemappingsBool root = bool_decide ("remappings.txt" ∈ names)
    /\ Importer.forgeRemappingsBool root || Importer.nodeModulesBool root = true.
Proof. apply findDependencyRoot_marked. Qed.

Lemma dependency_root_holds_a_marker_witness :
  exists names,
    fs_readdirSync Examples.vendored "/p" = Ok names
    /\ true = bool_decide ("node_modules" ∈ names)
    /\ true = bool_decide ("remappings.txt" ∈ names)
    /\ true || true = true.
Proof.
  apply (dependency_root_holds_a_marker Examples.vendored "/p/src/A.sol" "/p"
           {| Importer.currentDir := "/p"; Importer.nodeModulesBool := true;
              Importer.forgeRemappingsBool := true |}).
  reflexivity.
Defined.

(** X5. An import for which there is no manifest, or whose manifest has no
    line that matches (and none with two separators), is looked up under
    [node_modules] in the directory the walk stopped at, whether or not that
    directory has a [node_modules]. *)
Theorem unmatched_import_falls_back_to_node_modules
    (P : Platform) (baseFilePath importedFilePath projectDir : string)
    (root : Importer.DependencyRoot) :
  Importer.isRelativeOrAbsolute importedFilePath = false ->
  Importer.dependencyRootOf P baseFilePath projectDir = Ok root ->
  (Importer.forgeRemappingsBool root = false
   \/ exists manifest,
        fs_readFileSync P (path_join P (Importer.currentDir root) "remappings.txt")
        = ReadOk manifest
        /\ Forall (fun line =>
                     Importer.multipleAssignments line = false
                     /\ Importer.lineMatches (Importer.importBaseOf importedFilePath) line
                        = false) (Js.split_lines manifest)) ->
  Importer.resolveImportPath P baseFilePath importedFilePath projectDir
  = Importer.verifyIsFile P
      (path_join P (path_join P (Importer.currentDir root) "node_modules")
         importedFilePath).
Proof.
  intros Hrel Hroot Hcase.
  rewrite (resolveImportPath_remapped P _ _ _ root Hrel Hroot).
  unfold Importer.resolveRemapped.
  destruct (Importer.forgeRemappingsBool root) eqn:Hforge.
  - destruct Hcase as [|(manifest & Hread & Hlines)]; [discriminate|].
    rewrite Hread.
    rewrite <- (app_nil_r (Js.split_lines manifest)).
    rewrite (scanRemappings_skip _ _ [] Hlines). reflexivity.
  - reflexivity.
Qed.

Lemma unmatched_import_falls_back_to_node_modules_witness :
  Importer.resolveImportPath Examples.vendored "/p/src/A.sol" "@oz/T.sol" "/p"
  = Ok "/p/node_modules/@oz/T.sol".
Proof.
  apply (unmatched_import_falls_back_to_node_modules Examples.vendored
           "/p/src/A.sol" "@oz/T.sol" "/p"
           {| Importer.currentDir := "/p"; Importer.nodeModulesBool := true;
              Importer.forgeRemappingsBool := true |}).
  - reflexivity.
  - reflexivity.
  - right. exists "forge-std/=lib/forge-std/src/". split; [reflexivity|].
    repeat constructor.
Defined.



(** ** The import closure *)

Lemma importProfiler_nil (P : Platform) (fuel : nat) (projectDir : string)
    (importedFiles : list string) :
  Importer.importProfiler P (S fuel) [] projectDir importedFiles = Ok importedFiles.
Proof. reflexivity. Qed.

Lemma importProfiler_cons (P : Platform) (fuel : nat) (file projectDir : string)
    (rest importedFiles : list string) :
  Importer.importProfiler P (S fuel) (file :: rest) projectDir importedFiles
  = let file := path_resolve P projectDir file in
    if negb (Js.starts_with file projectDir) || negb (Js.ends_with file ".sol")
    then Err (InvalidImportPath file)
    else
      match fs_readFileSync P file with
      | ReadEISDIR => Ok importedFiles
      | ReadFailed => Err IOError
      | ReadOk text =>
          match parse P Ast.Tolerant text with
          | None => Err ParseError
          | Some ast =>
              newFiles ← Importer.collectNewFiles P file projectDir
                           (Js.set_add file importedFiles) ast;
              importedFiles' ← Importer.importProfiler P fuel newFiles projectDir
                                 (Js.set_add file importedFiles);
              Importer.importProfiler P (S fuel) rest projectDir importedFiles'
          end
      end.
Proof. reflexivity. Qed.

Section ProfilerInvariant.
Variable P : Platform.
Variable projectDir : string.
Variable R : list string -> list string -> Prop.
Hypothesis R_refl : forall s, R s s.
Hypothesis R_trans : forall a b c, R a b -> R b c -> R a c.
Hypothesis R_add : forall s file,
  importedFrom P projectDir file -> R s (Js.set_add file s).

Lemma importProfiler_invariant (fuel : nat) (files importedFiles out : list string) :
  Importer.importProfiler P fuel files projectDir importedFiles = Ok out ->
  R importedFiles out.
Proof.
  revert files importedFiles out.
  induction fuel as [|fuel IHfuel]; intros files; [discriminate|].
  induction files as [|file rest IHrest]; intros seen out.
  - rewrite importProfiler_nil. intros [= <-]. apply R_refl.
  - rewrite importProfiler_cons. cbv zeta.
    destruct (Js.starts_with _ _) eqn:Hin; [|discriminate].
    destruct (Js.ends_with _ _) eqn:Hsol; [|discriminate].
    cbn [negb orb].
    destruct (fs_readFileSync P _) as [text| |] eqn:Hread; try discriminate.
    + destruct (parse P _ _) as [ast|]; [|discriminate].
      destruct (Importer.collectNewFiles _ _ _ _ _) as [newFiles|e];
        cbn [mbind result_bind]; [|discriminate].
      destruct (Importer.importProfiler P fuel _ _ _) as [seen'|e] eqn:Hrec;
        cbn [mbind result_bind]; [|discriminate].
      intros Hrest.
      eapply R_trans; [apply R_add; repeat split; eauto|].
      eapply R_trans; [apply (IHfuel _ _ _ Hrec)|]. now apply IHrest.
    + intros [= <-]. apply R_refl.
Qed.
End ProfilerInvariant.

Lemma importProfiler_appends
    (P : Platform) (fuel : nat) (files : list string) (projectDir : string)
    (importedFiles out : list string) :
  Importer.importProfiler P fuel files projectDir importedFiles = Ok out ->
  exists added,
    out = importedFiles ++ added
    /\ Forall (importedFrom P projectDir) added
    /\ (NoDup importedFiles -> NoDup out).
Proof.
  apply (importProfiler_invariant P projectDir
           (fun s out => exists added,
                out = s ++ added /\ Forall (importedFrom P projectDir) added
                /\ (NoDup s -> NoDup out))).
  - intros s. exists []. rewrite app_nil_r. auto.
  - intros a b c (ab & -> & Hab & Nab) (bc & -> & Hbc & Nbc).
    exists (ab ++ bc). rewrite app_assoc. split; [reflexivity|].
    split; [now apply Forall_app|auto].
  - intros s file Hfile. unfold Js.set_add, Js.set_has.
    case_bool_decide as Hin.
    + exists []. rewrite app_nil_r. auto.
    + exists [file]. split; [reflexivity|]. split; [now constructor|].
      intros Hs. apply NoDup_app. split; [exact Hs|]. split; [|apply NoDup_singleton].
      intros y Hy Hy'. apply list_elem_of_singleton in Hy'. now subst.
Qed.

(** X7. [importProfiler] only appends to the files already imported: the
    result is [importedFiles] followed by files whose path starts with the
    characters of the project directory, ends in [.sol] and was read; and
    it holds no file twice when [importedFiles] held none twice. The test
    on the project directory is a test on strings, so a file outside of it
    can pass: [/p2/x.sol] does for the project directory [/p]. *)
Theorem importProfiler_only_appends
    (P : Platform) (fuel : nat) (files : list string) (projectDir : string)
    (importedFiles out : list string) :
  Importer.importProfiler P fuel files projectDir importedFiles = Ok out ->
  exists added,
    out = importedFiles ++ added
    /\ Forall (importedFrom P projectDir) added
    /\ (NoDup importedFiles -> NoDup out).
Proof. apply importProfiler_appends. Qed.

Lemma importProfiler_only_appends_witness :
  exists added,
    ["/p2/x.sol"] = [] ++ added
    /\ Forall (importedFrom Examples.sibling "/p") added
    /\ (NoDup (@nil string) -> NoDup ["/p2/x.sol"]).
Proof.
  apply (importProfiler_only_appends Examples.sibling 5 ["../p2/x.sol"] "/p" []).
  reflexivity.
Defined.

Lemma unseen_le (universe a b : list string) :
  a ⊆ b -> (unseen universe b <= unseen universe a)%nat.
Proof.
  intros Hab. unfold unseen. induction universe as [|x xs IH]; [reflexivity|].
  rewrite !filter_cons. destruct (decide (x ∉ b)) as [Hb|Hb].
  - destruct (decide (x ∉ a)) as [Ha|Ha]; [cbn; lia|]. exfalso. apply Ha. intros Hx. apply Hb, Hab, Hx.
  - destruct (decide (x ∉ a)); cbn; lia.
Qed.

Lemma unseen_lt (universe a b : list string) (x : string) :
  a ⊆ b -> x ∈ universe -> x ∉ a -> x ∈ b ->
  (unseen universe b < unseen universe a)%nat.
Proof.
  intros Hab Hu Ha Hb. unfold unseen. induction universe as [|y ys IH].
  - now apply elem_of_nil in Hu.
  - rewrite !filter_cons. apply elem_of_cons in Hu as [<- | Hu].
    + rewrite decide_False by (intros Hn; now apply Hn).
      rewrite decide_True by exact Ha.
      pose proof (unseen_le ys a b Hab) as Hle. unfold unseen in Hle. cbn. lia.
    + specialize (IH Hu).
      destruct (decide (y ∉ b)) as [Hyb|Hyb].
      * destruct (decide (y ∉ a)) as [Hya|Hya]; [cbn; lia|].
        exfalso. apply Hya. intros Hy. apply Hyb, Hab, Hy.
      * destruct (decide (y ∉ a)); cbn; lia.
Qed.

Lemma forM_not_error {S X : Type} (body : S -> X -> result S) (e : Error)
    (xs : list X) (st : S) :
  (forall s x, body s x ≠ Err e) -> forM body xs st ≠ Err e.
Proof.
  intros Hbody. revert st. induction xs as [|x xs IH]; intros st; [discriminate|].
  change (forM body (x :: xs) st) with (s ← body st x; forM body xs s).
  destruct (body st x) as [s|e'] eqn:Hs; cbn [mbind result_bind]; [apply IH|].
  rewrite <- Hs. apply Hbody.
Qed.

Lemma collectNewFiles_new (P : Platform) (file projectDir : string)
    (importedFiles : list string) (ast : Ast.SourceUnit) (newFiles : list string) :
  Importer.collectNewFiles P file projectDir importedFiles ast = Ok newFiles ->
  Forall (fun g => (g ∉ importedFiles) /\ fs_isFile P g = true) newFiles.
Proof.
  unfold Importer.collectNewFiles.
  apply (forM_invariant _ (Forall (fun g => (g ∉ importedFiles) /\ fs_isFile P g = true))
           (fun _ => True)); [|apply Forall_True|constructor].
  intros s item s' _ Hs. destruct item as [path| |]; try (now intros [= <-]).
  destruct (Importer.resolveImportPath P file path projectDir) as [g|e] eqn:Hg;
    cbn [mbind result_bind]; [|discriminate].
  intros [= <-]. unfold Js.set_has. case_bool_decide as Hin; [exact Hs|].
  apply Forall_app. split; [exact Hs|]. constructor; [|constructor].
  split; [exact Hin|]. now apply resolveImportPath_file in Hg.
Qed.

Lemma collectNewFiles_no_fuel (P : Platform) (file projectDir : string)
    (importedFiles : list string) (ast : Ast.SourceUnit) :
  (forall p, fs_readdirSync P p ≠ Err OutOfFuel) ->
  Importer.collectNewFiles P file projectDir importedFiles ast ≠ Err OutOfFuel.
Proof.
  intros Hfs. apply forM_not_error. intros s [path| |]; try discriminate.
  pose proof (resolveImportPath_no_fuel P file path projectDir Hfs) as Hend.
  destruct (Importer.resolveImportPath P file path projectDir);
    cbn [mbind result_bind]; [discriminate|congruence].
Qed.

(** The depth of the recursion is bounded by the number of files not yet
    imported: a file that is visited again adds nothing, but then it was
    imported since the level above collected it. *)
Section ProfilerEnds.
Variable P : Platform.
Variable projectDir : string.
Variable universe : list string.
Hypothesis Hwalk : forall p, fs_readdirSync P p ≠ Err OutOfFuel.
Hypothesis Hfiles : forall p, fs_isFile P p = true -> p ∈ universe.
Hypothesis Hread : forall p text, fs_readFileSync P p = ReadOk text -> p ∈ universe.
Hypothesis Hresolved : forall p, p ∈ universe -> path_resolve P projectDir p = p.

Lemma importProfiler_fuel (fuel : nat) (files base importedFiles : list string) :
  base ⊆ importedFiles ->
  Forall (fun g => path_resolve P projectDir g ∉ base) files ->
  (unseen universe base < fuel)%nat ->
  Importer.importProfiler P fuel files projectDir importedFiles ≠ Err OutOfFuel
  /\ forall out, Importer.importProfiler P fuel files projectDir importedFiles = Ok out ->
                 importedFiles ⊆ out.
Proof.
  revert files base importedFiles.
  induction fuel as [|fuel IHfuel]; intros files base; [lia|].
  induction files as [|file rest IHrest]; intros seen Hbase Hnew Hfuel.
  - rewrite importProfiler_nil. split; [discriminate|]. now intros out [= <-].
  - rewrite importProfiler_cons. cbv zeta.
    apply Forall_cons in Hnew as [Hfile Hrest].
    destruct (Js.starts_with _ _) eqn:Hin; [|split; discriminate].
    destruct (Js.ends_with _ _) eqn:Hsol; [|split; discriminate].
    cbn [negb orb].
    destruct (fs_readFileSync P _) as [text| |] eqn:Htext;
      [|split; [discriminate|now intros out [= <-]]|split; discriminate].
    destruct (parse P _ _) as [ast|]; [|split; discriminate].
    pose proof (collectNewFiles_no_fuel P (path_resolve P projectDir file) projectDir
                  (Js.set_add (path_resolve P projectDir file) seen) ast Hwalk) as Hc.
    destruct (Importer.collectNewFiles _ _ _ _ _) as [newFiles|e] eqn:Hcollect;
      cbn [mbind result_bind]; [|split; congruence].
    assert (seen ⊆ Js.set_add (path_resolve P projectDir file) seen) as Hadd.
    { unfold Js.set_add. destruct (Js.set_has _ _); [done|].
      intros x Hx. apply elem_of_app. now left. }
    assert (path_resolve P projectDir file
            ∈ Js.set_add (path_resolve P projectDir file) seen) as Hfresh.
    { unfold Js.set_add, Js.set_has. case_bool_decide as Hx; [exact Hx|].
      apply elem_of_app. right. now apply list_elem_of_singleton. }
    destruct (IHfuel newFiles (Js.set_add (path_resolve P projectDir file) seen)
                (Js.set_add (path_resolve P projectDir file) seen)) as [Hrec Hgrow].
    + done.
    + apply collectNewFiles_new in Hcollect.
      eapply Forall_impl; [exact Hcollect|]. cbn. intros g [Hg Hfileg].
      now rewrite (Hresolved g (Hfiles g Hfileg)).
    + pose proof (unseen_lt universe base
                    (Js.set_add (path_resolve P projectDir file) seen)
                    (path_resolve P projectDir file)) as Hlt.
      specialize (Hlt ltac:(etrans; eassumption) (Hread _ _ Htext) Hfile Hfresh). lia.
    + destruct (Importer.importProfiler P fuel _ _ _) as [seen'|e] eqn:Hdeep;
        cbn [mbind result_bind]; [|split; congruence].
      specialize (Hgrow _ eq_refl).
      destruct (IHrest seen') as [Hr Hg]; [by do 2 (etrans; [eassumption|])|assumption|assumption|].
      split; [exact Hr|]. intros out Hout. specialize (Hg out Hout).
      by do 2 (etrans; [eassumption|]).
Qed.
End ProfilerEnds.

Lemma unseen_bound (universe seen : list string) :
  (unseen universe seen <= length universe)%nat.
Proof. unfold unseen. apply length_filter. Qed.

Lemma assoc_key {V : Type} (k : string) (l : list (string * V)) (v : V) :
  Graphviz.assoc k l = Some v -> k ∈ map fst l.
Proof.
  induction l as [|[k' v'] l IH]; cbn; [discriminate|].
  destruct (String.eqb k k') eqn:Hk.
  - apply String.eqb_eq in Hk as ->. intros _. apply elem_of_cons. now left.
  - intros Hl. apply elem_of_cons. right. now apply IH.
Qed.

Lemma posix_isFile_key (fs : Posix.FileSystem)
    (parser : Ast.ParseOptions -> string -> option Ast.SourceUnit) (wd p : string) :
  fs_isFile (Posix.platform fs parser wd) p = true -> p ∈ map fst fs.
Proof.
  cbn. destruct (Graphviz.assoc p fs) as [entry|] eqn:Hp; [|discriminate].
  intros _. exact (assoc_key _ _ _ Hp).
Qed.

Lemma posix_read_key (fs : Posix.FileSystem)
    (parser : Ast.ParseOptions -> string -> option Ast.SourceUnit)
    (wd p text : string) :
  fs_readFileSync (Posix.platform fs parser wd) p = ReadOk text -> p ∈ map fst fs.
Proof.
  cbn. destruct (Graphviz.assoc p fs) as [entry|] eqn:Hp; [|discriminate].
  intros _. exact (assoc_key _ _ _ Hp).
Qed.

(** X8. [importProfiler] ends on any import graph, cycles included: with
    more rounds than there are paths in the file system, the rounds are never
    used up. *)
Theorem importProfiler_ends
    (P : Platform) (projectDir : string) (universe : list string)
    (fuel : nat) (files importedFiles : list string) :
  (forall p, fs_readdirSync P p ≠ Err OutOfFuel) ->
  (forall p, fs_isFile P p = true -> p ∈ universe) ->
  (forall p text, fs_readFileSync P p = ReadOk text -> p ∈ universe) ->
  (forall p, p ∈ universe -> path_resolve P projectDir p = p) ->
  (length universe < fuel)%nat ->
  Importer.importProfiler P fuel files projectDir importedFiles ≠ Err OutOfFuel.
Proof.
  intros Hwalk Hfiles Hread Hresolved Hfuel.
  apply (importProfiler_fuel P projectDir universe Hwalk Hfiles Hread Hresolved
           fuel files [] importedFiles).
  - intros x Hx. now apply elem_of_nil in Hx.
  - apply Forall_forall. intros g _ Hg. now apply elem_of_nil in Hg.
  - pose proof (unseen_bound universe []). lia.
Qed.

Lemma importProfiler_ends_witness :
  Importer.importProfiler Examples.importCycle 4 ["A.sol"] "/p" [] ≠ Err OutOfFuel.
Proof.
  apply (importProfiler_ends Examples.importCycle "/p" ["/p"; "/p/A.sol"; "/p/B.sol"]).
  - intros p. apply posix_readdir_no_fuel.
  - intros p. apply posix_isFile_key.
  - intros p text. apply posix_read_key.
  - intros p Hp. repeat (apply elem_of_cons in Hp as [-> | Hp]; [reflexivity|]).
    now apply elem_of_nil in Hp.
  - cbn. lia.
Defined.

Lemma set_add_elem (x : string) (s : list string) : x ∈ Js.set_add x s.
Proof.
  unfold Js.set_add, Js.set_has. case_bool_decide as Hx; [exact Hx|].
  apply elem_of_app. right. now apply list_elem_of_singleton.
Qed.

(** X9. Every entry of [files] is in the result of [importProfiler] under
    its resolved path, provided none of the entries is a directory (at a
    directory the function returns, and the entries after it are lost). *)
Theorem entries_that_are_no_directory_are_imported
    (P : Platform) (fuel : nat) (files : list string) (projectDir : string)
    (importedFiles out : list string) :
  Forall (fun file => fs_readFileSync P (path_resolve P projectDir file) ≠ ReadEISDIR)
    files ->
  Importer.importProfiler P fuel files projectDir importedFiles = Ok out ->
  Forall (fun file => path_resolve P projectDir file ∈ out) files.
Proof.
  intros Hfiles. destruct fuel as [|fuel]; [discriminate|].
  revert importedFiles. induction Hfiles as [|file rest Hfile _ IH]; intros seen.
  - constructor.
  - rewrite importProfiler_cons. cbv zeta.
    destruct (negb _ || negb _); [discriminate|].
    destruct (fs_readFileSync P _) as [text| |]; [|done|discriminate].
    destruct (parse P _ _) as [ast|]; [|discriminate].
    destruct (Importer.collectNewFiles _ _ _ _ _) as [newFiles|e];
      cbn [mbind result_bind]; [|discriminate].
    destruct (Importer.importProfiler P fuel _ _ _) as [seen'|e] eqn:Hdeep;
      cbn [mbind result_bind]; [|discriminate].
    intros Hrest. constructor; [|exact (IH _ Hrest)].
    apply importProfiler_appends in Hdeep as (a1 & -> & _).
    apply importProfiler_appends in Hrest as (a2 & -> & _).
    apply elem_of_app. left. apply elem_of_app. left. apply set_add_elem.
Qed.

Lemma entries_that_are_no_directory_are_imported_witness :
  Forall (fun file => Posix.resolve "/p" "/p" file ∈ ["/p/B.sol"; "/p/A.sol"])
    ["B.sol"; "A.sol"].
Proof.
  apply (entries_that_are_no_directory_are_imported Examples.importCycle 5
           ["B.sol"; "A.sol"] "/p" []).
  - repeat constructor; discriminate.
  - reflexivity.
Defined.

(* ===================================================================== *)
(** * Further properties of the graph builder *)
(* ===================================================================== *)

(** ** Induction over the syntax tree *)

Lemma Expression_nested_ind (Q : Ast.Expression -> Prop) :
  (forall r n, Q (Ast.Identifier r n)) ->
  (forall r n, Q (Ast.NumberLiteral r n)) ->
  (forall r e m, Q e -> Q (Ast.MemberAccess r e m)) ->
  (forall r e args, Q e -> Forall Q args -> Q (Ast.FunctionCall r e args)) ->
  (forall r t, Q (Ast.ElementaryTypeNameExpression r t)) ->
  (forall r cs, Forall Q cs -> Q (Ast.OtherExpression r cs)) ->
  forall e, Q e.
Proof.
  intros H1 H2 H3 H4 H5 H6. fix IH 1. intros [r n|r n|r e m|r e args|r t|r cs].
  - apply H1.
  - apply H2.
  - apply H3, IH.
  - apply H4; [apply IH|]. induction args as [|a args IHargs]; constructor; [apply IH|exact IHargs].
  - apply H5.
  - apply H6. induction cs as [|a cs IHcs]; constructor; [apply IH|exact IHcs].
Qed.

Lemma Node_nested_ind (Q : Ast.Node -> Prop) :
  (forall ps, Q (Ast.ParameterList ps)) ->
  (forall v, Q (Ast.VariableDeclarationNode v)) ->
  (forall name args, Q (Ast.ModifierInvocation name args)) ->
  (forall e, Q (Ast.ExpressionNode e)) ->
  (forall cs, Forall Q cs -> Q (Ast.OtherNode cs)) ->
  forall n, Q n.
Proof.
  intros H1 H2 H3 H4 H5. fix IH 1. intros [ps|v|name args|e|cs].
  - apply H1.
  - apply H2.
  - apply H3.
  - apply H4.
  - apply H5. induction cs as [|a cs IHcs]; constructor; [apply IH|exact IHcs].
Qed.

Lemma forM_Forall {S X : Type} (body : S -> X -> result S) (Inv : S -> Prop)
    (xs : list X) (st st' : S) :
  Forall (fun x => forall s s', Inv s -> body s x = Ok s' -> Inv s') xs ->
  Inv st -> forM body xs st = Ok st' -> Inv st'.
Proof.
  intros Hxs. revert st. induction Hxs as [|x xs Hx _ IH]; intros st Hst.
  - cbn. now intros [= <-].
  - change (forM body (x :: xs) st) with (s ← body st x; forM body xs s).
    destruct (body st x) as [s|e] eqn:Hs; cbn [mbind result_bind]; [|discriminate].
    apply IH. exact (Hx _ _ Hst Hs).
Qed.

Section ResolveInvariant.
Variable H : ParserHelpers.
Variable options : Options.
Variable d : Decls.
Variable deps : gmap string (list string).
Variable Inv : Resolve.Scope -> Prop.
Hypothesis Inv_call : forall st node st',
  Inv st -> Resolve.FunctionCall H options d deps st node = Ok st' -> Inv st'.
Hypothesis Inv_parameters : forall st parameters,
  Inv st -> Inv (Resolve.ParameterList H st parameters).
Hypothesis Inv_variable : forall st v st',
  Inv st -> Resolve.VariableDeclaration H st v = Ok st' -> Inv st'.
Hypothesis Inv_modifier : forall st name,
  Inv st -> Inv (Resolve.ModifierInvocation options deps st name).

Lemma visitExpression_invariant (e : Ast.Expression) :
  forall st st', Inv st -> Resolve.visitExpression H options d deps st e = Ok st' -> Inv st'.
Proof.
  induction e as [r n|r n|r e m IHe|r e args IHe IHargs|r t|r cs IHcs]
    using Expression_nested_ind; intros st st' Hst; cbn [Resolve.visitExpression].
  - now intros [= <-].
  - now intros [= <-].
  - apply IHe, Hst.
  - destruct (Resolve.FunctionCall H options d deps st _) as [st1|err] eqn:Hcall;
      cbn [mbind result_bind]; [|discriminate].
    destruct (Resolve.visitExpression H options d deps st1 e) as [st2|err] eqn:Hcallee;
      cbn [mbind result_bind]; [|discriminate].
    apply (forM_Forall _ Inv _ _ _ IHargs).
    exact (IHe _ _ (Inv_call _ _ _ Hst Hcall) Hcallee).
  - now intros [= <-].
  - apply (forM_Forall _ Inv _ _ _ IHcs), Hst.
Qed.

Lemma visitNode_invariant (n : Ast.Node) :
  forall st st', Inv st -> Resolve.visitNode H options d deps st n = Ok st' -> Inv st'.
Proof.
  induction n as [ps|v|name args|e|cs IHcs] using Node_nested_ind;
    intros st st' Hst; cbn [Resolve.visitNode].
  - intros [= <-]. now apply Inv_parameters.
  - now apply Inv_variable.
  - apply (forM_Forall _ Inv); [|now apply Inv_modifier].
    apply Forall_forall. intros e _. apply visitExpression_invariant.
  - now apply visitExpression_invariant.
  - apply (forM_Forall _ Inv _ _ _ IHcs), Hst.
Qed.

Lemma visitNodes_invariant (ns : list Ast.Node) (st st' : Resolve.Scope) :
  Inv st -> forM (Resolve.visitNode H options d deps) ns st = Ok st' -> Inv st'.
Proof.
  apply (forM_Forall _ Inv). apply Forall_forall. intros n _. apply visitNode_invariant.
Qed.

End ResolveInvariant.

Lemma ParameterList_digraph (H : ParserHelpers) (parameters : list Ast.VariableDeclaration)
    (st : Resolve.Scope) :
  Resolve.digraph (Resolve.ParameterList H st parameters) = Resolve.digraph st
  /\ Resolve.callingScope (Resolve.ParameterList H st parameters) = Resolve.callingScope st
  /\ Resolve.contractName (Resolve.ParameterList H st parameters) = Resolve.contractName st.
Proof.
  revert st. induction parameters as [|p ps IH]; intros st; [done|].
  cbn [Resolve.ParameterList].
  destruct (bool_decide (Ast.var_name p = Js.Null)); [done|].
  destruct (isUserDefinedDeclaration H p); [apply (IH (Resolve.with_locals _ _ _))|].
  destruct (bool_decide (is_Some (Resolve.callingScope st)));
    [apply (IH (Resolve.with_locals _ _ _))|apply IH].
Qed.

Lemma VariableDeclaration_digraph (H : ParserHelpers) (v : Ast.VariableDeclaration)
    (st st' : Resolve.Scope) :
  Resolve.VariableDeclaration H st v = Ok st' ->
  Resolve.digraph st' = Resolve.digraph st
  /\ Resolve.callingScope st' = Resolve.callingScope st
  /\ Resolve.contractName st' = Resolve.contractName st.
Proof.
  unfold Resolve.VariableDeclaration.
  destruct (Resolve.callingScope st) eqn:Hscope; [|now intros [= <-]].
  destruct (bool_decide (Ast.var_name v = Js.Null)); [now intros [= <-]|].
  destruct (isUserDefinedDeclaration H v); [now intros [= <-]|].
  destruct (isElementaryTypeDeclaration H v); [now intros [= <-]|].
  destruct (isArrayDeclaration H v).
  { destruct (Ast.var_typeName v); try discriminate. now intros [= <-]. }
  destruct (isMappingDeclaration H v).
  { destruct (Ast.var_typeName v); try discriminate. now intros [= <-]. }
  now intros [= <-].
Qed.

Section ResolveGraphInvariant.
Variable H : ParserHelpers.
Variable options : Options.
Variable d : Decls.
Variable deps : gmap string (list string).
Variable I : Graphviz.Digraph -> Prop.
Hypothesis I_call : forall st node st',
  I (Resolve.digraph st) -> Resolve.FunctionCall H options d deps st node = Ok st' ->
  I (Resolve.digraph st').
Hypothesis I_modifier : forall st name,
  I (Resolve.digraph st) ->
  I (Resolve.digraph (Resolve.ModifierInvocation options deps st name)).

Lemma visitNodes_graph (ns : list Ast.Node) (st st' : Resolve.Scope) :
  I (Resolve.digraph st) ->
  forM (Resolve.visitNode H options d deps) ns st = Ok st' ->
  I (Resolve.digraph st').
Proof.
  apply (visitNodes_invariant H options d deps (fun st => I (Resolve.digraph st))).
  - exact I_call.
  - intros s ps Hs. now rewrite (proj1 (ParameterList_digraph H ps s)).
  - intros s v s' Hs Hv. now rewrite (proj1 (VariableDeclaration_digraph H v s s' Hv)).
  - exact I_modifier.
Qed.

Lemma visitPart_graph (p : Ast.ContractPart) (st st' : Resolve.Scope) :
  I (Resolve.digraph st) ->
  Resolve.visitPart H options d deps st p = Ok st' ->
  I (Resolve.digraph st').
Proof.
  intros Hst. destruct p as [vars cs|f|name cs|name cs|name cs|name cs|lib t|cs];
    cbn [Resolve.visitPart].
  - destruct (forM (Resolve.VariableDeclaration H) vars st) as [st1|e] eqn:Hvars;
      cbn [mbind result_bind]; [|discriminate].
    apply visitNodes_graph.
    revert Hvars. apply (forM_invariant _ (fun s => I (Resolve.digraph s)) (fun _ => True));
      [|apply Forall_True|exact Hst].
    intros s v s' _ Hs Hv. now rewrite (proj1 (VariableDeclaration_digraph H v s s' Hv)).
  - destruct (forM _ _ _) as [st1|e] eqn:Hbody; cbn [mbind result_bind]; [|discriminate].
    intros [= <-]. cbn.
    exact (visitNodes_graph _ (Resolve.FunctionDefinition deps st f) _ Hst Hbody).
  - destruct (forM _ _ _) as [st1|e] eqn:Hbody; cbn [mbind result_bind]; [|discriminate].
    intros [= <-]. cbn.
    exact (visitNodes_graph _ (Resolve.ModifierDefinition deps st name) _ Hst Hbody).
  - now apply visitNodes_graph.
  - now apply visitNodes_graph.
  - now apply visitNodes_graph.
  - now intros [= <-].
  - now apply visitNodes_graph.
Qed.

Lemma visitItem_graph (item : Ast.SourceItem) (st st' : Resolve.Scope) :
  I (Resolve.digraph st) ->
  Resolve.visitItem H options d deps st item = Ok st' ->
  I (Resolve.digraph st').
Proof.
  intros Hst. destruct item as [path|c|p]; cbn [Resolve.visitItem].
  - now intros [= <-].
  - destruct (Resolve.ContractDefinition d deps st c) as [st1|e] eqn:Hc;
      cbn [mbind result_bind]; [|discriminate].
    assert (I (Resolve.digraph st1)) as Hst1.
    { unfold Resolve.ContractDefinition in Hc.
      destruct (deps !! Ast.contract_name c); [|discriminate].
      now injection Hc as <-. }
    destruct (forM _ (Ast.baseContracts c) st1) as [st2|e] eqn:Hbases;
      cbn [mbind result_bind]; [|discriminate].
    assert (I (Resolve.digraph st2)) as Hst2.
    { revert Hbases.
      apply (forM_invariant _ (fun s => I (Resolve.digraph s)) (fun _ => True));
        [|apply Forall_True|exact Hst1].
      intros s b s' _ Hs. now apply visitNodes_graph. }
    destruct (forM _ (Ast.subNodes c) st2) as [st3|e] eqn:Hparts;
      cbn [mbind result_bind]; [|discriminate].
    intros [= <-]. cbn. revert Hparts.
    apply (forM_invariant _ (fun s => I (Resolve.digraph s)) (fun _ => True));
      [|apply Forall_True|exact Hst2].
    intros s p s' _ Hs. now apply visitPart_graph.
  - now apply visitPart_graph.
Qed.

Lemma visit_graph (g : Graphviz.Digraph) (ast : Ast.SourceUnit) (st : Resolve.Scope) :
  I g -> Resolve.visit H options d deps g ast = Ok st -> I (Resolve.digraph st).
Proof.
  intros Hg. unfold Resolve.visit.
  apply (forM_invariant _ (fun s => I (Resolve.digraph s)) (fun _ => True));
    [|apply Forall_True|exact Hg].
  intros s item s' _ Hs. now apply visitItem_graph.
Qed.

End ResolveGraphInvariant.

Section OrderFacts.
Import Graphviz.

Lemma clusters_of_addNode_keeps (g : Digraph) (c id id' x : string) (opts : NodeOpts) :
  x ∈ clusters_of g id' -> x ∈ clusters_of (addNode g c id opts) id'.
Proof.
  intros Hx. destruct (decide (id = id')) as [<-|Hne].
  - destruct (getCluster g c) as [cl|] eqn:Hc.
    + apply (clusters_of_addNode_grows g c id x opts cl Hc). now right.
    + unfold addNode. now rewrite Hc.
  - now rewrite (clusters_of_addNode_other g c id id' opts Hne).
Qed.

Lemma extends_refl (g : Digraph) : extends g g.
Proof.
  split; [auto|]. split; [auto|]. split; [exists []; now rewrite app_nil_r|].
  intros name c Hc. now exists c.
Qed.

Lemma extends_trans (g1 g2 g3 : Digraph) : extends g1 g2 -> extends g2 g3 -> extends g1 g3.
Proof.
  intros (N12 & M12 & [a12 E12] & C12) (N23 & M23 & [a23 E23] & C23).
  split; [auto|]. split; [auto|]. split.
  - exists (a12 ++ a23). now rewrite E23, E12, app_assoc.
  - intros name c Hc. destruct (C12 name c Hc) as (c2 & Hc2 & L2 & K2).
    destruct (C23 name c2 Hc2) as (c3 & Hc3 & L3 & K3).
    exists c3. split; [exact Hc3|]. split; congruence.
Qed.

Lemma extends_addCluster (g : Digraph) (name label : string) (kind : ClusterKind) :
  getCluster g name = None -> extends g (addCluster g name label kind).
Proof.
  intros Hnone. split; [|split; [|split]].
  - auto.
  - intros id c. now rewrite (clusters_of_addCluster g name label id kind Hnone).
  - exists []. now rewrite app_nil_r.
  - intros name' c Hc. exists c. split; [|done].
    unfold getCluster, addCluster. cbn [clusters].
    rewrite assoc_assoc_set_ne; [exact Hc|]. intros <-. congruence.
Qed.

Lemma extends_addNode (g : Digraph) (c id : string) (opts : NodeOpts) :
  extends g (addNode g c id opts).
Proof.
  split; [|split; [|split]].
  - intros id'. now rewrite getNode_addNode.
  - intros id' x. apply clusters_of_addNode_keeps.
  - exists []. now rewrite addNode_edges, app_nil_r.
  - intros name cl Hcl. unfold addNode.
    destruct (getCluster g c) as [cl'|] eqn:Hc; [|now exists cl].
    unfold getCluster. cbn [clusters]. destruct (decide (c = name)) as [<-|Hne].
    + rewrite assoc_assoc_set_eq. eexists. split; [reflexivity|].
      unfold getCluster in Hc, Hcl. rewrite Hc in Hcl. injection Hcl as <-. done.
    + rewrite assoc_assoc_set_ne by exact Hne. now exists cl.
Qed.

Lemma extends_addEdge (g : Digraph) (from to : string) (kind : EdgeKind) :
  extends g (addEdge g from to kind).
Proof.
  split; [|split; [|split]].
  - intros id Hid. apply getNode_addEdge. now right; right.
  - intros id c. now rewrite clusters_of_addEdge.
  - now eexists.
  - intros name c Hc. now exists c.
Qed.

Lemma extends_ensureCluster (g : Digraph) (contract : string) :
  extends g (Resolve.ensureCluster g contract).
Proof.
  unfold Resolve.ensureCluster. destruct (getCluster g contract) eqn:Hc;
    [apply extends_refl|now apply extends_addCluster].
Qed.

End OrderFacts.

Section EmitOrder.
Variable d : Decls.
Variable deps : gmap string (list string).

Lemma emitCall_extends (st : Resolve.Scope) (scope : string) (expr : Ast.Expression)
    (c : Resolve.Callee) :
  extends (Resolve.digraph st) (Resolve.digraph (Resolve.emitCall d deps st scope expr c)).
Proof.
  unfold Resolve.emitCall. cbn [Resolve.digraph Resolve.with_digraph].
  eapply extends_trans; [apply extends_ensureCluster|].
  eapply extends_trans; [|apply extends_addEdge].
  destruct (negb _); [apply extends_addNode|apply extends_refl].
Qed.

Lemma emitCall_target_exists (st : Resolve.Scope) (scope : string)
    (expr : Ast.Expression) (c : Resolve.Callee) :
  Graphviz.getNode (Resolve.digraph (Resolve.emitCall d deps st scope expr c))
    (nodeName deps (Resolve.digraph st) (Resolve.callee_name c)
       (Resolve.localContractName c)) = true.
Proof. apply emitCall_getNode. right. now left. Qed.

End EmitOrder.

Lemma FunctionCall_cases (H : ParserHelpers) (options : Options) (d : Decls)
    (deps : gmap string (list string)) (st st' : Resolve.Scope) (node : Ast.Expression) :
  Resolve.FunctionCall H options d deps st node = Ok st' ->
  st' = st
  \/ exists scope expr c,
       Resolve.callingScope st = Some scope
       /\ st' = Resolve.emitCall d deps st scope expr c.
Proof.
  unfold Resolve.FunctionCall.
  destruct (Resolve.callingScope st) as [scope|]; [|intros [= <-]; now left].
  destruct node as [r n|r n|r e m|r e args|r t|r cs]; try (intros [= <-]; now left).
  destruct (Resolve.resolveCallee H options d deps st _ e args) as [[c|]|err];
    cbn [mbind result_bind]; [| |discriminate].
  - intros [= <-]. right. now exists scope, e, c.
  - intros [= <-]. now left.
Qed.

Lemma targetsExist_extends (g g' : Graphviz.Digraph) (added : list Graphviz.Edge) :
  extends g g' ->
  Graphviz.edges g' = Graphviz.edges g ++ added ->
  Forall (fun e => Graphviz.getNode g' (Graphviz.edge_to e) = true) added ->
  targetsExist g -> targetsExist g'.
Proof.
  intros (Hnodes & _ & _ & _) Hedges Hadded Hg. unfold targetsExist. rewrite Hedges.
  apply Forall_app. split; [|exact Hadded].
  eapply Forall_impl; [exact Hg|]. intros e. apply Hnodes.
Qed.

Lemma Resolve_visit_extends
    (H : ParserHelpers) (options : Options) (d : Decls)
    (deps : gmap string (list string)) (g : Graphviz.Digraph)
    (ast : Ast.SourceUnit) (st : Resolve.Scope) :
  Resolve.visit H options d deps g ast = Ok st ->
  extends g (Resolve.digraph st).
Proof.
  apply (visit_graph H options d deps (extends g)); [| |apply extends_refl].
  - intros s node s' Hs Hcall.
    apply FunctionCall_cases in Hcall as [->|(scope & expr & c & _ & ->)]; [exact Hs|].
    eapply extends_trans; [exact Hs|apply emitCall_extends].
  - intros s name Hs. unfold Resolve.ModifierInvocation.
    destruct (Resolve.callingScope s); [|exact Hs].
    destruct (enableModifierEdges options); [|exact Hs].
    eapply extends_trans; [exact Hs|apply extends_addEdge].
Qed.

(** X10. The call-resolution visitor only adds to the graph: every node it
    finds is still there afterwards, the edges it finds stay in place with
    the new ones behind them, and each cluster keeps its label and its
    kind. *)
Theorem call_resolution_only_adds
    (H : ParserHelpers) (options : Options) (d : Decls)
    (deps : gmap string (list string)) (g : Graphviz.Digraph)
    (ast : Ast.SourceUnit) (st : Resolve.Scope) :
  Resolve.visit H options d deps g ast = Ok st ->
  extends g (Resolve.digraph st).
Proof. apply Resolve_visit_extends. Qed.

Lemma call_resolution_only_adds_witness :
  exists st,
    Resolve.visit SpecHelpers.helpers Examples.sources Examples.inheritedDecls
      Examples.inheritedDeps Examples.inheritedGraph Examples.inherited = Ok st
    /\ extends Examples.inheritedGraph (Resolve.digraph st).
Proof.
  eexists. split; [reflexivity|].
  apply (call_resolution_only_adds SpecHelpers.helpers Examples.sources
           Examples.inheritedDecls Examples.inheritedDeps Examples.inheritedGraph
           Examples.inherited).
  reflexivity.
Defined.

Lemma Resolve_visit_targets
    (H : ParserHelpers) (options : Options) (d : Decls)
    (deps : gmap string (list string)) (g : Graphviz.Digraph)
    (ast : Ast.SourceUnit) (st : Resolve.Scope) :
  enableModifierEdges options = false ->
  targetsExist g ->
  Resolve.visit H options d deps g ast = Ok st ->
  targetsExist (Resolve.digraph st).
Proof.
  intros Hmod. apply (visit_graph H options d deps targetsExist).
  - intros s node s' Hs Hcall.
    apply FunctionCall_cases in Hcall as [->|(scope & expr & c & _ & ->)]; [exact Hs|].
    eapply targetsExist_extends; [apply emitCall_extends|apply emitCall_edges| |exact Hs].
    constructor; [|constructor]. apply emitCall_target_exists.
  - intros s name Hs. unfold Resolve.ModifierInvocation. rewrite Hmod.
    now destruct (Resolve.callingScope s).
Qed.

Lemma drawn_extends (g g' : Graphviz.Digraph) (id : string) :
  extends g g' -> drawn g id -> drawn g' id.
Proof.
  intros (_ & Hmembers & [added Hedges] & _) [Hcluster|(e & He & Hfrom)].
  - left. destruct (Graphviz.clusters_of g id) as [|c cs] eqn:Hcs; [done|].
    intros Hnil. pose proof (Hmembers id c) as Hin. rewrite Hcs, Hnil in Hin.
    specialize (Hin (list_elem_of_here _ _)). now apply elem_of_nil in Hin.
  - right. exists e. split; [|exact Hfrom]. rewrite Hedges. apply elem_of_app. now left.
Qed.

Lemma emitCall_drawn (d : Decls) (deps : gmap string (list string))
    (st : Resolve.Scope) (scope : string) (expr : Ast.Expression) (c : Resolve.Callee) :
  rootNodesAreEnds (Resolve.digraph st) /\ targetsDrawn (Resolve.digraph st) ->
  rootNodesAreEnds (Resolve.digraph (Resolve.emitCall d deps st scope expr c))
  /\ targetsDrawn (Resolve.digraph (Resolve.emitCall d deps st scope expr c)).
Proof.
  intros [Hroot Hdrawn].
  pose proof (emitCall_extends d deps st scope expr c) as Hext.
  pose proof (emitCall_edges d deps st scope expr c) as Hedges.
  set (target := nodeName deps (Resolve.digraph st) (Resolve.callee_name c)
                   (Resolve.localContractName c)) in *.
  set (g' := Resolve.digraph (Resolve.emitCall d deps st scope expr c)) in *.
  assert (callEdge scope target (Resolve.callee_kind c) ∈ Graphviz.edges g') as Hnew.
  { rewrite Hedges. apply elem_of_app. right. apply list_elem_of_here. }
  split.
  - intros id Hid. apply emitCall_getNode in Hid as [->|[->|Hold]].
    + eexists. split; [exact Hnew|now left].
    + eexists. split; [exact Hnew|now right].
    + destruct (Hroot id Hold) as (e & He & Hends). exists e. split; [|exact Hends].
      rewrite Hedges. apply elem_of_app. now left.
  - unfold targetsDrawn. rewrite Hedges. apply Forall_app. split.
    + eapply Forall_impl; [exact Hdrawn|]. intros e. now apply drawn_extends.
    + constructor; [|constructor]. cbn [callEdge Graphviz.edge_to].
      destruct (Graphviz.getNode (Resolve.digraph st) target) eqn:Hknown.
      * destruct (Hroot target Hknown) as (e & He & [Hfrom|Hto]).
        -- apply (drawn_extends _ _ _ Hext). right. now exists e.
        -- apply (drawn_extends _ _ _ Hext). rewrite <- Hto.
           unfold targetsDrawn in Hdrawn. rewrite Forall_forall in Hdrawn.
           now apply Hdrawn.
      * left. pose proof (emitCall_new_node d deps st scope expr c Hknown
                            (Resolve.localContractName c)) as Hin.
        fold target in Hin. fold g' in Hin.
        intros Hnil. rewrite Hnil in Hin.
        apply (elem_of_nil (Resolve.localContractName c)), Hin. now left.
Qed.

Lemma Resolve_visit_drawn
    (H : ParserHelpers) (options : Options) (d : Decls)
    (deps : gmap string (list string)) (g : Graphviz.Digraph)
    (ast : Ast.SourceUnit) (st : Resolve.Scope) :
  enableModifierEdges options = false ->
  rootNodesAreEnds g /\ targetsDrawn g ->
  Resolve.visit H options d deps g ast = Ok st ->
  rootNodesAreEnds (Resolve.digraph st) /\ targetsDrawn (Resolve.digraph st).
Proof.
  intros Hmod.
  apply (visit_graph H options d deps (fun g => rootNodesAreEnds g /\ targetsDrawn g)).
  - intros s node s' Hs Hcall.
    apply FunctionCall_cases in Hcall as [->|(scope & expr & c & _ & ->)]; [exact Hs|].
    now apply emitCall_drawn.
  - intros s name Hs. unfold Resolve.ModifierInvocation. rewrite Hmod.
    now destruct (Resolve.callingScope s).
Qed.

(** ** The first loop *)
Section FirstPass.
Variable P : Platform.
Variable H : ParserHelpers.

Lemma assoc_set_Forall {V : Type} (Q : string * V -> Prop) (k : string) (v : V)
    (l : list (string * V)) :
  Forall Q l -> Q (k, v) -> Forall Q (Graphviz.assoc_set k v l).
Proof.
  intros Hl Hk. induction Hl as [|[k' v'] l Hx Hl IH]; cbn.
  - now constructor.
  - destruct (String.eqb k k'); constructor; assumption.
Qed.

Lemma assoc_Forall {V : Type} (Q : string * V -> Prop) (k : string) (v : V)
    (l : list (string * V)) :
  Forall Q l -> Graphviz.assoc k l = Some v -> Q (k, v).
Proof.
  intros Hl. induction Hl as [|[k' v'] l Hx Hl IH]; cbn; [discriminate|].
  destruct (String.eqb k k') eqn:Hk; [|exact IH].
  apply String.eqb_eq in Hk as ->. now intros [= <-].
Qed.

Lemma declareStateVariable_keeps (d d' : Decls) (v : Ast.VariableDeclaration) :
  Collect.declareStateVariable H d v = Ok d' ->
  digraph d' = digraph d /\ contractNames d' = contractNames d
  /\ fileASTs d' = fileASTs d /\ contractName d' = contractName d.
Proof.
  unfold Collect.declareStateVariable, set_at.
  repeat match goal with
         | |- context [if ?b then _ else _] => destruct b
         | |- context [match ?x with _ => _ end] => destruct x
         end; cbn; intros [= <-]; done.
Qed.

Lemma visitPart_keeps (d d' : Decls) (p : Ast.ContractPart) :
  Collect.visitPart H d p = Ok d' ->
  digraph d' = digraph d /\ contractNames d' = contractNames d
  /\ fileASTs d' = fileASTs d /\ contractName d' = contractName d.
Proof.
  destruct p; cbn [Collect.visitPart].
  - apply (forM_invariant (Collect.declareStateVariable H)
             (fun s => digraph s = digraph d /\ contractNames s = contractNames d
                       /\ fileASTs s = fileASTs d /\ contractName s = contractName d)
             (fun _ => True)); [|apply Forall_True|done].
    intros s x s' _ (E1 & E2 & E3 & E4) Hstep.
    destruct (declareStateVariable_keeps _ _ _ Hstep) as (F1 & F2 & F3 & F4).
    repeat split; congruence.
  - unfold push_at. destruct (functionsPerContract d !! contractName d); cbn;
      intros [= <-]; done.
  - intros [= <-]; done.
  - unfold push_at. destruct (eventsPerContract d !! contractName d); cbn;
      intros [= <-]; done.
  - unfold push_at. destruct (structsPerContract d !! contractName d); cbn;
      intros [= <-]; done.
  - unfold push_at. destruct (functionsPerContract d !! contractName d); cbn;
      intros [= <-]; done.
  - unfold Collect.UsingForDeclaration.
    destruct (contractUsingFor d !! contractName d); intros [= <-]; done.
  - intros [= <-]; done.
Qed.

Lemma visitParts_keeps (d d' : Decls) (ps : list Ast.ContractPart) :
  forM (Collect.visitPart H) ps d = Ok d' ->
  digraph d' = digraph d /\ contractNames d' = contractNames d
  /\ fileASTs d' = fileASTs d /\ contractName d' = contractName d.
Proof.
  apply (forM_invariant (Collect.visitPart H)
           (fun s => digraph s = digraph d /\ contractNames s = contractNames d
                     /\ fileASTs s = fileASTs d /\ contractName s = contractName d)
           (fun _ => True)); [|apply Forall_True|done].
  intros s x s' _ (E1 & E2 & E3 & E4) Hstep.
  destruct (visitPart_keeps _ _ _ Hstep) as (F1 & F2 & F3 & F4).
  repeat split; congruence.
Qed.

Lemma ContractDefinition_firstPass (d : Decls) (c : Ast.ContractDefinition) :
  firstPass d -> firstPass (Collect.ContractDefinition d c).
Proof.
  intros [(Hnodes & Hedges & Hclusters) Hnames].
  unfold firstPass, firstPassGraph, Collect.ContractDefinition.
  cbn [digraph contractNames resetTables].
  destruct (Graphviz.getCluster (digraph d) (Ast.contract_name c)) as [cl|] eqn:Hc.
  - split; [done|]. intros name. rewrite elem_of_app, list_elem_of_singleton, Hnames.
    split; [|tauto]. intros [Hn| ->]; [exact Hn|]. right. now rewrite Hc.
  - split; [split; [|split]|].
    + exact Hnodes.
    + exact Hedges.
    + cbn [Graphviz.addCluster Graphviz.clusters]. now apply assoc_set_Forall.
    + intros name. rewrite elem_of_app, list_elem_of_singleton, Hnames.
      unfold Graphviz.getCluster, Graphviz.addCluster. cbn [Graphviz.clusters].
      destruct (decide (Ast.contract_name c = name)) as [<-|Hne].
      * rewrite assoc_assoc_set_eq. split; [|tauto]. intros _. right. eauto.
      * rewrite assoc_assoc_set_ne by exact Hne. split; [|tauto].
        intros [Hn|Hn]; [exact Hn|congruence].
Qed.

Lemma visitItem_firstPass (d d' : Decls) (item : Ast.SourceItem) :
  firstPass d -> Collect.visitItem H d item = Ok d' -> firstPass d'.
Proof.
  intros Hd. destruct item as [path|c|p]; cbn [Collect.visitItem].
  - now intros [= <-].
  - destruct (forM _ _ _) as [d1|e] eqn:Hparts; cbn [mbind result_bind]; [|discriminate].
    intros [= <-]. apply visitParts_keeps in Hparts as (Hg & Hn & _ & _).
    pose proof (ContractDefinition_firstPass d c Hd) as Hc.
    unfold firstPass in *. cbn [Collect.ContractDefinition_exit digraph contractNames].
    now rewrite Hg, Hn.
  - intros Hp. apply visitPart_keeps in Hp as (Hg & Hn & _ & _).
    unfold firstPass in *. now rewrite Hg, Hn.
Qed.

Lemma collectContent_firstPass (d d' : Decls) (text : string) (ast : Ast.SourceUnit) :
  firstPass d -> Collect.collectContent H d text ast = Ok d' -> firstPass d'.
Proof.
  intros Hd. unfold Collect.collectContent.
  apply (forM_invariant (Collect.visitItem H) firstPass (fun _ => True));
    [|apply Forall_True|exact Hd].
  intros s x s' _. apply visitItem_firstPass.
Qed.

Lemma collectFile_cases (options : Options) (d d' : Decls) (file : string) :
  collectFile P H options d file = Ok d' ->
  d' = d
  \/ exists text ast,
       parse P Ast.WithRange text = Some ast
       /\ Collect.collectContent H d text ast = Ok d'
       /\ (if contentsInFilePath options then text = file
           else fs_readFileSync P file = ReadOk text).
Proof.
  unfold collectFile. destruct (contentsInFilePath options); cbn [negb].
  - destruct (parse P Ast.WithRange file) as [ast|] eqn:Hparse; [|discriminate].
    intros Hc. right. now exists file, ast.
  - destruct (fs_readFileSync P file) as [text| |] eqn:Hread; [| |discriminate].
    + destruct (parse P Ast.WithRange text) as [ast|] eqn:Hparse; [|discriminate].
      intros Hc. right. now exists text, ast.
    + intros [= <-]. now left.
Qed.

Lemma collected_firstPass
    (options : Options) (files : list string) (d : Decls) :
  forM (collectFile P H options) files initialDecls = Ok d -> firstPass d.
Proof.
  apply (forM_invariant (collectFile P H options) firstPass (fun _ => True));
    [|apply Forall_True|].
  - intros s file s' _ Hs Hfile.
    apply collectFile_cases in Hfile as [->|(text & ast & _ & Hc & _)]; [exact Hs|].
    exact (collectContent_firstPass _ _ _ _ Hs Hc).
  - split; [split; [reflexivity|split; [reflexivity|constructor]]|].
    intros name. cbn. rewrite list_elem_of_singleton. split; [tauto|].
    intros [Hn|[cl Hcl]]; [exact Hn|discriminate].
Qed.

End FirstPass.

(** X11. After the first loop the graph holds clusters only: no edge, no
    node, every cluster of the kind of a defined contract; and the names in
    [contractNames] are [0_global] and the names of the clusters. *)
Theorem first_pass_draws_empty_defined_clusters
    (P : Platform) (H : ParserHelpers) (options : Options) (files : list string)
    (d : Decls) :
  forM (collectFile P H options) files initialDecls = Ok d ->
  firstPassGraph (digraph d)
  /\ forall name,
       name ∈ contractNames d
       <-> name = GLOBAL \/ is_Some (Graphviz.getCluster (digraph d) name).
Proof. apply collected_firstPass. Qed.

Lemma first_pass_draws_empty_defined_clusters_witness :
  firstPassGraph (digraph Examples.superCollected)
  /\ forall name,
       name ∈ contractNames Examples.superCollected
       <-> name = GLOBAL
           \/ is_Some (Graphviz.getCluster (digraph Examples.superCollected) name).
Proof.
  apply (first_pass_draws_empty_defined_clusters Examples.superPlatform
           SpecHelpers.helpers Examples.sources ["ABC"] Examples.superCollected).
  vm_compute. reflexivity.
Defined.


Section Declared.
Variable P : Platform.
Variable H : ParserHelpers.

Lemma visitItem_clusters (d d' : Decls) (item : Ast.SourceItem) :
  Collect.visitItem H d item = Ok d' ->
  fileASTs d' = fileASTs d
  /\ (forall name, is_Some (Graphviz.getCluster (digraph d) name) ->
                   is_Some (Graphviz.getCluster (digraph d') name))
  /\ (forall c, item = Ast.ContractItem c ->
                is_Some (Graphviz.getCluster (digraph d') (Ast.contract_name c))).
Proof.
  destruct item as [path|c|p]; cbn [Collect.visitItem].
  - intros [= <-]. done.
  - destruct (forM _ _ _) as [d1|e] eqn:Hparts; cbn [mbind result_bind]; [|discriminate].
    intros [= <-]. apply (visitParts_keeps H) in Hparts as (Hg & _ & Hasts & _).
    cbn [Collect.ContractDefinition_exit digraph fileASTs]. rewrite Hg, Hasts.
    unfold Collect.ContractDefinition. cbn [digraph fileASTs resetTables].
    split; [reflexivity|].
    destruct (Graphviz.getCluster (digraph d) (Ast.contract_name c)) as [cl|] eqn:Hc.
    + split; [auto|]. intros c' [= <-]. rewrite Hc. eauto.
    + split.
      * intros name Hname. unfold Graphviz.getCluster, Graphviz.addCluster.
        cbn [Graphviz.clusters]. rewrite assoc_assoc_set_ne; [exact Hname|].
        intros <-. rewrite Hc in Hname. now destruct Hname.
      * intros c' [= <-]. unfold Graphviz.getCluster, Graphviz.addCluster.
        cbn [Graphviz.clusters]. rewrite assoc_assoc_set_eq. eauto.
  - intros Hp. apply (visitPart_keeps H) in Hp as (Hg & _ & Hasts & _).
    rewrite Hg, Hasts. split; [reflexivity|]. split; [auto|]. discriminate.
Qed.

Lemma visitItems_clusters (items : list Ast.SourceItem) (d d' : Decls) :
  forM (Collect.visitItem H) items d = Ok d' ->
  fileASTs d' = fileASTs d
  /\ (forall name, is_Some (Graphviz.getCluster (digraph d) name) ->
                   is_Some (Graphviz.getCluster (digraph d') name))
  /\ (forall c, Ast.ContractItem c ∈ items ->
                is_Some (Graphviz.getCluster (digraph d') (Ast.contract_name c))).
Proof.
  revert d. induction items as [|item items IH]; intros d.
  - intros [= <-]. split; [reflexivity|]. split; [auto|].
    intros c Hc. now apply elem_of_nil in Hc.
  - change (forM (Collect.visitItem H) (item :: items) d)
      with (s ← Collect.visitItem H d item; forM (Collect.visitItem H) items s).
    destruct (Collect.visitItem H d item) as [d1|e] eqn:Hitem;
      cbn [mbind result_bind]; [|discriminate].
    intros Hrest. destruct (visitItem_clusters _ _ _ Hitem) as (A1 & M1 & C1).
    destruct (IH _ Hrest) as (A2 & M2 & C2).
    split; [congruence|]. split; [auto|].
    intros c Hc. apply elem_of_cons in Hc as [<-|Hc]; [|now apply C2].
    apply M2. now apply C1.
Qed.

Lemma collectContent_declared (d d' : Decls) (text : string) (ast : Ast.SourceUnit) :
  Collect.collectContent H d text ast = Ok d' ->
  fileASTs d' = fileASTs d ++ [ast]
  /\ (forall name, is_Some (Graphviz.getCluster (digraph d) name) ->
                   is_Some (Graphviz.getCluster (digraph d') name))
  /\ (forall c, Ast.ContractItem c ∈ ast ->
                is_Some (Graphviz.getCluster (digraph d') (Ast.contract_name c))).
Proof.
  unfold Collect.collectContent. intros Hitems.
  apply visitItems_clusters in Hitems as (A & M & C). exact (conj A (conj M C)).
Qed.

Lemma collected_contracts_have_clusters (options : Options) (files : list string)
    (d : Decls) :
  forM (collectFile P H options) files initialDecls = Ok d ->
  forall c, declaredIn d c ->
            is_Some (Graphviz.getCluster (digraph d) (Ast.contract_name c)).
Proof.
  apply (forM_invariant (collectFile P H options)
           (fun s => forall c, declaredIn s c ->
                               is_Some (Graphviz.getCluster (digraph s) (Ast.contract_name c)))
           (fun _ => True)); [|apply Forall_True|].
  - intros s file s' _ Hs Hfile.
    apply (collectFile_cases P H) in Hfile as [->|(text & ast & _ & Hc & _)]; [exact Hs|].
    apply collectContent_declared in Hc as (A & M & C).
    intros c (ast' & Hast' & Hin). rewrite A in Hast'.
    apply elem_of_app in Hast' as [Hold|Hnew].
    + apply M, Hs. now exists ast'.
    + apply list_elem_of_singleton in Hnew as ->. now apply C.
  - intros c (ast & Hast & _). now apply elem_of_nil in Hast.
Qed.

Lemma collected_file_is_recorded (options : Options) (files : list string)
    (d : Decls) (file text : string) (ast : Ast.SourceUnit) :
  forM (collectFile P H options) files initialDecls = Ok d ->
  file ∈ files ->
  (if contentsInFilePath options then text = file
   else fs_readFileSync P file = ReadOk text) ->
  parse P Ast.WithRange text = Some ast ->
  ast ∈ fileASTs d.
Proof.
  intros Hrun Hfile Htext Hparse.
  apply list_elem_of_split in Hfile as (pre & post & ->).
  rewrite forM_app in Hrun.
  destruct (forM (collectFile P H options) pre initialDecls) as [d0|e];
    cbn [mbind result_bind] in Hrun; [|discriminate].
  change (forM (collectFile P H options) (file :: post) d0)
    with (s ← collectFile P H options d0 file; forM (collectFile P H options) post s)
    in Hrun.
  destruct (collectFile P H options d0 file) as [d1|e] eqn:Hone;
    cbn [mbind result_bind] in Hrun; [|discriminate].
  assert (ast ∈ fileASTs d1) as Hd1.
  { unfold collectFile in Hone. destruct (contentsInFilePath options); cbn [negb] in Hone.
    - subst text. rewrite Hparse in Hone.
      apply collectContent_declared in Hone as (-> & _). apply elem_of_app. right.
      now apply list_elem_of_singleton.
    - rewrite Htext, Hparse in Hone.
      apply collectContent_declared in Hone as (-> & _). apply elem_of_app. right.
      now apply list_elem_of_singleton. }
  revert Hrun.
  apply (forM_invariant (collectFile P H options) (fun s => ast ∈ fileASTs s)
           (fun _ => True)); [|apply Forall_True|exact Hd1].
  intros s f s' _ Hs Hf.
  apply (collectFile_cases P H) in Hf as [->|(text' & ast' & _ & Hc & _)]; [exact Hs|].
  apply collectContent_declared in Hc as (-> & _). apply elem_of_app. now left.
Qed.

End Declared.

(** ** The linearization of declared contracts *)

Section DeclaredDependencies.
Variable P : Platform.
Variable H : ParserHelpers.

Lemma visitItem_dependencies (d d' : Decls) (item : Ast.SourceItem) :
  Collect.visitItem H d item = Ok d' ->
  dependencies d'
  = match item with
    | Ast.ContractItem c => <[Ast.contract_name c := basesOf c]> (dependencies d)
    | _ => dependencies d
    end.
Proof.
  destruct item as [path|c|p]; cbn [Collect.visitItem].
  - now intros [= <-].
  - destruct (forM _ _ _) as [d1|e] eqn:Hparts; cbn [mbind result_bind]; [|discriminate].
    intros [= <-]. cbn [Collect.ContractDefinition_exit dependencies].
    revert Hparts.
    apply (forM_invariant (Collect.visitPart H)
             (fun s => dependencies s
                       = <[Ast.contract_name c := basesOf c]> (dependencies d))
             (fun _ => True)); [|apply Forall_True|reflexivity].
    intros s x s' _ Hs Hstep. now rewrite (visitPart_dependencies H _ _ _ Hstep).
  - apply visitPart_dependencies.
Qed.

Lemma visitItems_dependencies (items : list Ast.SourceItem) (d d' : Decls) :
  forM (Collect.visitItem H) items d = Ok d' ->
  (forall k parents,
      dependencies d' !! k = Some parents ->
      dependencies d !! k = Some parents
      \/ exists c, Ast.ContractItem c ∈ items
                   /\ Ast.contract_name c = k /\ parents = basesOf c)
  /\ (forall k, is_Some (dependencies d !! k) -> is_Some (dependencies d' !! k))
  /\ (forall c, Ast.ContractItem c ∈ items ->
                is_Some (dependencies d' !! Ast.contract_name c)).
Proof.
  revert d. induction items as [|item items IH]; intros d.
  - intros [= <-]. split; [auto|]. split; [auto|].
    intros c Hc. now apply elem_of_nil in Hc.
  - change (forM (Collect.visitItem H) (item :: items) d)
      with (s ← Collect.visitItem H d item; forM (Collect.visitItem H) items s).
    destruct (Collect.visitItem H d item) as [d1|e] eqn:Hitem;
      cbn [mbind result_bind]; [|discriminate].
    intros Hrest. destruct (IH _ Hrest) as (From & Keep & Declared).
    pose proof (visitItem_dependencies _ _ _ Hitem) as Hd1.
    split; [|split].
    + intros k parents Hk. destruct (From k parents Hk) as [Hold|(c & Hc & Hname & Hp)].
      * rewrite Hd1 in Hold. destruct item as [path|c|p]; [now left| |now left].
        destruct (decide (Ast.contract_name c = k)) as [Heq|Hne].
        -- rewrite <- Heq, lookup_insert_eq in Hold. injection Hold as <-.
           right. exists c. split; [apply list_elem_of_here|done].
        -- rewrite lookup_insert_ne in Hold by exact Hne. now left.
      * right. exists c. split; [now apply list_elem_of_further|done].
    + intros k Hk. apply Keep. rewrite Hd1. destruct item as [path|c|p]; try exact Hk.
      destruct (decide (Ast.contract_name c = k)) as [<-|Hne].
      * rewrite lookup_insert_eq. eauto.
      * now rewrite lookup_insert_ne.
    + intros c Hc. apply elem_of_cons in Hc as [<-|Hc]; [|now apply Declared].
      apply Keep. rewrite Hd1, lookup_insert_eq. eauto.
Qed.

Lemma collectContent_dependencies (d d' : Decls) (text : string) (ast : Ast.SourceUnit) :
  Collect.collectContent H d text ast = Ok d' ->
  (forall k parents,
      dependencies d' !! k = Some parents ->
      dependencies d !! k = Some parents
      \/ exists c, Ast.ContractItem c ∈ ast
                   /\ Ast.contract_name c = k /\ parents = basesOf c)
  /\ (forall k, is_Some (dependencies d !! k) -> is_Some (dependencies d' !! k))
  /\ (forall c, Ast.ContractItem c ∈ ast ->
                is_Some (dependencies d' !! Ast.contract_name c)).
Proof.
  unfold Collect.collectContent. intros Hitems.
  exact (visitItems_dependencies _ _ _ Hitems).
Qed.

(** After the first loop, [dependencies] has an entry for every contract
    declared in a recorded tree, and every entry holds the base names of a
    declaration of its key behind [0_global]. *)
Lemma collected_dependencies_declared (options : Options) (files : list string)
    (d : Decls) :
  forM (collectFile P H options) files initialDecls = Ok d ->
  (forall k parents,
      dependencies d !! k = Some parents ->
      exists c, declaredIn d c /\ Ast.contract_name c = k /\ parents = basesOf c)
  /\ (forall c, declaredIn d c -> is_Some (dependencies d !! Ast.contract_name c)).
Proof.
  apply (forM_invariant (collectFile P H options)
           (fun s =>
              (forall k parents,
                  dependencies s !! k = Some parents ->
                  exists c, declaredIn s c /\ Ast.contract_name c = k
                            /\ parents = basesOf c)
              /\ (forall c, declaredIn s c ->
                            is_Some (dependencies s !! Ast.contract_name c)))
           (fun _ => True)); [|apply Forall_True|].
  - intros s file s' _ [Hfrom Hto] Hfile.
    apply (collectFile_cases P H) in Hfile as [->|(text & ast & _ & Hc & _)]; [done|].
    pose proof (collectContent_declared H _ _ _ _ Hc) as (Hasts & _ & _).
    apply collectContent_dependencies in Hc as (From & Keep & Declared). split.
    + intros k parents Hk. destruct (From k parents Hk) as [Hold|(c & Hin & Hname & Hp)].
      * destruct (Hfrom _ _ Hold) as (c & (ast' & Hast' & Hin) & Hname & Hp).
        exists c. split; [|done]. exists ast'. rewrite Hasts.
        split; [apply elem_of_app; now left|exact Hin].
      * exists c. split; [|done]. exists ast. rewrite Hasts.
        split; [apply elem_of_app; right; now apply list_elem_of_singleton|exact Hin].
    + intros c (ast' & Hast' & Hin). rewrite Hasts in Hast'.
      apply elem_of_app in Hast' as [Hold|Hnew].
      * apply Keep, Hto. now exists ast'.
      * apply list_elem_of_singleton in Hnew as ->. now apply Declared.
  - split.
    + intros k parents Hk. cbn in Hk. now rewrite lookup_empty in Hk.
    + intros c (ast & Hast & _). now apply elem_of_nil in Hast.
Qed.

(** Declarations of [A] and [B] without bases and of [C] with the bases
    [[A, B]], and no other declaration, are collected as [twoBases]. *)
Lemma collected_twoBases (options : Options) (files : list string) (d : Decls)
    (A B C : string) :
  forM (collectFile P H options) files initialDecls = Ok d ->
  A ≠ B -> A ≠ C -> B ≠ C ->
  (forall X, X ∈ [A; B; C] -> exists c, declaredIn d c /\ Ast.contract_name c = X) ->
  (forall c, declaredIn d c ->
             (Ast.contract_name c, map Ast.baseName_namePath (Ast.baseContracts c))
             ∈ [(A, []); (B, []); (C, [A; B])]) ->
  dependencies d = twoBases A B C.
Proof.
  intros Hd HAB HAC HBC Hdeclared Honly.
  destruct (collected_dependencies_declared _ _ _ Hd) as [Hfrom Hto].
  assert (forall k parents,
             dependencies d !! k = Some parents ->
             (k, parents) ∈ [(A, [GLOBAL]); (B, [GLOBAL]); (C, [GLOBAL; A; B])])
    as Hentries.
  { intros k parents Hk. destruct (Hfrom _ _ Hk) as (c & Hc & <- & ->).
    specialize (Honly c Hc). unfold basesOf. revert Honly.
    rewrite !elem_of_cons, !elem_of_nil.
    intros [[= -> ->]|[[= -> ->]|[[= -> ->]|[]]]]; tauto. }
  assert (forall X, X ∈ [A; B; C] -> is_Some (dependencies d !! X)) as Hkeys.
  { intros X HX. destruct (Hdeclared X HX) as (c & Hc & <-). now apply Hto. }
  apply map_eq. intros k. unfold twoBases.
  destruct (dependencies d !! k) as [parents|] eqn:Hk.
  - apply Hentries in Hk. revert Hk. rewrite !elem_of_cons, !elem_of_nil.
    intros [[= -> ->]|[[= -> ->]|[[= -> ->]|[]]]].
    + now rewrite lookup_insert_eq.
    + rewrite lookup_insert_ne by exact HAB. now rewrite lookup_insert_eq.
    + rewrite lookup_insert_ne by exact HAC. rewrite lookup_insert_ne by exact HBC.
      now rewrite lookup_singleton_eq.
  - symmetry.
    assert (k ∉ [A; B; C]) as Hnot.
    { intros Hin. apply Hkeys in Hin as [parents Hin]. congruence. }
    rewrite !not_elem_of_cons in Hnot. destruct Hnot as (HkA & HkB & HkC & _).
    rewrite !lookup_insert_ne by congruence. now rewrite lookup_singleton_ne by congruence.
Qed.

End DeclaredDependencies.

(** C4. For every contract declared in the sources analysed, the map the
    linearizer returns has an entry, which starts with the contract itself
    and ends with the pseudo-root [0_global]; and when the sources declare
    [A] and [B] without bases, [C] with the direct bases [[A, B]] and
    nothing else, [linearize] succeeds, the order of [C] is
    [C, B, A, 0_global], in which [A] and [B] come before the pseudo-root
    and which contains the linearizations of [A] and of [B] in their own
    order. *)
Theorem linearization_starts_with_contract_ends_with_global :
  (forall (P : Platform) (H : ParserHelpers) (options : Options)
          (files : list string) (d : Decls)
          (lin : gmap string (list string)) (c : Ast.ContractDefinition),
      wf_parser P ->
      forM (collectFile P H options) files initialDecls = Ok d ->
      C3.linearize (dependencies d) = Ok lin ->
      declaredIn d c ->
      exists order,
        lin !! Ast.contract_name c = Some order
        /\ head order = Some (Ast.contract_name c) /\ last order = Some GLOBAL)
  /\ (forall (P : Platform) (H : ParserHelpers) (options : Options)
             (files : list string) (d : Decls) (A B C : string),
         wf_parser P ->
         forM (collectFile P H options) files initialDecls = Ok d ->
         A ≠ B -> A ≠ C -> B ≠ C ->
         (forall X, X ∈ [A; B; C] ->
                    exists c, declaredIn d c /\ Ast.contract_name c = X) ->
         (forall c, declaredIn d c ->
                    (Ast.contract_name c,
                     map Ast.baseName_namePath (Ast.baseContracts c))
                    ∈ [(A, []); (B, []); (C, [A; B])]) ->
         exists lin orderA orderB orderC,
           C3.linearize (dependencies d) = Ok lin
           /\ lin !! A = Some orderA /\ lin !! B = Some orderB
           /\ lin !! C = Some orderC
           /\ orderC = [C; B; A; GLOBAL]
           /\ sublist orderA orderC /\ sublist orderB orderC).
Proof.
  split.
  - intros P H options files d lin c Hparser Hcollect Hlin Hc.
    destruct (collected_dependencies_declared P H _ _ _ Hcollect) as [_ Hto].
    destruct (Hto c Hc) as [parents Hparents].
    destruct (linearize_entry _ _ _ _ Hlin Hparents) as [order Horder].
    exists order. split; [exact Horder|].
    apply (linearize_declared (dependencies d) lin); [|exact Hlin|exact Horder].
    exact (collected_dependencies_wf P H options files d Hparser Hcollect).
  - intros P H options files d A B C Hparser Hcollect HAB HAC HBC Hdeclared Honly.
    pose proof (collected_dependencies_wf P H options files d Hparser Hcollect) as Hwf.
    pose proof (collected_twoBases P H _ _ _ A B C Hcollect HAB HAC HBC Hdeclared Honly)
      as Hdeps.
    rewrite Hdeps in Hwf |- *.
    destruct (Hwf A _ (twoBases_A A B C)) as [HA _].
    destruct (Hwf B _ (twoBases_B A B C HAB)) as [HB _].
    destruct (Hwf C _ (twoBases_C A B C HAC HBC)) as [HC _].
    destruct (linearize_twoBases A B C HAB HAC HBC HA HB HC)
      as (lin & Hlin & HlA & HlB & HlC).
    exists lin, [A; GLOBAL], [B; GLOBAL], [C; B; A; GLOBAL].
    repeat split; try assumption.
    + apply sublist_cons, sublist_cons, sublist_skip, sublist_skip, sublist_nil.
    + apply sublist_cons, sublist_skip, sublist_cons, sublist_skip, sublist_nil.
Qed.

Lemma twoBasesPlatform_wf : wf_parser Examples.twoBasesPlatform.
Proof.
  intros options text ast. cbn. destruct (String.eqb text "ABC"); [|discriminate].
  intros [= <-]. repeat constructor; try discriminate; cbn;
    rewrite ?elem_of_cons, ?elem_of_nil; intuition discriminate.
Qed.

Lemma twoBasesCollected_declared (c : Ast.ContractDefinition) :
  declaredIn Examples.twoBasesCollected c
  <-> Ast.ContractItem c ∈ Examples.twoBasesUnit.
Proof.
  unfold declaredIn.
  change (fileASTs Examples.twoBasesCollected) with [Examples.twoBasesUnit].
  split.
  - intros (ast & Hast & Hc). now apply list_elem_of_singleton in Hast as ->.
  - intros Hc. exists Examples.twoBasesUnit. split; [apply list_elem_of_here|exact Hc].
Qed.

Lemma linearization_starts_with_contract_ends_with_global_witness :
  (exists order,
      Examples.twoBasesLinearized !! "C" = Some order
      /\ head order = Some "C" /\ last order = Some GLOBAL)
  /\ exists lin orderA orderB orderC,
       C3.linearize (dependencies Examples.twoBasesCollected) = Ok lin
       /\ lin !! "A" = Some orderA /\ lin !! "B" = Some orderB
       /\ lin !! "C" = Some orderC
       /\ orderC = ["C"; "B"; "A"; GLOBAL]
       /\ sublist orderA orderC /\ sublist orderB orderC.
Proof.
  split.
  - apply (proj1 linearization_starts_with_contract_ends_with_global
             Examples.twoBasesPlatform SpecHelpers.helpers Examples.sources ["ABC"]
             Examples.twoBasesCollected Examples.twoBasesLinearized
             {| Ast.contract_name := "C"; Ast.contract_kind := "contract";
                Ast.baseContracts :=
                  [ {| Ast.baseName_namePath := "A"; Ast.base_arguments := [] |};
                    {| Ast.baseName_namePath := "B"; Ast.base_arguments := [] |} ];
                Ast.subNodes := [] |}).
    + exact twoBasesPlatform_wf.
    + vm_compute. reflexivity.
    + vm_compute. reflexivity.
    + apply twoBasesCollected_declared. do 2 apply list_elem_of_further.
      apply list_elem_of_here.
  - apply (proj2 linearization_starts_with_contract_ends_with_global
             Examples.twoBasesPlatform SpecHelpers.helpers Examples.sources ["ABC"]
             Examples.twoBasesCollected "A" "B" "C").
    + exact twoBasesPlatform_wf.
    + vm_compute. reflexivity.
    + discriminate.
    + discriminate.
    + discriminate.
    + intros X HX. rewrite !elem_of_cons, elem_of_nil in HX.
      destruct HX as [->|[->|[->|[]]]]; eexists;
        (split; [apply twoBasesCollected_declared;
                 unfold Examples.twoBasesUnit, Examples.contract; cbn [map]|]).
      * apply list_elem_of_here.
      * reflexivity.
      * apply list_elem_of_further, list_elem_of_here.
      * reflexivity.
      * do 2 apply list_elem_of_further. apply list_elem_of_here.
      * reflexivity.
    + intros c Hc. apply twoBasesCollected_declared in Hc.
      unfold Examples.twoBasesUnit, Examples.contract in Hc. cbn [map] in Hc.
      rewrite !elem_of_cons, elem_of_nil in Hc.
      destruct Hc as [[= ->]|[[= ->]|[[= ->]|[]]]]; cbn;
        rewrite !elem_of_cons; tauto.
Defined.

(** ** Node registration *)
Section Registration.
Variable deps : gmap string (list string).

Lemma keepsEdges_refl g : keepsEdges g g.
Proof. split; [apply extends_refl|reflexivity]. Qed.

Lemma keepsEdges_trans g1 g2 g3 : keepsEdges g1 g2 -> keepsEdges g2 g3 -> keepsEdges g1 g3.
Proof. intros [E1 F1] [E2 F2]. split; [eapply extends_trans; eassumption|congruence]. Qed.

Lemma Register_visitPart_keepsEdges (st st' : Register.State) (p : Ast.ContractPart) :
  Register.visitPart deps st p = Ok st' ->
  keepsEdges (Register.digraph st) (Register.digraph st').
Proof.
  destruct p; cbn [Register.visitPart]; try (intros [= <-]; apply keepsEdges_refl).
  - intros [= <-]. unfold Register.FunctionDefinition.
    destruct (Register.cluster st); [|apply keepsEdges_refl].
    cbn [Register.digraph]. split; [apply extends_addNode|apply addNode_edges].
  - unfold Register.ModifierDefinition. destruct (Register.cluster st); [|discriminate].
    intros [= <-]. cbn [Register.digraph]. split; [apply extends_addNode|apply addNode_edges].
Qed.

Lemma Register_visitItem_keepsEdges (st st' : Register.State) (item : Ast.SourceItem) :
  Register.visitItem deps st item = Ok st' ->
  keepsEdges (Register.digraph st) (Register.digraph st').
Proof.
  destruct item as [path|c|p]; cbn [Register.visitItem].
  - intros [= <-]. apply keepsEdges_refl.
  - destruct (forM _ _ _) as [st1|e] eqn:Hparts; cbn [mbind result_bind]; [|discriminate].
    intros [= <-]. cbn [Register.ContractDefinition_exit Register.digraph].
    revert Hparts.
    apply (forM_invariant (Register.visitPart deps)
             (fun s => keepsEdges (Register.digraph st) (Register.digraph s))
             (fun _ => True)); [|apply Forall_True|apply keepsEdges_refl].
    intros s p s' _ Hs Hp. eapply keepsEdges_trans; [exact Hs|].
    exact (Register_visitPart_keepsEdges _ _ _ Hp).
  - apply Register_visitPart_keepsEdges.
Qed.

Lemma Register_visit_keepsEdges (g : Graphviz.Digraph) (ast : Ast.SourceUnit)
    (st : Register.State) :
  Register.visit deps g ast = Ok st ->
  extends g (Register.digraph st)
  /\ Graphviz.edges (Register.digraph st) = Graphviz.edges g.
Proof.
  unfold Register.visit.
  apply (forM_invariant (Register.visitItem deps)
           (fun s => keepsEdges g (Register.digraph s)) (fun _ => True));
    [|apply Forall_True|apply keepsEdges_refl].
  intros s item s' _ Hs Hitem. eapply keepsEdges_trans; [exact Hs|].
  exact (Register_visitItem_keepsEdges _ _ _ Hitem).
Qed.

Lemma Register_visitPart_nodes (st st' : Register.State) (p : Ast.ContractPart) :
  Register.visitPart deps st p = Ok st' ->
  Graphviz.nodes (Register.digraph st') = Graphviz.nodes (Register.digraph st).
Proof.
  destruct p; cbn [Register.visitPart]; try (now intros [= <-]).
  - intros [= <-]. apply registration_keeps_root_table.
  - unfold Register.ModifierDefinition. destruct (Register.cluster st); [|discriminate].
    intros [= <-]. cbn [Register.digraph]. apply nodes_addNode.
Qed.

Lemma Register_visitItem_nodes (st st' : Register.State) (item : Ast.SourceItem) :
  Register.visitItem deps st item = Ok st' ->
  Graphviz.nodes (Register.digraph st') = Graphviz.nodes (Register.digraph st).
Proof.
  destruct item as [path|c|p]; cbn [Register.visitItem].
  - now intros [= <-].
  - destruct (forM _ _ _) as [st1|e] eqn:Hparts; cbn [mbind result_bind]; [|discriminate].
    intros [= <-]. cbn [Register.ContractDefinition_exit Register.digraph].
    revert Hparts.
    apply (forM_invariant (Register.visitPart deps)
             (fun s => Graphviz.nodes (Register.digraph s)
                       = Graphviz.nodes (Register.digraph st))
             (fun _ => True)); [|apply Forall_True|reflexivity].
    intros s p s' _ Hs Hp. now rewrite (Register_visitPart_nodes _ _ _ Hp).
  - apply Register_visitPart_nodes.
Qed.

(** Node registration leaves the table of the root graph as it is. *)
Lemma Register_visit_nodes (g : Graphviz.Digraph) (ast : Ast.SourceUnit)
    (st : Register.State) :
  Register.visit deps g ast = Ok st ->
  Graphviz.nodes (Register.digraph st) = Graphviz.nodes g.
Proof.
  unfold Register.visit.
  apply (forM_invariant (Register.visitItem deps)
           (fun s => Graphviz.nodes (Register.digraph s) = Graphviz.nodes g)
           (fun _ => True)); [|apply Forall_True|reflexivity].
  intros s item s' _ Hs Hitem. now rewrite (Register_visitItem_nodes _ _ _ Hitem).
Qed.

End Registration.

(** X12. Node registration only adds nodes: the edges are the same before
    and after, every node and cluster found is still there, and each
    cluster keeps its label and its kind. *)
Theorem registration_only_adds_nodes
    (deps : gmap string (list string)) (g : Graphviz.Digraph) (ast : Ast.SourceUnit)
    (st : Register.State) :
  Register.visit deps g ast = Ok st ->
  extends g (Register.digraph st)
  /\ Graphviz.edges (Register.digraph st) = Graphviz.edges g.
Proof. apply Register_visit_keepsEdges. Qed.

Lemma registration_only_adds_nodes_witness :
  exists st,
    Register.visit Examples.inheritedDeps (Examples.graphOf [("B", []); ("C", [])])
      Examples.inherited = Ok st
    /\ extends (Examples.graphOf [("B", []); ("C", [])]) (Register.digraph st)
    /\ Graphviz.edges (Register.digraph st)
       = Graphviz.edges (Examples.graphOf [("B", []); ("C", [])]).
Proof.
  eexists. split; [reflexivity|].
  apply (registration_only_adds_nodes Examples.inheritedDeps
           (Examples.graphOf [("B", []); ("C", [])]) Examples.inherited).
  reflexivity.
Defined.


Section WholeGraph.
Variable P : Platform.
Variable H : ParserHelpers.

Lemma graph_passes (fuel : nat) (files : list string) (options : Options)
    (g : Graphviz.Digraph) :
  graph P H fuel files options = Ok g ->
  exists analysed d deps,
    (if negb (contentsInFilePath options) && importer options
     then Importer.importProfiler P fuel files (cwd P) []
     else Ok (Js.set_of_list files)) = Ok analysed
    /\ forM (collectFile P H options) analysed initialDecls = Ok d
    /\ C3.linearize (dependencies d) = Ok deps
    /\ forM (resolveFile H options d deps) (fileASTs d) (digraph d) = Ok g.
Proof.
  unfold graph. destruct files as [|file files]; [discriminate|].
  destruct (if negb (contentsInFilePath options) && importer options then _ else _)
    as [analysed|e]; cbn [mbind result_bind]; [|discriminate].
  destruct (forM (collectFile P H options) analysed initialDecls) as [d|e] eqn:Hd;
    cbn [mbind result_bind]; [|discriminate].
  destruct (C3.linearize (dependencies d)) as [deps|e] eqn:Hdeps;
    cbn [mbind result_bind]; [|discriminate].
  intros Hg. now exists analysed, d, deps.
Qed.

Lemma resolveFile_extends (options : Options) (d : Decls)
    (deps : gmap string (list string)) (g g' : Graphviz.Digraph) (ast : Ast.SourceUnit) :
  resolveFile H options d deps g ast = Ok g' ->
  extends g g'
  /\ (enableModifierEdges options = false -> targetsExist g -> targetsExist g').
Proof.
  unfold resolveFile.
  destruct (Register.visit deps g ast) as [registered|e] eqn:Hreg;
    cbn [mbind result_bind]; [|discriminate].
  destruct (Resolve.visit H options d deps _ ast) as [resolved|e] eqn:Hres;
    cbn [mbind result_bind]; [|discriminate].
  intros [= <-]. apply Register_visit_keepsEdges in Hreg as [Hext Hedges]. split.
  - eapply extends_trans; [exact Hext|]. exact (Resolve_visit_extends _ _ _ _ _ _ _ Hres).
  - intros Hmod Hg. apply (Resolve_visit_targets _ _ _ _ _ _ _ Hmod) in Hres; [exact Hres|].
    apply (targetsExist_extends g _ [] Hext); [now rewrite app_nil_r|constructor|exact Hg].
Qed.

Lemma resolveFiles_extends (options : Options) (d : Decls)
    (deps : gmap string (list string)) (asts : list Ast.SourceUnit)
    (g g' : Graphviz.Digraph) :
  forM (resolveFile H options d deps) asts g = Ok g' ->
  extends g g'
  /\ (enableModifierEdges options = false -> targetsExist g -> targetsExist g').
Proof.
  apply (forM_invariant (resolveFile H options d deps)
           (fun s => extends g s
                     /\ (enableModifierEdges options = false -> targetsExist g ->
                         targetsExist s)) (fun _ => True));
    [|apply Forall_True|split; [apply extends_refl|auto]].
  intros s ast s' _ [Hext Htargets] Hstep.
  apply resolveFile_extends in Hstep as [Hext' Htargets']. split.
  - eapply extends_trans; eassumption.
  - auto.
Qed.

Lemma resolveFile_drawn (options : Options) (d : Decls)
    (deps : gmap string (list string)) (g g' : Graphviz.Digraph) (ast : Ast.SourceUnit) :
  enableModifierEdges options = false ->
  rootNodesAreEnds g /\ targetsDrawn g ->
  resolveFile H options d deps g ast = Ok g' ->
  rootNodesAreEnds g' /\ targetsDrawn g'.
Proof.
  intros Hmod [Hroot Hdrawn]. unfold resolveFile.
  destruct (Register.visit deps g ast) as [registered|e] eqn:Hreg;
    cbn [mbind result_bind]; [|discriminate].
  destruct (Resolve.visit H options d deps _ ast) as [resolved|e] eqn:Hres;
    cbn [mbind result_bind]; [|discriminate].
  intros [= <-].
  pose proof (Register_visit_nodes _ _ _ _ Hreg) as Hnodes.
  apply Register_visit_keepsEdges in Hreg as [Hext Hedges].
  apply (Resolve_visit_drawn _ _ _ _ _ _ _ Hmod) in Hres; [exact Hres|]. split.
  - intros id Hid. rewrite Hedges. apply Hroot.
    unfold Graphviz.getNode in *. now rewrite <- Hnodes.
  - unfold targetsDrawn. rewrite Hedges.
    eapply Forall_impl; [exact Hdrawn|]. intros e. now apply drawn_extends.
Qed.

Lemma resolveFiles_drawn (options : Options) (d : Decls)
    (deps : gmap string (list string)) (asts : list Ast.SourceUnit)
    (g g' : Graphviz.Digraph) :
  enableModifierEdges options = false ->
  rootNodesAreEnds g /\ targetsDrawn g ->
  forM (resolveFile H options d deps) asts g = Ok g' ->
  rootNodesAreEnds g' /\ targetsDrawn g'.
Proof.
  intros Hmod.
  apply (forM_invariant (resolveFile H options d deps)
           (fun s => rootNodesAreEnds s /\ targetsDrawn s) (fun _ => True));
    [|apply Forall_True].
  intros s ast s' _ Hs Hstep. exact (resolveFile_drawn _ _ _ _ _ _ Hmod Hs Hstep).
Qed.

Lemma set_of_list_elem (xs : list string) (x : string) :
  x ∈ Js.set_of_list xs <-> x ∈ xs.
Proof.
  unfold Js.set_of_list.
  assert (forall acc, x ∈ fold_left (fun acc x => Js.set_add x acc) xs acc
                      <-> x ∈ acc \/ x ∈ xs) as Hgen.
  { induction xs as [|y ys IH]; intros acc; cbn [fold_left].
    - rewrite elem_of_nil. tauto.
    - rewrite IH, elem_of_cons. unfold Js.set_add, Js.set_has.
      case_bool_decide as Hy.
      + split; [tauto|]. intros [Hx|[->|Hx]]; tauto.
      + rewrite elem_of_app, list_elem_of_singleton. tauto. }
  rewrite Hgen, elem_of_nil. tauto.
Qed.

End WholeGraph.

(** X13. With modifier edges off, every edge of the graph [graph] returns
    ends at a node of the graph. Its name is in the table of the root
    graph, where [addEdge] enters both ends of an edge; and the graph draws
    it: the call handler looks the callee's node up, and adds it to the
    cluster of the callee's contract when the root graph has none, before
    it adds the edge, so the name is in a cluster unless it got into the
    table as the start of an edge. *)
Theorem graph_call_edges_end_at_nodes
    (P : Platform) (H : ParserHelpers) (fuel : nat) (files : list string)
    (options : Options) (g : Graphviz.Digraph) :
  enableModifierEdges options = false ->
  graph P H fuel files options = Ok g ->
  targetsExist g /\ targetsDrawn g.
Proof.
  intros Hmod Hg. apply graph_passes in Hg as (analysed & d & deps & _ & Hd & _ & Hg).
  apply collected_firstPass in Hd as [(Hnodes & Hedges & _) _]. split.
  - apply resolveFiles_extends in Hg as [_ Htargets]. apply Htargets; [exact Hmod|].
    unfold targetsExist. rewrite Hedges. constructor.
  - apply (resolveFiles_drawn H options d deps (fileASTs d) (digraph d) g Hmod) in Hg;
      [apply Hg|]. split.
    + intros id. unfold Graphviz.getNode. rewrite Hnodes.
      rewrite bool_decide_eq_false_2 by apply not_elem_of_nil. discriminate.
    + unfold targetsDrawn. rewrite Hedges. constructor.
Qed.

Lemma graph_call_edges_end_at_nodes_witness :
  Examples.edgesOf (Ok Examples.inheritedRun) = [("C.bar", "C.foo")]
  /\ targetsExist Examples.inheritedRun /\ targetsDrawn Examples.inheritedRun.
Proof.
  split; [reflexivity|].
  apply (graph_call_edges_end_at_nodes
           (Posix.platform [] (Examples.parser [("T", Examples.inherited)]) "/")
           SpecHelpers.helpers 0 ["T"] Examples.sources);
    [reflexivity|vm_compute; reflexivity].
Defined.

(** X14. A contract declared in an analysed file has, in the graph [graph]
    returns, a cluster of the kind of a defined contract: the clusters of
    the first loop are never replaced by the ones the call handler makes for
    unknown contracts. *)
Theorem declared_contract_keeps_defined_cluster
    (P : Platform) (H : ParserHelpers) (fuel : nat) (files : list string)
    (options : Options) (g : Graphviz.Digraph) (file text : string)
    (ast : Ast.SourceUnit) (c : Ast.ContractDefinition) :
  graph P H fuel files options = Ok g ->
  negb (contentsInFilePath options) && importer options = false ->
  file ∈ files ->
  (if contentsInFilePath options then text = file
   else fs_readFileSync P file = ReadOk text) ->
  parse P Ast.WithRange text = Some ast ->
  Ast.ContractItem c ∈ ast ->
  exists cl,
    Graphviz.getCluster g (Ast.contract_name c) = Some cl
    /\ Graphviz.cluster_kind cl = Graphviz.DefinedContract.
Proof.
  intros Hg Hmode Hfile Htext Hparse Hc.
  apply graph_passes in Hg as (analysed & d & deps & Hanalysed & Hd & _ & Hg).
  rewrite Hmode in Hanalysed. injection Hanalysed as <-.
  apply set_of_list_elem in Hfile.
  pose proof (collected_file_is_recorded P H _ _ _ _ _ _ Hd Hfile Htext Hparse) as Hast.
  destruct (collected_contracts_have_clusters P H _ _ _ Hd c) as [cl Hcl];
    [now exists ast|].
  apply collected_firstPass in Hd as [(_ & _ & Hclusters) _].
  apply (assoc_Forall _ _ _ _ Hclusters) in Hcl as Hkind. cbn in Hkind.
  apply resolveFiles_extends in Hg as [(_ & _ & _ & Hkeep) _].
  destruct (Hkeep _ _ Hcl) as (cl' & Hcl' & _ & Hkind').
  exists cl'. split; [exact Hcl'|]. rewrite Hkind'. apply Hkind.
Qed.

Lemma declared_contract_keeps_defined_cluster_witness :
  exists cl,
    Graphviz.getCluster Examples.inheritedRun "C" = Some cl
    /\ Graphviz.cluster_kind cl = Graphviz.DefinedContract.
Proof.
  apply (declared_contract_keeps_defined_cluster
           (Posix.platform [] (Examples.parser [("T", Examples.inherited)]) "/")
           SpecHelpers.helpers 0 ["T"] Examples.sources _ "T" "T" Examples.inherited
           {| Ast.contract_name := "C"; Ast.contract_kind := "contract";
              Ast.baseContracts :=
                [{| Ast.baseName_namePath := "B"; Ast.base_arguments := [] |}];
              Ast.subNodes :=
                [Examples.fn "bar" [Ast.ExpressionNode (Examples.plainCall "foo")]] |}).
  - vm_compute. reflexivity.
  - reflexivity.
  - apply elem_of_cons. now left.
  - reflexivity.
  - reflexivity.
  - apply elem_of_cons. right. apply elem_of_cons. now left.
Defined.

(** ** The whole run *)

Lemma forM_ext {S X : Type} (body body' : S -> X -> result S) (xs : list X) (st : S) :
  (forall s x, body s x = body' s x) -> forM body xs st = forM body' xs st.
Proof.
  intros Hext. revert st. induction xs as [|x xs IH]; intros st; [reflexivity|].
  change (forM body (x :: xs) st) with (s ← body st x; forM body xs s).
  change (forM body' (x :: xs) st) with (s ← body' st x; forM body' xs s).
  rewrite Hext. destruct (body' st x); cbn [mbind result_bind]; [apply IH|reflexivity].
Qed.

(** X15. When the entries of [files] are the source texts themselves, the
    file system is never consulted: [graph] returns the same on any two
    platforms whose parsers agree. *)
Theorem contents_mode_ignores_file_system
    (P P' : Platform) (H : ParserHelpers) (fuel fuel' : nat) (files : list string)
    (options : Options) :
  contentsInFilePath options = true ->
  (forall text, parse P Ast.WithRange text = parse P' Ast.WithRange text) ->
  graph P H fuel files options = graph P' H fuel' files options.
Proof.
  intros Hmode Hparse. unfold graph. rewrite Hmode. cbn [negb andb].
  destruct files as [|file files]; [reflexivity|]. cbn [mbind result_bind].
  rewrite (forM_ext (collectFile P H options) (collectFile P' H options)); [reflexivity|].
  intros d text. unfold collectFile. rewrite Hmode. cbn [negb]. now rewrite Hparse.
Qed.

Lemma contents_mode_ignores_file_system_witness :
  graph (Posix.platform [] (Examples.parser [("T", Examples.inherited)]) "/")
    SpecHelpers.helpers 0 ["T"] Examples.sources
  = graph (Posix.platform
        [("/p", Posix.Directory [])] (Examples.parser [("T", Examples.inherited)]) "/p")
    SpecHelpers.helpers 7 ["T"] Examples.sources.
Proof.
  apply contents_mode_ignores_file_system; reflexivity.
Defined.

(** X16. When every entry of [files] is a directory (and the importer is
    off), each one is skipped and [graph] returns the empty graph rather
    than an error. *)
Theorem directories_only_give_empty_graph
    (P : Platform) (H : ParserHelpers) (fuel : nat) (files : list string)
    (options : Options) :
  files ≠ [] ->
  contentsInFilePath options = false ->
  importer options = false ->
  (forall file, file ∈ files -> fs_readFileSync P file = ReadEISDIR) ->
  graph P H fuel files options = Ok Graphviz.empty.
Proof.
  intros Hfiles Hmode Himporter Hdirs. unfold graph. rewrite Hmode, Himporter.
  destruct files as [|file files]; [done|]. cbn [negb andb mbind result_bind].
  assert (forall xs, (forall x, x ∈ xs -> fs_readFileSync P x = ReadEISDIR) ->
                     forM (collectFile P H options) xs initialDecls = Ok initialDecls)
    as Hskip.
  { induction xs as [|x xs IH]; intros Hxs; [reflexivity|].
    rewrite (collectFile_skips_directory P H options initialDecls x xs Hmode).
    - apply IH. intros y Hy. apply Hxs, elem_of_cons. now right.
    - apply Hxs, elem_of_cons. now left. }
  rewrite Hskip; [reflexivity|].
  intros x Hx. apply Hdirs. exact (proj1 (set_of_list_elem _ _) Hx).
Qed.

Lemma directories_only_give_empty_graph_witness :
  graph Examples.withDirectory SpecHelpers.helpers 0 ["/p/d.sol"; "/p"] Examples.files
  = Ok Graphviz.empty.
Proof.
  apply directories_only_give_empty_graph; [discriminate|reflexivity|reflexivity|].
  intros file Hfile.
  repeat (apply elem_of_cons in Hfile as [-> | Hfile]; [reflexivity|]).
  now apply elem_of_nil in Hfile.
Defined.

Lemma set_of_list_snoc (xs : list string) (x : string) :
  x ∈ xs -> Js.set_of_list (xs ++ [x]) = Js.set_of_list xs.
Proof.
  intros Hx. unfold Js.set_of_list. rewrite fold_left_app. cbn [fold_left].
  fold (Js.set_of_list xs). unfold Js.set_add, Js.set_has.
  rewrite bool_decide_eq_true_2; [reflexivity|]. now apply set_of_list_elem.
Qed.

(** X17. Without the importer, an entry of [files] that is listed again
    changes nothing: the list is made unique before the first loop. *)
Theorem repeated_input_is_analysed_once
    (P : Platform) (H : ParserHelpers) (fuel : nat) (files : list string)
    (file : string) (options : Options) :
  negb (contentsInFilePath options) && importer options = false ->
  file ∈ files ->
  graph P H fuel (files ++ [file]) options = graph P H fuel files options.
Proof.
  intros Hmode Hfile. unfold graph. rewrite Hmode.
  rewrite (set_of_list_snoc files file Hfile).
  destruct files as [|f files]; [now apply elem_of_nil in Hfile|]. reflexivity.
Qed.

Lemma repeated_input_is_analysed_once_witness :
  graph Examples.superPlatform SpecHelpers.helpers 0 (["ABC"] ++ ["ABC"]) Examples.sources
  = graph Examples.superPlatform SpecHelpers.helpers 0 ["ABC"] Examples.sources.
Proof.
  apply (repeated_input_is_analysed_once Examples.superPlatform SpecHelpers.helpers 0
           ["ABC"] "ABC" Examples.sources).
  - reflexivity.
  - apply elem_of_cons. now left.
Defined.

(** ** The tables of a contract *)
Section Tables.
Variable H : ParserHelpers.

Lemma declareStateVariable_functions (d d' : Decls) (v : Ast.VariableDeclaration) :
  Collect.declareStateVariable H d v = Ok d' ->
  functionsPerContract d' = functionsPerContract d /\ contractName d' = contractName d.
Proof.
  unfold Collect.declareStateVariable, set_at.
  repeat match goal with
         | |- context [if ?b then _ else _] => destruct b
         | |- context [match ?x with _ => _ end] => destruct x
         end; cbn; intros [= <-]; done.
Qed.

Lemma visitPart_functions (d d' : Decls) (p : Ast.ContractPart) (acc : list Js.val) :
  functionsPerContract d !! contractName d = Some acc ->
  Collect.visitPart H d p = Ok d' ->
  contractName d' = contractName d
  /\ functionsPerContract d' !! contractName d = Some (acc ++ callables [p]).
Proof.
  intros Hacc. destruct p; cbn [Collect.visitPart callables flat_map];
    rewrite ?app_nil_r.
  - apply (forM_invariant (Collect.declareStateVariable H)
             (fun s => contractName s = contractName d
                       /\ functionsPerContract s !! contractName d = Some acc)
             (fun _ => True)); [|apply Forall_True|done].
    intros s x s' _ [E1 E2] Hstep.
    destruct (declareStateVariable_functions _ _ _ Hstep) as [F1 F2].
    split; congruence.
  - unfold push_at. rewrite Hacc. cbn. intros [= <-]. cbn.
    now rewrite lookup_insert_eq.
  - now intros [= <-].
  - unfold push_at. destruct (eventsPerContract d !! contractName d); cbn;
      intros [= <-]; done.
  - unfold push_at. destruct (structsPerContract d !! contractName d); cbn;
      intros [= <-]; done.
  - unfold push_at. rewrite Hacc. cbn. intros [= <-]. cbn.
    now rewrite lookup_insert_eq.
  - unfold Collect.UsingForDeclaration.
    destruct (contractUsingFor d !! contractName d); intros [= <-]; done.
  - now intros [= <-].
Qed.

Lemma visitParts_functions (parts : list Ast.ContractPart) (d d' : Decls)
    (acc : list Js.val) :
  functionsPerContract d !! contractName d = Some acc ->
  forM (Collect.visitPart H) parts d = Ok d' ->
  contractName d' = contractName d
  /\ functionsPerContract d' !! contractName d = Some (acc ++ callables parts).
Proof.
  revert d acc. induction parts as [|p parts IH]; intros d acc Hacc.
  - intros [= <-]. now rewrite app_nil_r.
  - change (forM (Collect.visitPart H) (p :: parts) d)
      with (s ← Collect.visitPart H d p; forM (Collect.visitPart H) parts s).
    destruct (Collect.visitPart H d p) as [d1|e] eqn:Hp;
      cbn [mbind result_bind]; [|discriminate].
    intros Hrest. destruct (visitPart_functions _ _ _ _ Hacc Hp) as [N1 F1].
    rewrite <- N1 in F1. destruct (IH _ _ F1 Hrest) as [N2 F2].
    split; [congruence|]. rewrite N1 in F2. rewrite F2.
    assert (callables (p :: parts) = callables [p] ++ callables parts) as ->.
    { unfold callables. cbn [flat_map]. now rewrite app_nil_r. }
    now rewrite app_assoc.
Qed.

(** X18. After the first visitor has walked a contract, the entry of
    [functionsPerContract] for its name holds the names of its functions and
    custom errors, in source order, and nothing else: what an earlier
    declaration of the same name had recorded is gone; [dependencies] holds
    its base names behind [0_global]. *)
Theorem contract_tables_hold_its_latest_declaration
    (d d' : Decls) (c : Ast.ContractDefinition) :
  Collect.visitItem H d (Ast.ContractItem c) = Ok d' ->
  functionsPerContract d' !! Ast.contract_name c = Some (callables (Ast.subNodes c))
  /\ dependencies d' !! Ast.contract_name c
     = Some (GLOBAL :: map Ast.baseName_namePath (Ast.baseContracts c)).
Proof.
  cbn [Collect.visitItem].
  destruct (forM _ _ _) as [d1|e] eqn:Hparts; cbn [mbind result_bind]; [|discriminate].
  intros [= <-]. cbn [Collect.ContractDefinition_exit functionsPerContract dependencies].
  split.
  - apply (visitParts_functions _ _ _ []) in Hparts as [_ Hf]; [exact Hf|].
    cbn. now rewrite lookup_insert_eq.
  - assert (dependencies d1 = dependencies (Collect.ContractDefinition d c)) as ->.
    { revert Hparts.
      apply (forM_invariant (Collect.visitPart H)
               (fun s => dependencies s = dependencies (Collect.ContractDefinition d c))
               (fun _ => True)); [|apply Forall_True|reflexivity].
      intros s x s' _ Hs Hstep. now rewrite (visitPart_dependencies H _ _ _ Hstep). }
    cbn. now rewrite lookup_insert_eq.
Qed.

End Tables.

Lemma contract_tables_hold_its_latest_declaration_witness :
  exists d',
    Collect.visitItem SpecHelpers.helpers Examples.superCollected
      (Examples.contract "A" "contract" [] [Examples.fn "h" []]) = Ok d'
    /\ functionsPerContract Examples.superCollected !! "A" = Some [Js.Str "f"]
    /\ functionsPerContract d' !! "A" = Some [Js.Str "h"]
    /\ dependencies d' !! "A" = Some [GLOBAL].
Proof.
  eexists. split; [reflexivity|]. split; [reflexivity|].
  apply (contract_tables_hold_its_latest_declaration SpecHelpers.helpers
           Examples.superCollected _
           {| Ast.contract_name := "A"; Ast.contract_kind := "contract";
              Ast.baseContracts := []; Ast.subNodes := [Examples.fn "h" []] |}).
  reflexivity.
Defined.

Lemma set_add_again (x : string) (s : list string) :
  Js.set_add x (Js.set_add x s) = Js.set_add x s.
Proof.
  unfold Js.set_add at 1. unfold Js.set_has. rewrite bool_decide_eq_true_2; [reflexivity|].
  unfold Js.set_add, Js.set_has. case_bool_decide as Hx; [exact Hx|].
  apply elem_of_app. right. now apply list_elem_of_singleton.
Qed.

(** X19. A [using L for T] declaration records [L] under [T] (under [*]
    without a type) for the current contract, and declaring it a second time
    changes nothing. *)
Theorem using_for_twice_is_once (d d' : Decls) (libraryName : string)
    (typeName : option Ast.TypeName) :
  Collect.UsingForDeclaration d libraryName typeName = Ok d' ->
  Collect.UsingForDeclaration d' libraryName typeName = Ok d'
  /\ exists usingFor registered,
       contractUsingFor d' !! contractName d = Some usingFor
       /\ usingFor !! usingForKey typeName = Some registered
       /\ libraryName ∈ registered.
Proof.
  unfold Collect.UsingForDeclaration. fold (usingForKey typeName).
  destruct (contractUsingFor d !! contractName d) as [usingFor|] eqn:Hu; [|discriminate].
  intros [= <-]. cbn [contractUsingFor contractName Collect.with_usingFor]. split.
  - rewrite lookup_insert_eq, lookup_insert_eq. cbn [default from_option id].
    rewrite set_add_again, !insert_insert_eq. reflexivity.
  - eexists _, _. rewrite lookup_insert_eq. split; [reflexivity|].
    rewrite lookup_insert_eq. split; [reflexivity|].
    unfold Js.set_add, Js.set_has. case_bool_decide as Hx; [exact Hx|].
    apply elem_of_app. right. now apply list_elem_of_singleton.
Qed.

Lemma using_for_twice_is_once_witness :
  exists d',
    Collect.UsingForDeclaration Examples.superCollected "SafeMath"
      (Some (Ast.ElementaryTypeName "uint256")) = Ok d'
    /\ Collect.UsingForDeclaration d' "SafeMath" (Some (Ast.ElementaryTypeName "uint256"))
       = Ok d'
    /\ exists usingFor registered,
         contractUsingFor d' !! contractName Examples.superCollected = Some usingFor
         /\ usingFor !! "uint256" = Some registered
         /\ "SafeMath" ∈ registered.
Proof.
  eexists. split; [reflexivity|].
  apply (using_for_twice_is_once Examples.superCollected _ "SafeMath"
           (Some (Ast.ElementaryTypeName "uint256"))).
  reflexivity.
Defined.

(** ** Parameters *)

Lemma unnamed_declaration_skipped (H : ParserHelpers) (st : Resolve.Scope)
    (unnamed : Ast.VariableDeclaration) :
  Ast.var_name unnamed = Js.Null ->
  Resolve.VariableDeclaration H st unnamed = Ok st.
Proof.
  intros Hnull. unfold Resolve.VariableDeclaration.
  destruct (Resolve.callingScope st); [|reflexivity].
  now rewrite bool_decide_eq_true_2.
Qed.

(** X20. The [VariableDeclaration] handler passes over a declaration
    without a name and leaves the tables as they are. The parameters of a
    function reach the visitor as [VariableDeclaration] nodes, so an
    unnamed parameter changes nothing for the parameters before and after
    it: they are recorded as if it were not there. *)
Theorem unnamed_parameter_is_passed_over
    (H : ParserHelpers) (options : Options) (d : Decls)
    (deps : gmap string (list string)) (st : Resolve.Scope)
    (before after : list Ast.VariableDeclaration) (unnamed : Ast.VariableDeclaration) :
  Ast.var_name unnamed = Js.Null ->
  forM (Resolve.visitNode H options d deps)
    (map Ast.VariableDeclarationNode (before ++ unnamed :: after)) st
  = forM (Resolve.visitNode H options d deps)
      (map Ast.VariableDeclarationNode (before ++ after)) st.
Proof.
  intros Hnull. rewrite !map_app, !forM_app.
  destruct (forM _ (map Ast.VariableDeclarationNode before) st) as [st1|e];
    cbn [mbind result_bind]; [|reflexivity].
  change (forM (Resolve.visitNode H options d deps)
            (map Ast.VariableDeclarationNode (unnamed :: after)) st1)
    with (s ← Resolve.VariableDeclaration H st1 unnamed;
          forM (Resolve.visitNode H options d deps)
            (map Ast.VariableDeclarationNode after) s).
  now rewrite (unnamed_declaration_skipped H st1 unnamed Hnull).
Qed.

Lemma unnamed_parameter_is_passed_over_witness :
  exists st',
    forM (Resolve.visitNode SpecHelpers.helpers Examples.sources Examples.inheritedDecls
            Examples.inheritedDeps)
      (map Ast.VariableDeclarationNode
         ([Examples.var "a" (Ast.ElementaryTypeName "uint256")]
            ++ {| Ast.var_name := Js.Null;
                  Ast.var_typeName := Ast.ElementaryTypeName "uint256" |}
            :: [Examples.var "token" (Ast.UserDefinedTypeName "Token")]))
      (Examples.scopeIn "T" "T.f" Graphviz.empty) = Ok st'
    /\ Resolve.localVars st' !! "a" = Some (Js.Str "uint256")
    /\ Resolve.userDefinedLocalVars st' !! "token" = Some (Js.Str "Token").
Proof.
  rewrite (unnamed_parameter_is_passed_over SpecHelpers.helpers Examples.sources
             Examples.inheritedDecls Examples.inheritedDeps
             (Examples.scopeIn "T" "T.f" Graphviz.empty)
             [Examples.var "a" (Ast.ElementaryTypeName "uint256")]
             [Examples.var "token" (Ast.UserDefinedTypeName "Token")]
             {| Ast.var_name := Js.Null;
                Ast.var_typeName := Ast.ElementaryTypeName "uint256" |} eq_refl).
  eexists. split; [reflexivity|]. split; reflexivity.
Defined.

(** ** Outside of functions and modifiers *)
Section Scopeless.
Variable H : ParserHelpers.
Variable options : Options.
Variable d : Decls.
Variable deps : gmap string (list string).
Variable g : Graphviz.Digraph.

Lemma visitNodes_idle (ns : list Ast.Node) (st st' : Resolve.Scope) :
  idle g st -> forM (Resolve.visitNode H options d deps) ns st = Ok st' -> idle g st'.
Proof.
  apply (visitNodes_invariant H options d deps (idle g)).
  - intros s node s' [Hs Hg]. unfold Resolve.FunctionCall. rewrite Hs.
    now intros [= <-].
  - intros s ps [Hs Hg]. destruct (ParameterList_digraph H ps s) as (E1 & E2 & _).
    split; congruence.
  - intros s v s' [Hs Hg] Hv. destruct (VariableDeclaration_digraph H v s s' Hv) as (E1 & E2 & _).
    split; congruence.
  - intros s name [Hs Hg]. unfold Resolve.ModifierInvocation. now rewrite Hs.
Qed.

Lemma visitPart_idle (p : Ast.ContractPart) (st st' : Resolve.Scope) :
  opensScope p = false ->
  idle g st -> Resolve.visitPart H options d deps st p = Ok st' -> idle g st'.
Proof.
  intros Hp Hst. destruct p as [vars cs|f|name cs|name cs|name cs|name cs|lib t|cs];
    try discriminate; cbn [Resolve.visitPart].
  - destruct (forM (Resolve.VariableDeclaration H) vars st) as [st1|e] eqn:Hvars;
      cbn [mbind result_bind]; [|discriminate].
    apply visitNodes_idle. revert Hvars.
    apply (forM_invariant _ (idle g) (fun _ => True)); [|apply Forall_True|exact Hst].
    intros s v s' _ [Hs Hg] Hv.
    destruct (VariableDeclaration_digraph H v s s' Hv) as (E1 & E2 & _). split; congruence.
  - apply visitNodes_idle. exact Hst.
  - now apply visitNodes_idle.
  - now apply visitNodes_idle.
  - now intros [= <-].
  - now apply visitNodes_idle.
Qed.

Lemma visitItem_idle (item : Ast.SourceItem) (st st' : Resolve.Scope) :
  scopeless item = true ->
  idle g st -> Resolve.visitItem H options d deps st item = Ok st' -> idle g st'.
Proof.
  intros Hitem Hst. destruct item as [path|c|p]; cbn [Resolve.visitItem scopeless] in *.
  - now intros [= <-].
  - destruct (Resolve.ContractDefinition d deps st c) as [st1|e] eqn:Hc;
      cbn [mbind result_bind]; [|discriminate].
    assert (idle g st1) as Hst1.
    { unfold Resolve.ContractDefinition in Hc.
      destruct (deps !! Ast.contract_name c); [|discriminate].
      now injection Hc as <-. }
    destruct (forM _ (Ast.baseContracts c) st1) as [st2|e] eqn:Hbases;
      cbn [mbind result_bind]; [|discriminate].
    assert (idle g st2) as Hst2.
    { revert Hbases.
      apply (forM_invariant _ (idle g) (fun _ => True)); [|apply Forall_True|exact Hst1].
      intros s b s' _ Hs. now apply visitNodes_idle. }
    destruct (forM _ (Ast.subNodes c) st2) as [st3|e] eqn:Hparts;
      cbn [mbind result_bind]; [|discriminate].
    intros [= <-].
    assert (idle g st3) as [Hs3 Hg3]; [|now split].
    revert Hparts.
    apply (forM_invariant _ (idle g) (fun p => opensScope p = false)); [| |exact Hst2].
    + intros s p s' Hp Hs. now apply visitPart_idle.
    + apply Forall_forall. intros p Hin. rewrite forallb_forall in Hitem.
      apply negb_true_iff, Hitem. now apply list_elem_of_In.
  - apply visitPart_idle; [now apply negb_true_iff|exact Hst].
Qed.

End Scopeless.

(** X21. A tree that declares no function and no modifier leaves the
    graph as it is: calls in the initial values of state variables, in the
    arguments of base contracts or in other members are ignored. *)
Theorem calls_outside_functions_and_modifiers_draw_nothing
    (H : ParserHelpers) (options : Options) (d : Decls)
    (deps : gmap string (list string)) (g : Graphviz.Digraph)
    (ast : Ast.SourceUnit) (st : Resolve.Scope) :
  forallb scopeless ast = true ->
  Resolve.visit H options d deps g ast = Ok st ->
  Resolve.digraph st = g.
Proof.
  intros Hast Hvisit. unfold Resolve.visit in Hvisit.
  assert (idle g st) as [_ Hg]; [|exact Hg]. revert Hvisit.
  apply (forM_invariant _ (idle g) (fun item => scopeless item = true)).
  - intros s item s' Hitem Hs. now apply visitItem_idle.
  - apply Forall_forall. intros item Hin. rewrite forallb_forall in Hast.
    apply Hast. now apply list_elem_of_In.
  - done.
Qed.

Lemma calls_outside_functions_and_modifiers_draw_nothing_witness :
  exists st,
    Resolve.visit SpecHelpers.helpers Examples.sources Examples.inheritedDecls
      Examples.inheritedDeps Examples.inheritedGraph
      [ Examples.contract "C" "contract" ["B"]
          [ Ast.StateVariableDeclaration [Examples.var "x" (Ast.ElementaryTypeName "uint256")]
              [Ast.ExpressionNode (Examples.plainCall "foo")] ] ] = Ok st
    /\ Resolve.digraph st = Examples.inheritedGraph.
Proof.
  eexists. split; [reflexivity|].
  apply (calls_outside_functions_and_modifiers_draw_nothing SpecHelpers.helpers
           Examples.sources Examples.inheritedDecls Examples.inheritedDeps
           Examples.inheritedGraph
           [ Examples.contract "C" "contract" ["B"]
               [ Ast.StateVariableDeclaration
                   [Examples.var "x" (Ast.ElementaryTypeName "uint256")]
                   [Ast.ExpressionNode (Examples.plainCall "foo")] ] ]);
    reflexivity.
Defined.

Section AfterContract.
Variable deps : gmap string (list string).

Lemma Register_visitPart_fields (st st' : Register.State) (p : Ast.ContractPart) :
  Register.visitPart deps st p = Ok st' ->
  Register.cluster st' = Register.cluster st
  /\ Register.contractName st' = Register.contractName st.
Proof.
  destruct p; cbn [Register.visitPart]; try (now intros [= <-]).
  - intros [= <-]. unfold Register.FunctionDefinition.
    destruct (Register.cluster st) eqn:Hc; cbn; rewrite ?Hc; done.
  - unfold Register.ModifierDefinition. destruct (Register.cluster st) eqn:Hc; [|discriminate].
    intros [= <-]. cbn. rewrite ?Hc. done.
Qed.

Lemma Register_contract_exit (st st' : Register.State) (c : Ast.ContractDefinition) :
  is_Some (Graphviz.getCluster (Register.digraph st) (Ast.contract_name c)) ->
  Register.visitItem deps st (Ast.ContractItem c) = Ok st' ->
  Register.cluster st' = Some (Ast.contract_name c)
  /\ Register.contractName st' = GLOBAL
  /\ is_Some (Graphviz.getCluster (Register.digraph st') (Ast.contract_name c)).
Proof.
  intros [cl Hcl] Hitem.
  pose proof (Register_visitItem_keepsEdges deps _ _ _ Hitem) as [(_ & _ & _ & Hkeep) _].
  cbn [Register.visitItem] in Hitem.
  destruct (forM _ _ _) as [st1|e] eqn:Hparts; cbn [mbind result_bind] in Hitem;
    [|discriminate].
  injection Hitem as <-. cbn [Register.ContractDefinition_exit Register.cluster
                               Register.contractName Register.digraph].
  assert (Register.cluster st1 = Some (Ast.contract_name c)) as ->.
  { revert Hparts.
    apply (forM_invariant _ (fun s => Register.cluster s = Some (Ast.contract_name c))
             (fun _ => True)); [|apply Forall_True|].
    - intros s p s' _ Hs Hp. destruct (Register_visitPart_fields _ _ _ Hp) as [E _].
      congruence.
    - unfold Register.ContractDefinition. cbn [Register.cluster]. now rewrite Hcl. }
  split; [reflexivity|]. split; [reflexivity|].
  destruct (Hkeep _ _ Hcl) as (cl' & Hcl' & _). cbn in Hcl'. eauto.
Qed.

(** X22. A function declared at file level right after a contract is
    registered as the node [0_global.<name>] in the cluster of that
    contract: the cluster fetched for the contract is still the current one
    after the contract is left. ([0_global] has no linearization, or only
    itself.) *)
Theorem file_level_function_after_contract_joins_its_cluster
    (g : Graphviz.Digraph) (pre : list Ast.SourceItem) (c : Ast.ContractDefinition)
    (f : Ast.FunctionDefinition) (st : Register.State) :
  (forall order, deps !! GLOBAL = Some order -> order = [GLOBAL]) ->
  is_Some (Graphviz.getCluster g (Ast.contract_name c)) ->
  Register.visit deps g
    (pre ++ [Ast.ContractItem c; Ast.FileLevel (Ast.FunctionDefinitionPart f)]) = Ok st ->
  Ast.contract_name c
  ∈ Graphviz.clusters_of (Register.digraph st) (qualified GLOBAL (functionName f)).
Proof.
  intros Hglobal [cl Hcl]. unfold Register.visit. rewrite forM_app.
  destruct (forM (Register.visitItem deps) pre (Register.initial g)) as [st0|e] eqn:Hpre;
    cbn [mbind result_bind]; [|discriminate].
  apply (Register_visit_keepsEdges deps g pre) in Hpre as [(_ & _ & _ & Hkeep) _].
  destruct (Hkeep _ _ Hcl) as (cl0 & Hcl0 & _).
  change (forM (Register.visitItem deps)
            [Ast.ContractItem c; Ast.FileLevel (Ast.FunctionDefinitionPart f)] st0)
    with (s ← Register.visitItem deps st0 (Ast.ContractItem c);
          s' ← Register.visitItem deps s (Ast.FileLevel (Ast.FunctionDefinitionPart f));
          Ok s').
  destruct (Register.visitItem deps st0 (Ast.ContractItem c)) as [st1|e] eqn:Hc;
    cbn [mbind result_bind]; [|discriminate].
  destruct (Register_contract_exit _ _ _ (ex_intro _ cl0 Hcl0) Hc) as (Hcluster & Hname & [cl1 Hcl1]).
  cbn [Register.visitItem Register.visitPart mbind result_bind]. intros [= <-].
  unfold Register.FunctionDefinition. rewrite Hcluster, Hname. cbn [Register.digraph].
  rewrite (nodeName_global deps _ _ Hglobal).
  apply (clusters_of_addNode_grows _ _ _ _ _ cl1 Hcl1). now left.
Qed.

End AfterContract.

Lemma file_level_function_after_contract_joins_its_cluster_witness :
  exists st,
    Register.visit {[ "K" := ["K"; GLOBAL] ]} (Examples.graphOf [("K", [])])
      [ Examples.contract "K" "contract" [] [Examples.fn "k" []];
        Ast.FileLevel (Examples.fn "helper" []) ] = Ok st
    /\ "K" ∈ Graphviz.clusters_of (Register.digraph st) "0_global.helper".
Proof.
  eexists. split; [reflexivity|].
  apply (file_level_function_after_contract_joins_its_cluster
           {[ "K" := ["K"; GLOBAL] ]} (Examples.graphOf [("K", [])]) []
           {| Ast.contract_name := "K"; Ast.contract_kind := "contract";
              Ast.baseContracts := []; Ast.subNodes := [Examples.fn "k" []] |}
           {| Ast.fn_name := Js.Str "helper"; Ast.isConstructor := false;
              Ast.isFallback := false; Ast.isReceiveEther := false;
              Ast.visibility := "public"; Ast.stateMutability := Js.Null;
              Ast.fn_children := [] |}).
  - intros order Horder. vm_compute in Horder. discriminate.
  - eexists. reflexivity.
  - reflexivity.
Defined.

(** ** Inside a function *)
Section Attribution.
Variable H : ParserHelpers.
Variable options : Options.
Variable d : Decls.
Variable deps : gmap string (list string).

Lemma visitNodes_attributed (g : Graphviz.Digraph) (scope : string)
    (ns : list Ast.Node) (st st' : Resolve.Scope) :
  attributed g scope st ->
  forM (Resolve.visitNode H options d deps) ns st = Ok st' ->
  attributed g scope st'.
Proof.
  apply (visitNodes_invariant H options d deps (attributed g scope)).
  - intros s node s' [Hs (added & Hedges & Hfrom)] Hcall.
    apply FunctionCall_cases in Hcall as [->|(scope' & expr & c & Hscope & ->)];
      [split; eauto|].
    assert (scope' = scope) as -> by congruence.
    split; [exact Hs|]. eexists. rewrite emitCall_edges, Hedges, <- app_assoc.
    split; [reflexivity|]. apply Forall_app. split; [exact Hfrom|]. now repeat constructor.
  - intros s ps [Hs Hedges]. destruct (ParameterList_digraph H ps s) as (E1 & E2 & _).
    split; [congruence|]. now rewrite E1.
  - intros s v s' [Hs Hedges] Hv.
    destruct (VariableDeclaration_digraph H v s s' Hv) as (E1 & E2 & _).
    split; [congruence|]. now rewrite E1.
  - intros s name [Hs (added & Hedges & Hfrom)]. unfold Resolve.ModifierInvocation.
    rewrite Hs. destruct (enableModifierEdges options); [|split; eauto].
    split; [exact Hs|]. eexists. cbn. rewrite Hedges, <- app_assoc.
    split; [reflexivity|]. apply Forall_app. split; [exact Hfrom|]. now repeat constructor.
Qed.

End Attribution.

(** X23. Every edge added while a function is walked starts at the node
    name computed when the function was entered, calls nested in the
    arguments of other calls included; once the function is left there is
    no calling scope. *)
Theorem edges_of_a_function_body_start_at_its_node
    (H : ParserHelpers) (options : Options) (d : Decls)
    (deps : gmap string (list string)) (st st' : Resolve.Scope)
    (f : Ast.FunctionDefinition) :
  Resolve.visitPart H options d deps st (Ast.FunctionDefinitionPart f) = Ok st' ->
  Resolve.callingScope st' = None
  /\ exists added,
       Graphviz.edges (Resolve.digraph st')
       = Graphviz.edges (Resolve.digraph st) ++ added
       /\ Forall (fun e => Graphviz.edge_from e
                           = nodeName deps (Resolve.digraph st) (functionName f)
                               (Resolve.contractName st)) added.
Proof.
  cbn [Resolve.visitPart].
  destruct (forM _ _ _) as [st1|e] eqn:Hbody; cbn [mbind result_bind]; [|discriminate].
  intros [= <-]. split; [reflexivity|].
  apply (visitNodes_attributed H options d deps (Resolve.digraph st)
           (nodeName deps (Resolve.digraph st) (functionName f) (Resolve.contractName st)))
    in Hbody as [_ Hadded]; [exact Hadded|].
  split; [reflexivity|]. exists []. split; [now rewrite app_nil_r|constructor].
Qed.

Lemma edges_of_a_function_body_start_at_its_node_witness :
  exists st',
    Resolve.visitPart SpecHelpers.helpers Examples.sources Examples.inheritedDecls
      Examples.inheritedDeps (Examples.scopeIn "C" "C.other" Examples.inheritedGraph)
      (Examples.fn "bar"
         [Ast.ExpressionNode
            (Ast.FunctionCall Examples.r0 (Ast.Identifier Examples.r0 "foo")
               [Examples.plainCall "baz"])]) = Ok st'
    /\ Resolve.callingScope st' = None
    /\ exists added,
         Graphviz.edges (Resolve.digraph st')
         = Graphviz.edges Examples.inheritedGraph ++ added
         /\ Forall (fun e => Graphviz.edge_from e = "C.bar") added.
Proof.
  eexists. split; [reflexivity|].
  apply (edges_of_a_function_body_start_at_its_node SpecHelpers.helpers Examples.sources
           Examples.inheritedDecls Examples.inheritedDeps
           (Examples.scopeIn "C" "C.other" Examples.inheritedGraph) _
           {| Ast.fn_name := Js.Str "bar"; Ast.isConstructor := false;
              Ast.isFallback := false; Ast.isReceiveEther := false;
              Ast.visibility := "public"; Ast.stateMutability := Js.Null;
              Ast.fn_children :=
                [Ast.ExpressionNode
                   (Ast.FunctionCall Examples.r0 (Ast.Identifier Examples.r0 "foo")
                      [Examples.plainCall "baz"])] |}).
  reflexivity.
Defined.

(** ** State variables and special functions *)

Lemma assign_keeps (target : Table) (source : option Table) (x : string) :
  is_Some (target !! x) -> is_Some (Resolve.assign target source !! x).
Proof.
  intros [v Hv]. destruct source as [s|]; cbn; [|eauto].
  destruct (s !! x) as [w|] eqn:Hs.
  - exists w. now apply lookup_union_Some_l.
  - exists v. rewrite lookup_union_r; assumption.
Qed.

Lemma assign_source (target source : Table) (x : string) (v : Js.val) :
  source !! x = Some v -> Resolve.assign target (Some source) !! x = Some v.
Proof. intros Hv. cbn. now apply lookup_union_Some_l. Qed.

Lemma assigned_visible (tables : gmap string Table) (order : list string)
    (start : Table) (x : string) :
  is_Some (start !! x)
  \/ (exists dep table, dep ∈ order /\ tables !! dep = Some table /\ is_Some (table !! x)) ->
  is_Some (fold_left (fun t dep => Resolve.assign t (tables !! dep)) order start !! x).
Proof.
  revert start. induction order as [|dep order IH]; intros start; cbn [fold_left].
  - intros [Hs|(dep & table & Hin & _)]; [exact Hs|now apply elem_of_nil in Hin].
  - intros [Hs|(dep' & table & Hin & Htable & [v Hx])].
    + apply IH. left. now apply assign_keeps.
    + apply elem_of_cons in Hin as [->|Hin].
      * apply IH. left. rewrite Htable. exists v. now apply assign_source.
      * apply IH. right. exists dep', table. eauto.
Qed.

(** X24. On entering a contract, each of the two tables of state variables
    (the one for elementary types and the one for user-defined types) holds
    every name that the same table of a contract of the linearization
    holds, and for a name the contract has in that table itself, the value
    the contract recorded there. The tables are filled one without the
    other: a name an ancestor declares with a user-defined type stays in
    the table for user-defined types when the contract declares it again
    with an elementary type, and the resolver reads that table first. *)
Theorem state_variable_tables_are_inherited_table_by_table
    (d : Decls) (deps : gmap string (list string)) (st st' : Resolve.Scope)
    (c : Ast.ContractDefinition) (order : list string) :
  deps !! Ast.contract_name c = Some order ->
  Resolve.ContractDefinition d deps st c = Ok st' ->
  (forall own x v,
      stateVars d !! Ast.contract_name c = Some own -> own !! x = Some v ->
      Resolve.tempStateVars st' !! x = Some v)
  /\ (forall own x v,
        userDefinedStateVars d !! Ast.contract_name c = Some own -> own !! x = Some v ->
        Resolve.tempUserDefinedStateVars st' !! x = Some v)
  /\ (forall dep table x,
        dep ∈ order -> stateVars d !! dep = Some table -> is_Some (table !! x) ->
        is_Some (Resolve.tempStateVars st' !! x))
  /\ (forall dep table x,
        dep ∈ order -> userDefinedStateVars d !! dep = Some table ->
        is_Some (table !! x) ->
        is_Some (Resolve.tempUserDefinedStateVars st' !! x)).
Proof.
  intros Horder. unfold Resolve.ContractDefinition. rewrite Horder. intros [= <-].
  cbn [Resolve.tempStateVars Resolve.tempUserDefinedStateVars].
  split; [|split; [|split]].
  - intros own x v -> Hx. now apply assign_source.
  - intros own x v -> Hx. now apply assign_source.
  - intros dep table x Hin Htable Hx. apply assign_keeps, assigned_visible.
    right. now exists dep, table.
  - intros dep table x Hin Htable Hx. apply assign_keeps, assigned_visible.
    right. now exists dep, table.
Qed.

Lemma state_variable_tables_are_inherited_table_by_table_witness :
  exists st',
    Resolve.ContractDefinition Examples.stateDecls Examples.inheritedDeps
      (Resolve.initial Examples.inheritedGraph)
      {| Ast.contract_name := "C"; Ast.contract_kind := "contract";
         Ast.baseContracts := []; Ast.subNodes := [] |} = Ok st'
    /\ Resolve.tempStateVars st' !! "owner" = Some (Js.Str "uint256")
    /\ Resolve.tempStateVars st' !! "t" = Some (Js.Str "uint256")
    /\ is_Some (Resolve.tempUserDefinedStateVars st' !! "t").
Proof.
  eexists. split; [reflexivity|].
  destruct (state_variable_tables_are_inherited_table_by_table
              Examples.stateDecls Examples.inheritedDeps
              (Resolve.initial Examples.inheritedGraph) _
              {| Ast.contract_name := "C"; Ast.contract_kind := "contract";
                 Ast.baseContracts := []; Ast.subNodes := [] |}
              ["C"; "B"; GLOBAL] eq_refl eq_refl) as (Hown & _ & _ & Hinherited).
  split; [|split].
  - apply (Hown {[ "owner" := Js.Str "uint256"; "t" := Js.Str "uint256" ]});
      reflexivity.
  - apply (Hown {[ "owner" := Js.Str "uint256"; "t" := Js.Str "uint256" ]});
      reflexivity.
  - apply (Hinherited "B" {[ "t" := Js.Str "Token" ]}).
    + apply list_elem_of_further, list_elem_of_here.
    + reflexivity.
    + eexists. reflexivity.
Defined.

(** X25. A constructor, a fallback or a receive function is registered under
    the name of the contract that declares it, in the cluster of that
    contract, whether or not an ancestor has a node of the same kind. *)
Theorem special_functions_are_never_merged
    (deps : gmap string (list string)) (st : Register.State)
    (f : Ast.FunctionDefinition) (c : string) (cl : Graphviz.Cluster) :
  Register.cluster st = Some c ->
  Graphviz.getCluster (Register.digraph st) c = Some cl ->
  Ast.isConstructor f || Ast.isFallback f || Ast.isReceiveEther f = true ->
  nodeName deps (Register.digraph st) (functionName f) (Register.contractName st)
  = qualified (Register.contractName st) (functionName f)
  /\ functionName f ∈ [Js.Str CONSTRUCTOR; Js.Str FALLBACK; Js.Str RECEIVE]
  /\ c ∈ Graphviz.clusters_of
           (Register.digraph (Register.FunctionDefinition deps st f))
           (qualified (Register.contractName st) (functionName f)).
Proof.
  intros Hc Hcl Hspecial.
  assert (functionName f ∈ [Js.Str CONSTRUCTOR; Js.Str FALLBACK; Js.Str RECEIVE]) as Hname.
  { unfold functionName.
    destruct (Ast.isConstructor f); [apply elem_of_cons; now left|].
    destruct (Ast.isFallback f);
      [apply elem_of_cons; right; apply elem_of_cons; now left|].
    destruct (Ast.isReceiveEther f); [|discriminate].
    do 2 (apply elem_of_cons; right). apply elem_of_cons. now left. }
  assert (nodeName deps (Register.digraph st) (functionName f) (Register.contractName st)
          = qualified (Register.contractName st) (functionName f)) as Hnode.
  { unfold nodeName. destruct (_ && _ && _) eqn:E; [|reflexivity].
    apply andb_true_iff in E as [E E3]. apply andb_true_iff in E as [E1 E2].
    apply bool_decide_eq_true in E1, E2, E3.
    repeat (apply elem_of_cons in Hname as [Hname | Hname]; [congruence|]).
    now apply elem_of_nil in Hname. }
  split; [exact Hnode|]. split; [exact Hname|].
  unfold Register.FunctionDefinition. rewrite Hc. cbn [Register.digraph]. rewrite Hnode.
  apply (clusters_of_addNode_grows _ _ _ _ _ cl Hcl). now left.
Qed.


Lemma special_functions_are_never_merged_witness :
  nodeName Examples.inheritedDeps (Register.digraph Examples.constructorAtC)
    (functionName Examples.constructor) "C"
  = "C.<Constructor>"
  /\ functionName Examples.constructor
     ∈ [Js.Str CONSTRUCTOR; Js.Str FALLBACK; Js.Str RECEIVE]
  /\ "C" ∈ Graphviz.clusters_of
             (Register.digraph
                (Register.FunctionDefinition Examples.inheritedDeps
                   Examples.constructorAtC Examples.constructor))
             "C.<Constructor>".
Proof.
  eapply (special_functions_are_never_merged Examples.inheritedDeps
            Examples.constructorAtC Examples.constructor "C"); reflexivity.
Defined.
